(** * Block-column distributed Dijkstra (p3.c): a shallow embedding

    The program runs [p] MPI processes in lockstep.  Process 0 reads an
    n-by-n matrix, the matrix is scattered by block columns, every process
    runs [Dijkstra] on its block (one [MPI_Allreduce] with [MPI_MINLOC] per
    round), and process 0 gathers and prints distances and paths.

    Conventions of the embedding:
    - a C [int] is a [Z]; signed overflow and division by zero are
      undefined behaviour and make the computation fail ([None]);
    - an [int] array is a [list Z]; a read or write outside the array
      fails ([None]);
    - the processes of the communicator are the positions of a list, the
      rank of a process being its position; a collective call is a function
      of the list of all contributions;
    - what is printed, and what a [char] array holds up to its null byte,
      is a [string]; the numbers on standard input are a [list Z]. *)

From stdpp Require Import base option list numbers sets strings pretty.
From Stdlib Require Import ZArith Lia Permutation.
From Stdlib Require String.

Local Open Scope Z_scope.

(** ** C integers and arrays *)

Definition INFINITY : Z := 1000000.
Definition INT_MAX : Z := 2147483647.
Definition INT_MIN : Z := -2147483648.

Definition in_int (z : Z) : bool := (INT_MIN <=? z) && (z <=? INT_MAX).

Definition checked (z : Z) : option Z := if in_int z then Some z else None.

Definition int_add (a b : Z) : option Z := checked (a + b).
Definition int_mul (a b : Z) : option Z := checked (a * b).
Definition int_div (a b : Z) : option Z :=
  if b =? 0 then None else checked (Z.quot a b).
Definition int_rem (a b : Z) : option Z :=
  if b =? 0 then None else checked (Z.rem a b).

(** [a[i]] as an rvalue. *)
Definition rd (a : list Z) (i : Z) : option Z :=
  if 0 <=? i then a !! Z.to_nat i else None.

(** [a[i] = x]. *)
Definition wr (a : list Z) (i x : Z) : option (list Z) :=
  if (0 <=? i) && (i <? Z.of_nat (length a))
  then Some (<[Z.to_nat i := x]> a) else None.

(** [malloc(k*sizeof(int))]: the cells hold indeterminate values (0 here).
    When the number of processes divides [n], every cell the program reads
    has been written before.  When it does not, [Print_dists],
    [Print_paths] and [Print_matrix] read cells that no process wrote: what
    the embedding shows for those cells is this fill, not a behaviour of
    the program, and no property below rests on it. *)
Definition malloc (k : Z) : list Z := replicate (Z.to_nat k) 0.

(** [for (v = lo; v < hi; v++) body], the loop state threaded through. *)
Fixpoint for_loop {St : Type} (body : Z → St → option St)
    (k : nat) (v : Z) (s : St) : option St :=
  match k with
  | O => Some s
  | S k' => s' ← body v s; for_loop body k' (v + 1) s'
  end.

Definition for_range {St : Type} (body : Z → St → option St)
    (lo hi : Z) (s : St) : option St :=
  for_loop body (Z.to_nat (hi - lo)) lo s.

(** ** The process group *)

(** Run [f rank x] on every process, ranks counted from [r]. *)
Fixpoint each_rank {A B : Type} (f : Z → A → option B)
    (r : Z) (xs : list A) : option (list B) :=
  match xs with
  | [] => Some []
  | x :: xs' => y ← f r x; ys ← each_rank f (r + 1) xs'; Some (y :: ys)
  end.

Definition spmd {A B : Type} (f : Z → A → option B) (xs : list A)
    : option (list B) :=
  each_rank f 0 xs.

(** ** Find_min_dist *)

Definition Find_min_dist_body (loc_dist loc_known : list Z)
    (loc_v : Z) (st : Z * Z) : option (Z * Z) :=
  let '(loc_u, loc_min_dist) := st in
  k ← rd loc_known loc_v;
  if k =? 0 then
    d ← rd loc_dist loc_v;
    if d <? loc_min_dist then Some (loc_v, d) else Some (loc_u, loc_min_dist)
  else Some (loc_u, loc_min_dist).

Definition Find_min_dist (loc_dist loc_known : list Z) (loc_n : Z)
    : option Z :=
  st ← for_range (Find_min_dist_body loc_dist loc_known) 0 loc_n
         (INFINITY, INFINITY);
  Some (fst st).

(** ** Dijkstra, one process *)

(** The arrays a process holds inside [Dijkstra]. *)
Record proc := Proc {
  loc_mat : list Z;
  loc_dist : list Z;
  loc_pred : list Z;
  known : list Z
}.

Definition set_known (w : proc) (k : list Z) : proc :=
  Proc (loc_mat w) (loc_dist w) (loc_pred w) k.

Definition Dijkstra_init_body (loc_n : Z) (v : Z) (w : proc) : option proc :=
  off ← int_mul 0 loc_n;
  idx ← int_add off v;
  x ← rd (loc_mat w) idx;
  d ← wr (loc_dist w) v x;
  q ← wr (loc_pred w) v 0;
  k ← wr (known w) v 0;
  Some (Proc (loc_mat w) d q k).

(** Lines 279-289: the arrays are allocated ([loc_dist] and [loc_pred] by
    [main]), filled from row 0 of the block, and process 0 marks vertex 0. *)
Definition Dijkstra_init (loc_n my_rank : Z) (mat : list Z) : option proc :=
  w ← for_range (Dijkstra_init_body loc_n) 0 loc_n
        (Proc mat (malloc loc_n) (malloc loc_n) (malloc loc_n));
  if my_rank =? 0 then
    k ← wr (known w) 0 1; Some (set_known w k)
  else Some w.

(** Lines 296-306: the pair this process contributes to the reduction. *)
Definition Dijkstra_my_min (loc_n my_rank : Z) (w : proc) : option (Z * Z) :=
  loc_u ← Find_min_dist (loc_dist w) (known w) loc_n;
  if loc_u <? INFINITY then
    d ← rd (loc_dist w) loc_u;
    off ← int_mul my_rank loc_n;
    g ← int_add loc_u off;
    Some (d, g)
  else Some (INFINITY, INFINITY).

Definition Dijkstra_relax_body (loc_n min_dist u : Z) (v : Z) (w : proc)
    : option proc :=
  k ← rd (known w) v;
  if k =? 0 then
    off ← int_mul u loc_n;
    idx ← int_add off v;
    x ← rd (loc_mat w) idx;
    new_dist ← int_add min_dist x;
    dv ← rd (loc_dist w) v;
    if new_dist <? dv then
      d ← wr (loc_dist w) v new_dist;
      q ← wr (loc_pred w) v u;
      Some (Proc (loc_mat w) d q (known w))
    else Some w
  else Some w.

(** Lines 312-332: what a process does with the result of the reduction. *)
Definition Dijkstra_update (loc_n my_rank : Z) (glbl_min : Z * Z) (w : proc)
    : option proc :=
  let min_dist := fst glbl_min in
  let u := snd glbl_min in
  owner ← int_div u loc_n;
  w1 ← (if owner =? my_rank then
          loc_u ← int_rem u loc_n;
          k ← wr (known w) loc_u 1;
          Some (set_known w k)
        else Some w);
  for_range (Dijkstra_relax_body loc_n min_dist u) 0 loc_n w1.

(** ** The collective reduction *)

(** [MPI_MINLOC] on [MPI_2INT] pairs (value, index). *)
Definition MPI_MINLOC (a b : Z * Z) : Z * Z :=
  if fst a <? fst b then a
  else if fst b <? fst a then b
  else (fst a, Z.min (snd a) (snd b)).

(** [MPI_Allreduce(..., 1, MPI_2INT, op, comm)]: the contributions are
    combined in rank order and every process receives the result. *)
Definition MPI_Allreduce (op : Z * Z → Z * Z → Z * Z)
    (contribs : list (Z * Z)) : option (list (Z * Z)) :=
  match contribs with
  | [] => None
  | c :: cs => Some (replicate (length contribs) (foldl op c cs))
  end.

(** ** Dijkstra, all processes in lockstep *)

Definition Dijkstra_round (loc_n : Z) (ws : list proc) : option (list proc) :=
  mins ← spmd (Dijkstra_my_min loc_n) ws;
  glbl ← MPI_Allreduce MPI_MINLOC mins;
  spmd (λ r '(g, w), Dijkstra_update loc_n r g w) (zip glbl ws).

(** [k] passes of the loop [for (i = 1; i < n; i++)]. *)
Fixpoint Dijkstra_rounds (loc_n : Z) (k : nat) (ws : list proc)
    : option (list proc) :=
  match k with
  | O => Some ws
  | S k' => ws' ← Dijkstra_round loc_n ws; Dijkstra_rounds loc_n k' ws'
  end.

Definition Dijkstra (n loc_n : Z) (mats : list (list Z))
    : option (list proc) :=
  ws ← spmd (Dijkstra_init loc_n) mats;
  Dijkstra_rounds loc_n (Z.to_nat (n - 1)) ws.

(** ** Derived datatypes and the data-moving collectives *)

(** A datatype is its type map (the displacements of its [int]s, counted in
    [int]s, in the order they are packed) and its extent. *)
Record MPI_Datatype := Datatype {
  typemap : list Z;
  lb : Z;
  extent : Z
}.

Definition MPI_INT : MPI_Datatype := Datatype [0] 0 1.

(** [count] copies of [old], copy [i] displaced by [disp i] extents. *)
Definition copies (count : Z) (disp : Z → Z) (old : MPI_Datatype) : list Z :=
  mjoin ((λ i, (λ d, disp i * extent old + d) <$> typemap old)
           <$> seqZ 0 count).

Definition MPI_Type_contiguous (count : Z) (old : MPI_Datatype)
    : MPI_Datatype :=
  Datatype (copies count (λ i, i) old) (lb old) (count * extent old).

Definition MPI_Type_vector (count blocklength stride : Z)
    (old : MPI_Datatype) : MPI_Datatype :=
  let block := MPI_Type_contiguous blocklength old in
  Datatype
    (mjoin ((λ i, (λ d, i * stride * extent old + d) <$> typemap block)
              <$> seqZ 0 count))
    (lb old)
    (((count - 1) * stride + blocklength) * extent old).

Definition MPI_Type_get_extent (t : MPI_Datatype) : Z * Z := (lb t, extent t).

Definition MPI_Type_create_resized (t : MPI_Datatype) (new_lb new_extent : Z)
    : MPI_Datatype :=
  Datatype (typemap t) new_lb new_extent.

Definition Build_blk_col_type (n loc_n : Z) : MPI_Datatype :=
  let block_mpi_t := MPI_Type_contiguous loc_n MPI_INT in
  let '(lb, extent) := MPI_Type_get_extent block_mpi_t in
  let first_bc_mpi_t := MPI_Type_vector n loc_n n MPI_INT in
  MPI_Type_create_resized first_bc_mpi_t lb extent.

(** The [int]s that [count] items of type [t] select from [buf], starting
    at [base]. *)
Definition pack (buf : list Z) (base count : Z) (t : MPI_Datatype)
    : option (list Z) :=
  mapM (λ d, rd buf (base + d)) (typemap (MPI_Type_contiguous count t)).

Fixpoint store_all (buf : list Z) (cells : list (Z * Z)) : option (list Z) :=
  match cells with
  | [] => Some buf
  | (i, x) :: cells' => buf' ← wr buf i x; store_all buf' cells'
  end.

(** The converse: [data] stored into [buf] as [count] items of type [t]. *)
Definition unpack (buf : list Z) (base count : Z) (t : MPI_Datatype)
    (data : list Z) : option (list Z) :=
  let disps := typemap (MPI_Type_contiguous count t) in
  if Nat.eqb (length disps) (length data)
  then store_all buf (zip ((λ d, base + d) <$> disps) data)
  else None.

(** [MPI_Scatter(sendbuf, sendcount, sendtype, recvbuf, recvcount, MPI_INT,
    0, comm)] on [p] processes: process [k] receives the [k]-th group of
    [sendcount] items of the root's buffer into a block of [recvcount]
    [int]s. *)
Definition MPI_Scatter (sendbuf : list Z) (sendcount : Z)
    (sendtype : MPI_Datatype) (recvcount : Z) (p : nat)
    : option (list (list Z)) :=
  spmd (λ k (_ : unit),
          data ← pack sendbuf (k * sendcount * extent sendtype)
                   sendcount sendtype;
          if Z.of_nat (length data) =? recvcount then Some data else None)
       (replicate p ()).

Fixpoint gather_from (recvbuf : list Z) (recvcount : Z)
    (recvtype : MPI_Datatype) (k : Z) (sendbufs : list (list Z))
    : option (list Z) :=
  match sendbufs with
  | [] => Some recvbuf
  | data :: rest =>
      buf' ← unpack recvbuf (k * recvcount * extent recvtype)
               recvcount recvtype data;
      gather_from buf' recvcount recvtype (k + 1) rest
  end.

(** [MPI_Gather(sendbuf, sendcount, MPI_INT, recvbuf, recvcount, recvtype,
    0, comm)]: the root stores the block of process [k] as the [k]-th group
    of [recvcount] items of [recvbuf]. *)
Definition MPI_Gather (sendbufs : list (list Z)) (sendcount : Z)
    (recvbuf : list Z) (recvcount : Z) (recvtype : MPI_Datatype)
    : option (list Z) :=
  if forallb (λ b, Z.of_nat (length b) =? sendcount) sendbufs
  then gather_from recvbuf recvcount recvtype 0 sendbufs
  else None.

(** ** Matrix input and output *)

(** [input] is what follows [n] on standard input.  Process 0 reads [n*n]
    numbers and the matrix is scattered by block columns. *)
Definition Read_matrix (input : list Z) (n loc_n : Z)
    (blk_col_mpi_t : MPI_Datatype) (p : nat) : option (list (list Z)) :=
  nn ← int_mul n n;
  mat ← (if nn <=? Z.of_nat (length input)
         then Some (take (Z.to_nat nn) input) else None);
  cnt ← int_mul n loc_n;
  MPI_Scatter mat 1 blk_col_mpi_t cnt p.

(** The matrix process 0 rebuilds (and then prints) in [Print_matrix]. *)
Definition Print_matrix (loc_mats : list (list Z)) (n loc_n : Z)
    (blk_col_mpi_t : MPI_Datatype) : option (list Z) :=
  nn ← int_mul n n;
  cnt ← int_mul n loc_n;
  MPI_Gather loc_mats cnt (malloc nn) 1 blk_col_mpi_t.

(** ** Output on process 0 *)

(** How a run of the program (or of one of its loops) ends. [ConfigError]
    is the fatal configuration failure the specification asks for; it is
    part of the vocabulary of outcomes, no statement of p3.c produces it. *)
Inductive outcome (A : Type) : Type :=
  | Finished (a : A)
  | ConfigError (msg : String.string)
  | Undefined
  | Timeout.

Arguments Finished {A} a.
Arguments ConfigError {A} msg.
Arguments Undefined {A}.
Arguments Timeout {A}.

Definition of_option {A : Type} (o : option A) : outcome A :=
  match o with Some a => Finished a | None => Undefined end.

Definition obind {A B : Type} (o : outcome A) (f : A → outcome B)
    : outcome B :=
  match o with
  | Finished a => f a
  | ConfigError msg => ConfigError msg
  | Undefined => Undefined
  | Timeout => Timeout
  end.

(** The table of distances: the lines [(v, dist[v])] for [v = 1 .. n-1]. *)
Definition Print_dists (loc_dists : list (list Z)) (n loc_n : Z)
    : option (list (Z * Z)) :=
  dist ← MPI_Gather loc_dists loc_n (malloc n) loc_n MPI_INT;
  mapM (λ v, d ← rd dist v; Some (v, d)) (seqZ 1 (n - 1)).

(** [while (w != 0) { path[count] = w; count++; w = pred[w]; }], at most
    [fuel] tests of the loop condition. *)
Fixpoint path_loop (fuel : nat) (pred path : list Z) (count w : Z)
    : outcome (list Z * Z) :=
  match fuel with
  | O => Timeout
  | S fuel' =>
      if w =? 0 then Finished (path, count)
      else
        match wr path count w, int_add count 1, rd pred w with
        | Some path', Some count', Some w' =>
            path_loop fuel' pred path' count' w'
        | _, _, _ => Undefined
        end
  end.

(** One line of the table of paths: 0, then [path[count-1] .. path[0]]. *)
Definition print_path (path : list Z) (count : Z) : option (list Z) :=
  tl ← mapM (rd path) (reverse (seqZ 0 count));
  Some (0 :: tl).

Fixpoint Print_paths_lines (fuel : nat) (pred path : list Z) (vs : list Z)
    : outcome (list (list Z)) :=
  match vs with
  | [] => Finished []
  | v :: vs' =>
      obind (path_loop fuel pred path 0 v) (λ '(path', count),
      obind (of_option (print_path path' count)) (λ line,
      obind (Print_paths_lines fuel pred path' vs') (λ lines,
      Finished (line :: lines))))
  end.

Definition Print_paths (fuel : nat) (loc_preds : list (list Z)) (n loc_n : Z)
    : outcome (list (list Z)) :=
  obind (of_option (MPI_Gather loc_preds loc_n (malloc n) loc_n MPI_INT))
    (λ pred, Print_paths_lines fuel pred (malloc n) (seqZ 1 (n - 1))).

(** ** main *)

(** Everything up to and including [Dijkstra]: [p] processes, [n] and then
    [input] on standard input.  ([DEBUG] is not defined: the matrix is not
    printed.) *)
Definition main_compute (p : nat) (n : Z) (input : list Z)
    : option (list proc) :=
  loc_n ← int_div n (Z.of_nat p);
  _ ← int_mul n loc_n;
  let blk_col_mpi_t := Build_blk_col_type n loc_n in
  mats ← Read_matrix input n loc_n blk_col_mpi_t p;
  Dijkstra n loc_n mats.

Definition main (fuel : nat) (p : nat) (n : Z) (input : list Z)
    : outcome (list (Z * Z) * list (list Z)) :=
  obind (of_option (main_compute p n input)) (λ ws,
  let loc_n := Z.quot n (Z.of_nat p) in
  obind (of_option (Print_dists (loc_dist <$> ws) n loc_n)) (λ dists,
  obind (Print_paths fuel (loc_pred <$> ws) n loc_n) (λ paths,
  Finished (dists, paths)))).


(** ** Text output (the [DEBUG] build) *)

Definition MAX_STRING : Z := 10000.

Definition newline : string := String (Ascii.ascii_of_nat 10) EmptyString.

Fixpoint spaces (k : nat) : string :=
  match k with
  | O => EmptyString
  | S k' => " " +:+ spaces k'
  end.

(** The conversion [%<width>d]: the decimal digits, after a minus sign for
    a negative number, with blanks on the left up to [width] characters. *)
Definition fmt_d (width : nat) (x : Z) : string :=
  spaces (width - String.length (pretty x)) +:+ pretty x.

(** [sprintf(cp, ...)] with [cp = temp + strlen(temp)], [temp] an array of
    [MAX_STRING] chars: the text is stored after the string that [temp]
    holds, followed by a null byte; both have to fit. *)
Definition sprintf_end (temp text : string) : option string :=
  if Z.of_nat (String.length temp + String.length text) <? MAX_STRING
  then Some (temp +:+ text) else None.

Definition Print_local_matrix_cell (loc_mat : list Z) (loc_n i : Z)
    (j : Z) (temp : string) : option string :=
  off ← int_mul i loc_n;
  idx ← int_add off j;
  x ← rd loc_mat idx;
  if x =? INFINITY then sprintf_end temp " i "
  else sprintf_end temp (fmt_d 2 x +:+ " ").

Definition Print_local_matrix_row (loc_mat : list Z) (loc_n : Z)
    (i : Z) (temp : string) : option string :=
  temp' ← for_range (Print_local_matrix_cell loc_mat loc_n i) 0 loc_n temp;
  sprintf_end temp' newline.

(** What a process prints: the string built in [temp], and a newline. *)
Definition Print_local_matrix (loc_mat : list Z) (n loc_n my_rank : Z)
    : option string :=
  temp ← sprintf_end EmptyString
           ("Proc " +:+ fmt_d 0 my_rank +:+ " >" +:+ newline);
  temp' ← for_range (Print_local_matrix_row loc_mat loc_n) 0 n temp;
  Some (temp' +:+ newline).

Definition Print_matrix_cell (mat : list Z) (n i : Z)
    (j : Z) (out : string) : option string :=
  off ← int_mul i n;
  idx ← int_add off j;
  x ← rd mat idx;
  if x =? INFINITY then Some (out +:+ " i ")
  else Some (out +:+ (fmt_d 2 x +:+ " ")).

Definition Print_matrix_row (mat : list Z) (n : Z)
    (i : Z) (out : string) : option string :=
  out' ← for_range (Print_matrix_cell mat n i) 0 n out;
  Some (out' +:+ newline).

(** What process 0 prints in [Print_matrix]. *)
Definition Print_matrix_stdout (loc_mats : list (list Z)) (n loc_n : Z)
    (blk_col_mpi_t : MPI_Datatype) : option string :=
  mat ← Print_matrix loc_mats n loc_n blk_col_mpi_t;
  for_range (Print_matrix_row mat n) 0 n EmptyString.

(** ** Read_n *)

(** [scanf("%d", &n)]: the next number on the standard input of the
    process; without one, [n] keeps the value it had. *)
Definition scanf_d (stdin : list Z) (n : option Z) : option Z * list Z :=
  match stdin with
  | x :: rest => (Some x, rest)
  | [] => (n, [])
  end.

(** [MPI_Bcast(buf, 1, MPI_INT, 0, comm)]: every process receives the
    value that process 0 holds. *)
Definition MPI_Bcast {A : Type} (vals : list A) : option (list A) :=
  match vals with
  | [] => None
  | v :: _ => Some (replicate (length vals) v)
  end.

(** What a process does before the broadcast.  Only the [printf] depends
    on the rank: the [if] has no braces, and [scanf] is called by every
    process.  The result is what the process printed, its [n] ([None]
    while it is uninitialised) and the rest of its standard input. *)
Definition Read_n_local (my_rank : Z) (stdin : list Z)
    : string * option Z * list Z :=
  let out :=
    if my_rank =? 0
    then "Please enter the number of vertices in your matrix" +:+ newline
    else EmptyString in
  let '(n, rest) := scanf_d stdin None in
  (out, n, rest).

(** [Read_n] on all processes, each with its own standard input: what each
    process printed, the value it returns, and the rest of its input. *)
Definition Read_n (stdins : list (list Z))
    : option (list (string * Z * list Z)) :=
  locals ← spmd (λ r stdin, Some (Read_n_local r stdin)) stdins;
  ns ← MPI_Bcast ((λ l, l.1.2) <$> locals);
  mapM (λ '(l, n), n' ← n; Some (l.1.1, n', l.2)) (zip locals ns).
(** * Vocabulary of the properties *)

(** ** The reduction *)

(** [r] is the least contribution of [cs]: least value, and least index
    among the contributions of that value. *)
Definition least_pair (cs : list (Z * Z)) (r : Z * Z) : Prop :=
  r ∈ cs ∧
  ∀ c, c ∈ cs → fst r < fst c ∨ (fst r = fst c ∧ snd r ≤ snd c).

(** ** The gathered vectors *)

(** What [MPI_Gather] with a contiguous layout assembles on process 0: the
    blocks of the processes, in rank order. *)
Definition gathered_dist (ws : list proc) : list Z := mjoin (loc_dist <$> ws).
Definition gathered_pred (ws : list proc) : list Z := mjoin (loc_pred <$> ws).
Definition gathered_known (ws : list proc) : list Z := mjoin (known <$> ws).

(** ** Sequential Dijkstra, the reference

    One process, the whole matrix: every vertex starts at its weight from
    the source; [n-1] times, the unknown vertex of least distance (lowest id
    among equals) becomes known and every unknown vertex is relaxed through
    it. *)

Record seq_state := SeqState {
  sdist : list Z;
  spred : list Z;
  sknown : list Z
}.

Definition weight (mat : list Z) (n u v : nat) : Z := mat !!! (u * n + v)%nat.

Definition seq_init (mat : list Z) (n : nat) : seq_state :=
  SeqState (take n mat) (replicate n 0) (<[0%nat := 1]> (replicate n 0)).

Definition seq_pick (dist known : list Z) (best : option (Z * nat)) (v : nat)
    : option (Z * nat) :=
  match known !! v, dist !! v with
  | Some k, Some d =>
      if k =? 0 then
        match best with
        | Some (bd, _) => if d <? bd then Some (d, v) else best
        | None => Some (d, v)
        end
      else best
  | _, _ => best
  end.

Definition seq_find_min (dist known : list Z) (n : nat) : option (Z * nat) :=
  foldl (seq_pick dist known) None (seq 0 n).

(** Is vertex [v], unknown, closer to the source through [u], which is at
    distance [du]? *)
Definition seq_shorter (mat : list Z) (n : nat) (known dist : list Z)
    (du : Z) (u v : nat) : bool :=
  (known !!! v =? 0) && (du + weight mat n u v <? dist !!! v).

Definition seq_round (mat : list Z) (n : nat) (st : seq_state) : seq_state :=
  match seq_find_min (sdist st) (sknown st) n with
  | None => st
  | Some (du, u) =>
      let known' := <[u := 1]> (sknown st) in
      let shorter := seq_shorter mat n known' (sdist st) du u in
      SeqState
        (imap (λ v d, if shorter v then du + weight mat n u v else d)
              (sdist st))
        (imap (λ v q, if shorter v then Z.of_nat u else q) (spred st))
        known'
  end.

Definition seq_rounds (mat : list Z) (n k : nat) : seq_state :=
  Nat.iter k (seq_round mat n) (seq_init mat n).

Definition seq_Dijkstra (mat : list Z) (n : nat) : seq_state :=
  seq_rounds mat n (n - 1).

(** ** Local minima *)

(** Among the unknown entries below [bound], entry [u] holds the least
    distance [md], and is the first that does. *)
Definition unknown_min (dist known : list Z) (bound : Z) (u : nat) (md : Z)
    : Prop :=
  known !! u = Some 0 ∧ dist !! u = Some md ∧
  ∀ (v : nat) d, Z.of_nat v < bound → known !! v = Some 0 →
    dist !! v = Some d → md ≤ d ∧ ((v < u)%nat → md < d).

(** No unknown entry below [bound] has a distance under [INFINITY]. *)
Definition no_candidate (dist known : list Z) (bound : Z) : Prop :=
  ∀ (v : nat) d, Z.of_nat v < bound → known !! v = Some 0 →
    dist !! v = Some d → INFINITY ≤ d.

(** The loop invariant of [Find_min_dist], before index [i]. *)
Definition Find_min_inv (dist known : list Z) (i : Z) (st : Z * Z) : Prop :=
  (fst st = INFINITY ∧ snd st = INFINITY ∧ no_candidate dist known i) ∨
  (∃ un : nat, fst st = Z.of_nat un ∧ fst st < i ∧ snd st < INFINITY ∧
               unknown_min dist known i un (snd st)).

(** ** Relaxation *)

(** Entry [j] of [w'] is entry [j] of [w] relaxed through [u], reached at
    distance [min_dist]: an unknown entry takes [min_dist + mat[u][j]]
    and predecessor [u] when that is shorter; any other entry is kept. *)
Definition relaxed_at (loc_n min_dist u : Z) (w w' : proc) (j : nat) : Prop :=
  ∃ k, known w !! j = Some k ∧
  if k =? 0 then
    ∃ x dv, rd (loc_mat w) (u * loc_n + Z.of_nat j) = Some x ∧
            loc_dist w !! j = Some dv ∧
            if min_dist + x <? dv
            then loc_dist w' !! j = Some (min_dist + x) ∧
                 loc_pred w' !! j = Some u
            else loc_dist w' !! j = Some dv ∧
                 loc_pred w' !! j = loc_pred w !! j
  else loc_dist w' !! j = loc_dist w !! j ∧
       loc_pred w' !! j = loc_pred w !! j.

Definition same_entry (w w' : proc) (j : nat) : Prop :=
  loc_dist w' !! j = loc_dist w !! j ∧ loc_pred w' !! j = loc_pred w !! j.

(** The loop invariant of the relaxation loop, before index [i]. *)
Definition relax_inv (loc_n min_dist u : Z) (w : proc) (i : Z) (w' : proc)
    : Prop :=
  loc_mat w' = loc_mat w ∧ known w' = known w ∧
  length (loc_dist w') = length (loc_dist w) ∧
  length (loc_pred w') = length (loc_pred w) ∧
  ∀ j : nat,
    (Z.of_nat j < i → relaxed_at loc_n min_dist u w w' j) ∧
    (i ≤ Z.of_nat j → same_entry w w' j).

(** ** Well-formed process groups *)

(** The state of the sequential reference that the group holds in
    pieces. *)
Definition gathered (ws : list proc) : seq_state :=
  SeqState (gathered_dist ws) (gathered_pred ws) (gathered_known ws).

(** Process [k] holds arrays of [m] entries and block column [k] of the
    [N]-by-[N] matrix [mat]. *)
Definition wf_proc (mat : list Z) (N m k : nat) (w : proc) : Prop :=
  length (loc_dist w) = m ∧ length (loc_pred w) = m ∧
  length (known w) = m ∧ length (loc_mat w) = (N * m)%nat ∧
  ∀ i j : nat, (i < N)%nat → (j < m)%nat →
    loc_mat w !! (i * m + j)%nat = mat !! (i * N + (k * m + j))%nat.

Definition wf_procs (mat : list Z) (N m : nat) (ws : list proc) : Prop :=
  N = (length ws * m)%nat ∧ length mat = (N * N)%nat ∧
  ∀ (k : nat) w, ws !! k = Some w → wf_proc mat N m k w.

(** ** Block columns *)

(** [blk] is block column [k] of the [N]-by-[N] matrix [mat], [m] columns
    wide, stored row by row. *)
Definition block_column (mat : list Z) (N m k : nat) (blk : list Z) : Prop :=
  length blk = (N * m)%nat ∧
  ∀ i j : nat, (i < N)%nat → (j < m)%nat →
    ∃ x, blk !! (i * m + j)%nat = Some x ∧
         mat !! (i * N + (k * m + j))%nat = Some x.

(** ** Initialisation *)

(** The loop invariant of the initialisation loop, before index [i]. *)
Definition init_inv (blk : list Z) (m : nat) (i : Z) (w : proc) : Prop :=
  loc_mat w = blk ∧ length (loc_dist w) = m ∧ length (loc_pred w) = m ∧
  length (known w) = m ∧
  ∀ j : nat, Z.of_nat j < i →
    is_Some (blk !! j) ∧ loc_dist w !! j = blk !! j ∧
    loc_pred w !! j = Some 0 ∧ known w !! j = Some 0.

(** ** Round boundaries *)

(** The group after [rounds] passes of the main loop of a run on [p]
    processes; [main_compute] is the case [rounds = n - 1]. *)
Definition main_upto (rounds : nat) (p : nat) (n : Z) (input : list Z)
    : option (list proc) :=
  loc_n ← int_div n (Z.of_nat p);
  _ ← int_mul n loc_n;
  mats ← Read_matrix input n loc_n (Build_blk_col_type n loc_n) p;
  ws ← spmd (Dijkstra_init loc_n) mats;
  Dijkstra_rounds loc_n rounds ws.

(** ** Invariants of the rounds *)

Definition is_known (known : list Z) (v : nat) : Prop :=
  ∃ k, known !! v = Some k ∧ k ≠ 0.

(** [known_path pred known s v]: following [pred] from [v] reaches the
    source in [s] steps, through known vertices only. *)
Inductive known_path (pred known : list Z) : nat → nat → Prop :=
  | known_path_source :
      is_known known 0 → known_path pred known 0 0
  | known_path_step (v u s : nat) :
      v ≠ 0%nat → is_known known v → pred !! v = Some (Z.of_nat u) →
      known_path pred known s u → known_path pred known (S s) v.

(** The distance of [u] as a path cost: the source is at distance 0,
    whatever the matrix holds on its diagonal. *)
Definition source_dist (dist : list Z) (u : nat) : Z :=
  if decide (u = 0%nat) then 0 else dist !!! u.

Definition unknown_count (known : list Z) : nat :=
  length (filter (λ k, k = 0) known).

(** What holds of the reference after [k] rounds on [N] vertices. *)
Record seq_inv (mat : list Z) (N k : nat) (st : seq_state) : Prop := {
  inv_ldist : length (sdist st) = N;
  inv_lpred : length (spred st) = N;
  inv_lknown : length (sknown st) = N;
  inv_source : (0 < N)%nat → is_known (sknown st) 0;
  inv_pred : ∀ v : nat, (v < N)%nat →
    ∃ u : nat, spred st !! v = Some (Z.of_nat u) ∧ (u < N)%nat ∧
               is_known (sknown st) u;
  inv_path : ∀ v : nat, (v < N)%nat → is_known (sknown st) v →
    ∃ s : nat, (s ≤ k)%nat ∧ known_path (spred st) (sknown st) s v;
  inv_cost : ∀ v : nat, (0 < v < N)%nat →
    ∃ u : nat, spred st !! v = Some (Z.of_nat u) ∧
      sdist st !! v = Some (source_dist (sdist st) u + weight mat N u v);
  inv_count : (unknown_count (sknown st) ≤ N - 1 - k)%nat;
  inv_pred0 : (0 < N)%nat → spred st !! 0%nat = Some 0
}.

(** ** Path costs *)

(** Every vertex but the source is at the distance of its predecessor
    plus the weight of the edge between them. *)
Definition path_cost_consistent (mat dist pred : list Z) (n : Z) : Prop :=
  ∀ v, 1 ≤ v < n →
    ∃ u du w dv, rd pred v = Some u ∧ rd dist u = Some du ∧
                 rd mat (u * n + v) = Some w ∧ rd dist v = Some dv ∧
                 dv = du + w.

(** The same, the source counted at distance 0 whatever [dist[0]] holds. *)
Definition path_cost_from_source (mat dist pred : list Z) (n : Z) : Prop :=
  ∀ v, 1 ≤ v < n →
    ∃ u du w dv, rd pred v = Some u ∧ 0 ≤ u < n ∧
                 (u = 0 → du = 0) ∧ (u ≠ 0 → rd dist u = Some du) ∧
                 rd mat (u * n + v) = Some w ∧ rd dist v = Some dv ∧
                 dv = du + w.

(** ** Paths *)

(** [pred_chain pred v l]: following [pred] from [v] reaches the source;
    [l] lists the vertices met on the way, [v] first, the source left
    out. *)
Inductive pred_chain (pred : list Z) : Z → list Z → Prop :=
  | pred_chain_source : pred_chain pred 0 []
  | pred_chain_step (v u : Z) (l : list Z) :
      v ≠ 0 → rd pred v = Some u → pred_chain pred u l →
      pred_chain pred v (v :: l).

(** [pred_steps pred k v w]: [k] steps of [pred] lead from [v] to [w]. *)
Inductive pred_steps (pred : list Z) : nat → Z → Z → Prop :=
  | pred_steps_O (v : Z) : pred_steps pred 0 v v
  | pred_steps_S (k : nat) (v u w : Z) :
      rd pred v = Some u → pred_steps pred k u w →
      pred_steps pred (S k) v w.

(** The line of the table of paths for [v]: the source, then the chain of
    [v] in the order opposite to that of the traversal. *)
Definition path_line (pred : list Z) (v : Z) (line : list Z) : Prop :=
  ∃ l, pred_chain pred v l ∧ line = 0 :: reverse l.

(** ** Runs that complete *)

(** Weights the program is meant for: from 0 to [INFINITY], the value that
    stands for a missing edge. *)
Definition valid_weights (mat : list Z) : Prop :=
  ∀ x, x ∈ mat → 0 ≤ x ≤ INFINITY.

(** At round [k] (counted from 0) the reference picks a vertex whose
    distance is under [INFINITY]. *)
Definition seq_progress (mat : list Z) (N k : nat) : Prop :=
  ∃ d u,
    seq_find_min (sdist (seq_rounds mat N k)) (sknown (seq_rounds mat N k)) N
      = Some (d, u) ∧ d < INFINITY.

Definition dist_nonneg (ws : list proc) : Prop :=
  ∀ (k j : nat) w d, ws !! k = Some w → loc_dist w !! j = Some d → 0 ≤ d.


(** ** Walks in the graph *)

(** The cost of the walk that leaves [u] and visits [vs] in order. *)
Fixpoint walk_cost (mat : list Z) (n u : nat) (vs : list nat) : Z :=
  match vs with
  | [] => 0
  | v :: vs' => weight mat n u v + walk_cost mat n v vs'
  end.

(** [vs] leads from [u] to [v] through vertices of the graph. *)
Definition walk (n u : nat) (vs : list nat) (v : nat) : Prop :=
  Forall (λ x, (x < n)%nat) vs ∧ last (u :: vs) = Some v.

Definition nonneg_weights (mat : list Z) : Prop := Forall (λ x, 0 ≤ x) mat.

(** What makes the distances of the reference shortest: every edge out of
    a known vertex has been relaxed, and no unknown vertex is closer than a
    known one. *)
Record seq_opt (mat : list Z) (N : nat) (st : seq_state) : Prop := {
  opt_nonneg : ∀ v : nat, (v < N)%nat → 0 ≤ source_dist (sdist st) v;
  opt_relaxed : ∀ u v : nat, (u < N)%nat → (v < N)%nat →
    is_known (sknown st) u →
    source_dist (sdist st) v ≤ source_dist (sdist st) u + weight mat N u v;
  opt_order : ∀ u v : nat, (u < N)%nat → (v < N)%nat →
    is_known (sknown st) u → sknown st !! v = Some 0 →
    source_dist (sdist st) u ≤ source_dist (sdist st) v
}.

(** Every vertex but the source is at the end of a walk from the source
    that costs less than [INFINITY]. *)
Definition reachable (mat : list Z) (N : nat) : Prop :=
  ∀ v : nat, (0 < v < N)%nat →
    ∃ vs, walk N 0 vs v ∧ walk_cost mat N 0 vs < INFINITY.

(** ** Text of a matrix *)

Definition cell_text (x : Z) : string :=
  if x =? INFINITY then " i " else fmt_d 2 x +:+ " ".

Definition cells_text (cells : list Z) : string :=
  foldr (λ x s, cell_text x +:+ s) EmptyString cells.

(** Row [i] of a matrix of [cols] columns stored row by row. *)
Definition matrix_row (cols : nat) (mat : list Z) (i : nat) : list Z :=
  take cols (drop (i * cols) mat).

Definition row_text (cols : nat) (mat : list Z) (i : nat) : string :=
  cells_text (matrix_row cols mat i) +:+ newline.

Definition rows_text (rows cols : nat) (mat : list Z) : string :=
  foldr (λ i s, row_text cols mat i +:+ s) EmptyString (seq 0 rows).

Definition local_matrix_text (my_rank : Z) (rows cols : nat) (mat : list Z)
    : string :=
  ("Proc " +:+ fmt_d 0 my_rank +:+ " >" +:+ newline) +:+
  rows_text rows cols mat.
(** * Properties *)

(** ** Integers, arrays, loops *)

Lemma checked_Some z r : checked z = Some r → r = z ∧ INT_MIN ≤ z ≤ INT_MAX.
Proof.
  unfold checked, in_int. destruct (INT_MIN <=? z) eqn:E1; simpl; [|done].
  destruct (z <=? INT_MAX) eqn:E2; [|done].
  intros H. inversion H; subst. apply Z.leb_le in E1. apply Z.leb_le in E2. lia.
Qed.

Lemma checked_in z : INT_MIN ≤ z ≤ INT_MAX → checked z = Some z.
Proof.
  intros [H1 H2]. unfold checked, in_int.
  apply Z.leb_le in H1. apply Z.leb_le in H2. by rewrite H1, H2.
Qed.

Lemma int_add_Some a b r : int_add a b = Some r → r = a + b.
Proof. intros H. by apply checked_Some in H as [-> _]. Qed.

Lemma int_mul_Some a b r :
  int_mul a b = Some r → r = a * b ∧ INT_MIN ≤ a * b ≤ INT_MAX.
Proof. apply checked_Some. Qed.

Lemma int_div_Some a b r : int_div a b = Some r → b ≠ 0 ∧ r = Z.quot a b.
Proof.
  unfold int_div. destruct (b =? 0) eqn:E; [done|].
  intros H. apply checked_Some in H as [-> _]. apply Z.eqb_neq in E. done.
Qed.

Lemma int_rem_Some a b r : int_rem a b = Some r → b ≠ 0 ∧ r = Z.rem a b.
Proof.
  unfold int_rem. destruct (b =? 0) eqn:E; [done|].
  intros H. apply checked_Some in H as [-> _]. apply Z.eqb_neq in E. done.
Qed.

Lemma rd_Some (a : list Z) i x :
  rd a i = Some x ↔ 0 ≤ i ∧ a !! Z.to_nat i = Some x.
Proof.
  unfold rd. destruct (0 <=? i) eqn:E.
  - apply Z.leb_le in E. split; [intros ?; by split|by intros [_ ?]].
  - apply Z.leb_gt in E. split; [done|]. intros [? _]. lia.
Qed.

Lemma rd_nat (a : list Z) (i : nat) : rd a (Z.of_nat i) = a !! i.
Proof.
  unfold rd. destruct (0 <=? Z.of_nat i) eqn:E.
  - by rewrite Nat2Z.id.
  - apply Z.leb_gt in E. lia.
Qed.

Lemma wr_Some (a : list Z) i x a' :
  wr a i x = Some a' ↔
  0 ≤ i < Z.of_nat (length a) ∧ a' = <[Z.to_nat i := x]> a.
Proof.
  unfold wr. destruct (0 <=? i) eqn:E1; simpl.
  - destruct (i <? Z.of_nat (length a)) eqn:E2.
    + apply Z.leb_le in E1. apply Z.ltb_lt in E2.
      split; [intros H; inversion H; by split|by intros [_ ->]].
    + apply Z.ltb_ge in E2. split; [done|]. intros [? _]. lia.
  - apply Z.leb_gt in E1. split; [done|]. intros [? _]. lia.
Qed.

Lemma wr_nat (a : list Z) (i : nat) x :
  (i < length a)%nat → wr a (Z.of_nat i) x = Some (<[i := x]> a).
Proof.
  intros H. apply wr_Some. rewrite Nat2Z.id. split; [lia|done].
Qed.

Lemma length_malloc k : length (malloc k) = Z.to_nat k.
Proof. unfold malloc. by rewrite length_replicate. Qed.

(** An invariant carried through a [for] loop. *)
Lemma for_loop_inv {St : Type} (body : Z → St → option St) (I : Z → St → Prop) :
  ∀ k v s s',
    I v s →
    (∀ i t t', v ≤ i < v + Z.of_nat k → I i t → body i t = Some t' →
               I (i + 1) t') →
    for_loop body k v s = Some s' →
    I (v + Z.of_nat k) s'.
Proof.
  induction k as [|k IH]; intros v s s' Hv Hstep Hrun; simpl in Hrun.
  - injection Hrun as <-. by replace (v + Z.of_nat 0) with v by lia.
  - apply bind_Some in Hrun as (t & Hb & Hrun).
    replace (v + Z.of_nat (S k)) with ((v + 1) + Z.of_nat k) by lia.
    eapply IH; [| |exact Hrun].
    + eapply Hstep; [|exact Hv|exact Hb]. lia.
    + intros i t0 t' Hi. apply Hstep. lia.
Qed.

(** A loop whose body cannot fail under the invariant does not fail. *)
Lemma for_loop_total {St : Type} (body : Z → St → option St) (I : Z → St → Prop) :
  ∀ k v s,
    I v s →
    (∀ i t, v ≤ i < v + Z.of_nat k → I i t →
            ∃ t', body i t = Some t' ∧ I (i + 1) t') →
    ∃ s', for_loop body k v s = Some s' ∧ I (v + Z.of_nat k) s'.
Proof.
  induction k as [|k IH]; intros v s Hv Hstep; simpl.
  - exists s. split; [done|]. by replace (v + Z.of_nat 0) with v by lia.
  - destruct (Hstep v s) as (t & Hb & Ht); [lia|done|].
    rewrite Hb. simpl.
    replace (v + Z.of_nat (S k)) with ((v + 1) + Z.of_nat k) by lia.
    apply IH; [done|]. intros i t0 Hi. apply Hstep. lia.
Qed.

Lemma for_range_inv {St : Type} (body : Z → St → option St) (I : Z → St → Prop)
    hi s s' :
  0 ≤ hi →
  I 0 s →
  (∀ i t t', 0 ≤ i < hi → I i t → body i t = Some t' → I (i + 1) t') →
  for_range body 0 hi s = Some s' →
  I hi s'.
Proof.
  intros Hhi H0 Hstep Hrun. unfold for_range in Hrun.
  replace hi with (0 + Z.of_nat (Z.to_nat (hi - 0))) by lia.
  eapply for_loop_inv; [exact H0| |exact Hrun].
  intros i t t' Hi. apply Hstep. lia.
Qed.

Lemma for_range_total {St : Type} (body : Z → St → option St)
    (I : Z → St → Prop) hi s :
  0 ≤ hi →
  I 0 s →
  (∀ i t, 0 ≤ i < hi → I i t → ∃ t', body i t = Some t' ∧ I (i + 1) t') →
  ∃ s', for_range body 0 hi s = Some s' ∧ I hi s'.
Proof.
  intros Hhi H0 Hstep. unfold for_range.
  destruct (for_loop_total body I (Z.to_nat (hi - 0)) 0 s H0) as (s' & ? & Hs').
  { intros i t Hi. apply Hstep. lia. }
  exists s'. split; [done|].
  by replace (0 + Z.of_nat (Z.to_nat (hi - 0))) with hi in Hs' by lia.
Qed.

Lemma for_range_empty {St : Type} (body : Z → St → option St) hi s :
  hi ≤ 0 → for_range body 0 hi s = Some s.
Proof.
  intros H. unfold for_range. by replace (Z.to_nat (hi - 0)) with O by lia.
Qed.

(** ** The process group *)

Lemma each_rank_length {A B : Type} (f : Z → A → option B) :
  ∀ xs r ys, each_rank f r xs = Some ys → length ys = length xs.
Proof.
  induction xs as [|x xs IH]; intros r ys H; simpl in H.
  - by injection H as <-.
  - apply bind_Some in H as (y & _ & H).
    apply bind_Some in H as (ys' & H & [= <-]).
    simpl. f_equal. by eapply IH.
Qed.

Lemma each_rank_lookup {A B : Type} (f : Z → A → option B) :
  ∀ xs r ys, each_rank f r xs = Some ys →
  ∀ (i : nat) x, xs !! i = Some x →
  ∃ y, ys !! i = Some y ∧ f (r + Z.of_nat i) x = Some y.
Proof.
  induction xs as [|x xs IH]; intros r ys H i x0 Hi; simpl in H.
  - done.
  - apply bind_Some in H as (y & Hy & H).
    apply bind_Some in H as (ys' & H & [= <-]).
    destruct i as [|i].
    + inversion Hi; subst. exists y. split; [done|].
      by replace (r + Z.of_nat 0) with r by lia.
    + destruct (IH _ _ H i x0 Hi) as (y' & ? & ?). exists y'.
      split; [done|].
      by replace (r + Z.of_nat (S i)) with (r + 1 + Z.of_nat i) by lia.
Qed.

Lemma each_rank_total {A B : Type} (f : Z → A → option B) :
  ∀ xs r,
    (∀ (i : nat) x, xs !! i = Some x → is_Some (f (r + Z.of_nat i) x)) →
    is_Some (each_rank f r xs).
Proof.
  induction xs as [|x xs IH]; intros r H; simpl; [done|].
  destruct (H O x eq_refl) as [y Hy].
  replace (r + Z.of_nat 0) with r in Hy by lia. rewrite Hy. simpl.
  destruct (IH (r + 1)) as [ys Hys].
  - intros i x0 Hi. specialize (H (S i) x0 Hi).
    by replace (r + 1 + Z.of_nat i) with (r + Z.of_nat (S i)) by lia.
  - rewrite Hys. done.
Qed.

Lemma spmd_lookup {A B : Type} (f : Z → A → option B) xs ys :
  spmd f xs = Some ys →
  ∀ (i : nat) x, xs !! i = Some x →
  ∃ y, ys !! i = Some y ∧ f (Z.of_nat i) x = Some y.
Proof. intros H i x Hi. apply (each_rank_lookup f xs 0 ys H i x Hi). Qed.

Lemma spmd_length {A B : Type} (f : Z → A → option B) xs ys :
  spmd f xs = Some ys → length ys = length xs.
Proof. apply each_rank_length. Qed.

(** ** The reduction *)

Lemma MPI_MINLOC_cases a b :
  (MPI_MINLOC a b = a ∧ (fst a < fst b ∨ (fst a = fst b ∧ snd a ≤ snd b))) ∨
  (MPI_MINLOC a b = b ∧ (fst b < fst a ∨ (fst b = fst a ∧ snd b ≤ snd a))).
Proof.
  unfold MPI_MINLOC. destruct a as [x i], b as [y j]; simpl.
  destruct (x <? y) eqn:E1; [apply Z.ltb_lt in E1; left; split; [done|lia]|].
  apply Z.ltb_ge in E1.
  destruct (y <? x) eqn:E2; [apply Z.ltb_lt in E2; right; split; [done|lia]|].
  apply Z.ltb_ge in E2. assert (x = y) as -> by lia.
  destruct (Z.min_spec i j) as [[? ->]|[? ->]].
  - left. split; [done|lia].
  - right. split; [done|lia].
Qed.

Lemma foldl_MINLOC_least cs : ∀ c, least_pair (c :: cs) (foldl MPI_MINLOC c cs).
Proof.
  induction cs as [|x cs IH]; intros c; simpl.
  - split; [apply list_elem_of_singleton; done|].
    intros c' Hc'. apply list_elem_of_singleton in Hc'. subst. lia.
  - destruct (IH (MPI_MINLOC c x)) as [Hin Hle]. split.
    + apply elem_of_cons in Hin as [Hin|Hin].
      * rewrite Hin.
        destruct (MPI_MINLOC_cases c x) as [[E _]|[E _]]; rewrite E.
        -- apply elem_of_cons. by left.
        -- apply elem_of_cons. right. apply elem_of_cons. by left.
      * apply elem_of_cons. right. apply elem_of_cons. by right.
    + intros c' Hc'.
      assert (Hm : ∀ y, y = c ∨ y = x →
        fst (MPI_MINLOC c x) < fst y ∨
        (fst (MPI_MINLOC c x) = fst y ∧ snd (MPI_MINLOC c x) ≤ snd y)).
      { intros y Hy.
        destruct (MPI_MINLOC_cases c x) as [[E Hc]|[E Hc]]; rewrite E;
          destruct Hy as [Ey|Ey]; subst y; lia. }
      assert (H0 := Hle (MPI_MINLOC c x)
                      ltac:(apply elem_of_cons; by left)).
      apply elem_of_cons in Hc' as [->|Hc'].
      * specialize (Hm c (or_introl eq_refl)). lia.
      * apply elem_of_cons in Hc' as [->|Hc'].
        -- specialize (Hm x (or_intror eq_refl)). lia.
        -- apply Hle. apply elem_of_cons. by right.
Qed.

Lemma least_pair_unique cs cs' r r' :
  cs ≡ₚ cs' → least_pair cs r → least_pair cs' r' → r = r'.
Proof.
  intros HP [Hin Hle] [Hin' Hle'].
  assert (H1 := Hle r' ltac:(by rewrite HP)).
  assert (H2 := Hle' r ltac:(by rewrite <- HP)).
  destruct r, r'; simpl in *. f_equal; lia.
Qed.

Lemma MPI_Allreduce_Some cs rs :
  MPI_Allreduce MPI_MINLOC cs = Some rs →
  ∃ r, rs = replicate (length cs) r ∧ least_pair cs r.
Proof.
  destruct cs as [|c cs]; [done|]. intros H. inversion H; subst.
  eexists. split; [done|]. apply foldl_MINLOC_least.
Qed.

(** C3. In a round with at least one process, the reduction hands every
    process the same pair [r]; [r] is one of the contributions, no
    contribution has a smaller distance, and no contribution of the same
    distance has a smaller vertex id.  The result does not depend on the
    order in which the contributions are combined. *)
Theorem C3_reduction_min_lowest_id (contribs : list (Z * Z)) :
  contribs ≠ [] →
  ∃ r,
    MPI_Allreduce MPI_MINLOC contribs = Some (replicate (length contribs) r) ∧
    (∀ (k : nat) g, replicate (length contribs) r !! k = Some g → g = r) ∧
    r ∈ contribs ∧
    (∀ c, c ∈ contribs → fst r ≤ fst c) ∧
    (∀ c, c ∈ contribs → fst c = fst r → snd r ≤ snd c) ∧
    (∀ contribs', contribs' ≡ₚ contribs →
       MPI_Allreduce MPI_MINLOC contribs' =
       Some (replicate (length contribs) r)).
Proof.
  intros Hne. destruct contribs as [|c cs]; [done|].
  destruct (foldl_MINLOC_least cs c) as [Hin Hle].
  exists (foldl MPI_MINLOC c cs). repeat split.
  - intros k g Hk. by apply lookup_replicate in Hk as [-> _].
  - done.
  - intros c' Hc'. specialize (Hle c' Hc'). lia.
  - intros c' Hc' E. specialize (Hle c' Hc'). lia.
  - intros cs' HP. destruct cs' as [|c' cs'].
    { apply Permutation_nil_l in HP. done. }
    cbn [MPI_Allreduce]. rewrite (Permutation_length HP). do 2 f_equal.
    eapply least_pair_unique; [exact HP| |]; apply foldl_MINLOC_least.
Qed.

Lemma C3_reduction_min_lowest_id_witness :
  [(5, 3); (2, 7); (2, 4)] ≠ [] ∧
  ∃ r,
    MPI_Allreduce MPI_MINLOC [(5, 3); (2, 7); (2, 4)] =
      Some (replicate 3%nat r) ∧ r = (2, 4).
Proof.
  split; [done|].
  destruct (C3_reduction_min_lowest_id [(5, 3); (2, 7); (2, 4)])
    as (r & H & _); [done|].
  exists r. split; [exact H|]. vm_compute in H. congruence.
Defined.

(** ** Find_min_dist and the local contribution *)

Lemma Find_min_dist_body_inv dist known i st st' :
  0 ≤ i →
  Find_min_inv dist known i st →
  Find_min_dist_body dist known i st = Some st' →
  Find_min_inv dist known (i + 1) st'.
Proof.
  intros Hi Hinv Hb. destruct st as [u md]. unfold Find_min_dist_body in Hb.
  apply bind_Some in Hb as (k & Hk & Hb). apply rd_Some in Hk as [_ Hk].
  assert (Hidx : ∀ v : nat, Z.of_nat v < i + 1 →
            Z.of_nat v < i ∨ v = Z.to_nat i) by (intros; lia).
  destruct (k =? 0) eqn:Ek.
  - apply Z.eqb_eq in Ek. subst k.
    apply bind_Some in Hb as (d & Hd & Hb). apply rd_Some in Hd as [_ Hd].
    destruct (d <? md) eqn:Ed; inversion Hb; subst; clear Hb.
    + apply Z.ltb_lt in Ed. right. exists (Z.to_nat i). simpl.
      split; [lia|]. split; [lia|].
      destruct Hinv as [(_ & Hmd & Hno)|(un & Hu & Hlt & Hmd & _ & _ & Hmin)];
        simpl in *.
      * split; [lia|]. split; [done|]. split; [done|].
        intros v d' Hv Hkv Hdv. destruct (Hidx v Hv) as [Hv'| ->].
        -- specialize (Hno v d' Hv' Hkv Hdv). lia.
        -- rewrite Hd in Hdv. inversion Hdv; subst. lia.
      * split; [lia|]. split; [done|]. split; [done|].
        intros v d' Hv Hkv Hdv. destruct (Hidx v Hv) as [Hv'| ->].
        -- destruct (Hmin v d' Hv' Hkv Hdv). lia.
        -- rewrite Hd in Hdv. inversion Hdv; subst. lia.
    + apply Z.ltb_ge in Ed.
      destruct Hinv as [(Hu & Hmd & Hno)|(un & Hu & Hlt & Hmd & Hku & Hdu & Hmin)];
        simpl in *.
      * left. simpl. split; [done|]. split; [done|].
        intros v d' Hv Hkv Hdv. destruct (Hidx v Hv) as [Hv'| ->].
        -- by apply (Hno v d').
        -- rewrite Hd in Hdv. inversion Hdv; subst. lia.
      * right. exists un. simpl. split; [done|]. split; [lia|].
        split; [done|]. split; [done|]. split; [done|].
        intros v d' Hv Hkv Hdv. destruct (Hidx v Hv) as [Hv'| ->].
        -- by apply Hmin.
        -- rewrite Hd in Hdv. inversion Hdv; subst. lia.
  - apply Z.eqb_neq in Ek. inversion Hb; subst; clear Hb.
    destruct Hinv as [(Hu & Hmd & Hno)|(un & Hu & Hlt & Hmd & Hku & Hdu & Hmin)];
      simpl in *.
    + left. simpl. split; [done|]. split; [done|].
      intros v d' Hv Hkv Hdv. destruct (Hidx v Hv) as [Hv'| ->].
      * by apply (Hno v d').
      * rewrite Hk in Hkv. by inversion Hkv.
    + right. exists un. simpl. split; [done|]. split; [lia|].
      split; [done|]. split; [done|]. split; [done|].
      intros v d' Hv Hkv Hdv. destruct (Hidx v Hv) as [Hv'| ->].
      * by apply Hmin.
      * rewrite Hk in Hkv. by inversion Hkv.
Qed.

(** What [Find_min_dist] returns: [INFINITY] when no unknown entry has a
    distance under [INFINITY], else the first unknown entry of least
    distance. *)
Lemma Find_min_dist_spec dist known loc_n u :
  Find_min_dist dist known loc_n = Some u →
  (u = INFINITY ∧ no_candidate dist known loc_n) ∨
  (∃ (un : nat) md, u = Z.of_nat un ∧ u < loc_n ∧ md < INFINITY ∧
                    unknown_min dist known loc_n un md).
Proof.
  unfold Find_min_dist. intros H.
  apply bind_Some in H as ([u' md] & Hloop & H). inversion H; subst; clear H.
  simpl. destruct (Z.le_gt_cases loc_n 0) as [Hn|Hn].
  - rewrite for_range_empty in Hloop by done. inversion Hloop; subst.
    left. split; [done|]. intros v d Hv. lia.
  - assert (Hinv : Find_min_inv dist known loc_n (u, md)).
    { eapply (for_range_inv _ (Find_min_inv dist known)); [lia| |
        |exact Hloop].
      - left. simpl. split; [done|]. split; [done|]. intros v d Hv. lia.
      - intros i t t' Hi. apply Find_min_dist_body_inv. lia. }
    destruct Hinv as [(Hu & Hmd & Hno)|(un & Hu & Hlt & Hmd & Hmin)];
      simpl in *.
    + left. done.
    + right. exists un, md. done.
Qed.

Lemma Dijkstra_my_min_spec loc_n my_rank w c :
  loc_n ≤ INFINITY →
  Dijkstra_my_min loc_n my_rank w = Some c →
  (c = (INFINITY, INFINITY) ∧ no_candidate (loc_dist w) (known w) loc_n) ∨
  (∃ (un : nat) md,
     c = (md, Z.of_nat un + my_rank * loc_n) ∧ Z.of_nat un < loc_n ∧
     md < INFINITY ∧ unknown_min (loc_dist w) (known w) loc_n un md).
Proof.
  intros Hn H. unfold Dijkstra_my_min in H.
  apply bind_Some in H as (u & Hu & H).
  destruct (Find_min_dist_spec _ _ _ _ Hu)
    as [[Eu Hno]|(un & md & Eu & Hlt & Hmd & Hmin)]; subst u.
  - rewrite Z.ltb_irrefl in H. inversion H; subst. by left.
  - assert (E : (Z.of_nat un <? INFINITY) = true) by (apply Z.ltb_lt; lia).
    rewrite E in H.
    apply bind_Some in H as (d & Hd & H).
    apply bind_Some in H as (off & Hoff & H).
    apply bind_Some in H as (g & Hg & H). inversion H; subst; clear H.
    rewrite rd_nat in Hd. destruct Hmin as (Hk & Hdu & Hmin).
    rewrite Hdu in Hd. inversion Hd; subst.
    apply int_mul_Some in Hoff as [-> _]. apply int_add_Some in Hg as ->.
    right. exists un, d. done.
Qed.

Lemma relax_body_inv loc_n min_dist u w i w1 w2 :
  0 ≤ i →
  relax_inv loc_n min_dist u w i w1 →
  Dijkstra_relax_body loc_n min_dist u i w1 = Some w2 →
  relax_inv loc_n min_dist u w (i + 1) w2.
Proof.
  intros Hi (Hmat & Hkn & Hld & Hlp & Hent) Hb.
  unfold Dijkstra_relax_body in Hb.
  apply bind_Some in Hb as (k & Hk & Hb). apply rd_Some in Hk as [_ Hk].
  rewrite Hkn in Hk.
  destruct (Hent (Z.to_nat i)) as [_ [Hsd Hsp]]; [lia|].
  assert (Hcur : ∀ w3,
            relaxed_at loc_n min_dist u w w3 (Z.to_nat i) →
            (∀ j : nat, j ≠ Z.to_nat i → same_entry w1 w3 j) →
            ∀ j : nat,
              (Z.of_nat j < i + 1 → relaxed_at loc_n min_dist u w w3 j) ∧
              (i + 1 ≤ Z.of_nat j → same_entry w w3 j)).
  { intros w3 Hrel Hoth j. split; intros Hj.
    - destruct (decide (j = Z.to_nat i)) as [->|Hne]; [done|].
      destruct (Hent j) as [Hr _]. specialize (Hr ltac:(lia)).
      destruct (Hoth j Hne) as [E1 E2].
      destruct Hr as (k' & Hk' & Hr). exists k'. split; [done|].
      destruct (k' =? 0); [|by rewrite E1, E2].
      destruct Hr as (x & dv & ? & ? & Hr). exists x, dv.
      split; [done|]. split; [done|]. by rewrite E1, E2.
    - destruct (Hent j) as [_ [E1 E2]]; [lia|].
      destruct (Hoth j ltac:(lia)) as [E3 E4].
      split; congruence. }
  unfold relax_inv.
  destruct (k =? 0) eqn:Ek.
  - apply bind_Some in Hb as (off & Hoff & Hb).
    apply bind_Some in Hb as (idx & Hidx & Hb).
    apply bind_Some in Hb as (x & Hx & Hb).
    apply bind_Some in Hb as (nd & Hnd & Hb).
    apply bind_Some in Hb as (dv & Hdv & Hb).
    apply int_mul_Some in Hoff as [-> _]. apply int_add_Some in Hidx as ->.
    apply int_add_Some in Hnd as ->. apply rd_Some in Hdv as [_ Hdv].
    rewrite Hmat in Hx.
    destruct (min_dist + x <? dv) eqn:Elt.
    + apply bind_Some in Hb as (d & Hd & Hb).
      apply bind_Some in Hb as (q & Hq & Hb). inversion Hb; subst; clear Hb.
      apply wr_Some in Hd as [Hdr ->]. apply wr_Some in Hq as [Hqr ->].
      simpl. rewrite !length_insert.
      split; [done|]. split; [done|]. split; [done|]. split; [done|].
      apply Hcur.
      * exists k. split; [done|]. rewrite Ek. exists x, dv.
        replace (Z.of_nat (Z.to_nat i)) with i by lia.
        split; [done|]. split; [congruence|]. rewrite Elt. simpl.
        rewrite !list_lookup_insert_eq by lia. done.
      * intros j Hne. split; simpl; by rewrite list_lookup_insert_ne.
    + inversion Hb; subst; clear Hb.
      split; [done|]. split; [done|]. split; [done|]. split; [done|].
      apply Hcur; [|done].
      exists k. split; [done|]. rewrite Ek. exists x, dv.
      replace (Z.of_nat (Z.to_nat i)) with i by lia.
      split; [done|]. split; [congruence|]. rewrite Elt.
      split; congruence.
  - inversion Hb; subst; clear Hb.
    split; [done|]. split; [done|]. split; [done|]. split; [done|].
    apply Hcur; [|done].
    exists k. split; [done|]. rewrite Ek. done.
Qed.

Lemma relax_loop_spec loc_n min_dist u w w' :
  for_range (Dijkstra_relax_body loc_n min_dist u) 0 loc_n w = Some w' →
  relax_inv loc_n min_dist u w loc_n w'.
Proof.
  intros H. destruct (Z.le_gt_cases loc_n 0) as [Hn|Hn].
  - rewrite for_range_empty in H by done. inversion H; subst.
    repeat (split; [done|]). intros j. split; [lia|done].
  - eapply (for_range_inv _ (relax_inv loc_n min_dist u w)); [lia| | |exact H].
    + repeat (split; [done|]). intros j. split; [lia|done].
    + intros i t t' Hi. apply relax_body_inv. lia.
Qed.

(** What a process does with the winner [(min_dist, u)]: its owner marks
    it, and every process relaxes its unknown entries through it. *)
Lemma Dijkstra_update_spec loc_n my_rank min_dist u w w' :
  Dijkstra_update loc_n my_rank (min_dist, u) w = Some w' →
  loc_n ≠ 0 ∧
  ∃ w1,
    (if Z.quot u loc_n =? my_rank
     then 0 ≤ Z.rem u loc_n < Z.of_nat (length (known w)) ∧
          w1 = set_known w (<[Z.to_nat (Z.rem u loc_n) := 1]> (known w))
     else w1 = w) ∧
    relax_inv loc_n min_dist u w1 loc_n w'.
Proof.
  unfold Dijkstra_update. simpl. intros H.
  apply bind_Some in H as (owner & Ho & H).
  apply bind_Some in H as (w1 & Hw1 & H).
  apply int_div_Some in Ho as [Hn ->]. split; [done|].
  exists w1. split; [|by apply relax_loop_spec].
  destruct (Z.quot u loc_n =? my_rank); [|by inversion Hw1].
  apply bind_Some in Hw1 as (lu & Hlu & Hw1).
  apply bind_Some in Hw1 as (k & Hk & Hw1). inversion Hw1; subst.
  apply int_rem_Some in Hlu as [_ ->]. apply wr_Some in Hk as [? ->]. done.
Qed.

(** ** Gathered vectors *)

Section gathered.
Context (f : proc → list Z) (m : nat) (ws : list proc).
Hypothesis Hlen : ∀ (k : nat) w, ws !! k = Some w → length (f w) = m.

Lemma pieces_same_length : Forall (λ l, length l = m) (f <$> ws).
Proof.
  apply Forall_lookup. intros k l Hk.
  rewrite list_lookup_fmap in Hk.
  destruct (ws !! k) as [w|] eqn:E; [|done]. inversion Hk; subst.
  by eapply Hlen.
Qed.

Lemma length_pieces : length (mjoin (f <$> ws)) = (length ws * m)%nat.
Proof.
  rewrite length_join, <- list_fmap_compose.
  rewrite (sum_list_fmap_same m).
  - done.
  - apply Forall_lookup. intros k w Hk. by eapply Hlen.
Qed.

Lemma lookup_pieces (k j : nat) w :
  ws !! k = Some w → (j < m)%nat →
  mjoin (f <$> ws) !! (k * m + j)%nat = f w !! j.
Proof.
  intros Hk Hj.
  destruct (lookup_lt_is_Some_2 (f w) j) as [x Hx].
  { rewrite (Hlen k w Hk). done. }
  rewrite Hx. apply (join_lookup_Some_same_length' m); [|done|].
  - apply pieces_same_length.
  - exists (f w). split; [|done]. by rewrite list_lookup_fmap, Hk.
Qed.
End gathered.

Lemma index_split (p m g : nat) :
  (g < p * m)%nat →
  ∃ k j : nat, (k < p)%nat ∧ (j < m)%nat ∧ g = (k * m + j)%nat.
Proof.
  intros H. assert (m ≠ 0)%nat by lia.
  exists (g / m)%nat, (g mod m)%nat. split; [|split].
  - apply Nat.Div0.div_lt_upper_bound. lia.
  - by apply Nat.mod_upper_bound.
  - rewrite (Nat.div_mod_eq g m) at 1. lia.
Qed.

(** ** The sequential reference *)

Lemma unknown_min_unique dist known b u d u' d' :
  Z.of_nat u < b → Z.of_nat u' < b →
  unknown_min dist known b u d → unknown_min dist known b u' d' →
  u = u' ∧ d = d'.
Proof.
  intros Hu Hu' (Hk & Hd & Hmin) (Hk' & Hd' & Hmin').
  destruct (Hmin u' d' Hu' Hk' Hd') as [H1 H2].
  destruct (Hmin' u d Hu Hk Hd) as [H3 H4].
  assert (d = d') by lia. subst d'.
  split; [|done].
  destruct (Nat.lt_trichotomy u u') as [Hlt|[Heq|Hgt]]; [|done|].
  - specialize (H4 Hlt). lia.
  - specialize (H2 Hgt). lia.
Qed.

Lemma seq_find_min_S dist known n :
  seq_find_min dist known (S n) =
  seq_pick dist known (seq_find_min dist known n) n.
Proof. unfold seq_find_min. by rewrite seq_S, foldl_app. Qed.

(** The reference picks the first unknown vertex of least distance, and
    nothing when no vertex is unknown. *)
Lemma seq_find_min_spec dist known n :
  length dist = length known →
  match seq_find_min dist known n with
  | Some (d, u) => (u < n)%nat ∧ unknown_min dist known (Z.of_nat n) u d
  | None => ∀ v : nat, (v < n)%nat → known !! v ≠ Some 0
  end.
Proof.
  intros Hlen. induction n as [|n IH].
  - simpl. intros v Hv. lia.
  - rewrite seq_find_min_S. unfold seq_pick.
    assert (Hsplit : ∀ v : nat, Z.of_nat v < Z.of_nat (S n) →
              Z.of_nat v < Z.of_nat n ∨ v = n) by (intros; lia).
    destruct (known !! n) as [k|] eqn:Ek.
    2:{ destruct (seq_find_min dist known n) as [[d u]|].
        - destruct IH as (Hu & Hk & Hd & Hmin). split; [lia|].
          split; [done|]. split; [done|]. intros v d' Hv Hkv Hdv.
          destruct (Hsplit v Hv) as [Hv'| ->]; [by apply Hmin|congruence].
        - intros v Hv. destruct (decide (v = n)) as [->|]; [congruence|].
          apply IH. lia. }
    destruct (dist !! n) as [dn|] eqn:Ed.
    2:{ apply lookup_ge_None in Ed. apply lookup_lt_Some in Ek. lia. }
    destruct (k =? 0) eqn:Ek0.
    + apply Z.eqb_eq in Ek0. subst k.
      destruct (seq_find_min dist known n) as [[d u]|].
      * destruct IH as (Hu & Hk & Hd & Hmin).
        destruct (dn <? d) eqn:Elt.
        -- apply Z.ltb_lt in Elt. split; [lia|]. split; [done|].
           split; [done|]. intros v d' Hv Hkv Hdv.
           destruct (Hsplit v Hv) as [Hv'| ->].
           ++ destruct (Hmin v d' Hv' Hkv Hdv). lia.
           ++ rewrite Ed in Hdv. inversion Hdv; subst. lia.
        -- apply Z.ltb_ge in Elt. split; [lia|]. split; [done|].
           split; [done|]. intros v d' Hv Hkv Hdv.
           destruct (Hsplit v Hv) as [Hv'| ->]; [by apply Hmin|].
           rewrite Ed in Hdv. inversion Hdv; subst. lia.
      * split; [lia|]. split; [done|]. split; [done|].
        intros v d' Hv Hkv Hdv. destruct (Hsplit v Hv) as [Hv'| ->].
        -- exfalso. apply (IH v); [lia|done].
        -- rewrite Ed in Hdv. inversion Hdv; subst. lia.
    + apply Z.eqb_neq in Ek0.
      destruct (seq_find_min dist known n) as [[d u]|].
      * destruct IH as (Hu & Hk & Hd & Hmin). split; [lia|].
        split; [done|]. split; [done|]. intros v d' Hv Hkv Hdv.
        destruct (Hsplit v Hv) as [Hv'| ->]; [by apply Hmin|congruence].
      * intros v Hv. destruct (decide (v = n)) as [->|]; [congruence|].
        apply IH. lia.
Qed.

(** ** One round of the group *)

Lemma each_rank_zip_replicate {B : Type} (f : Z → Z * Z → proc → option B)
    (r : Z * Z) :
  ∀ (ws : list proc) (k0 : Z) (n : nat),
    (length ws ≤ n)%nat →
    each_rank (λ k '(g, w), f k g w) k0 (zip (replicate n r) ws) =
    each_rank (λ k w, f k r w) k0 ws.
Proof.
  induction ws as [|w ws IH]; intros k0 n Hn.
  - by destruct n.
  - destruct n as [|n]; [simpl in Hn; lia|]. simpl.
    rewrite IH by (simpl in Hn; lia). done.
Qed.

Lemma Dijkstra_round_Some loc_n ws ws' :
  Dijkstra_round loc_n ws = Some ws' →
  ∃ mins r,
    spmd (Dijkstra_my_min loc_n) ws = Some mins ∧
    least_pair mins r ∧
    spmd (λ k w, Dijkstra_update loc_n k r w) ws = Some ws'.
Proof.
  unfold Dijkstra_round. intros H.
  apply bind_Some in H as (mins & Hmins & H).
  apply bind_Some in H as (glbl & Hg & H).
  apply MPI_Allreduce_Some in Hg as (r & -> & Hr).
  exists mins, r. split; [done|]. split; [done|].
  unfold spmd in *. rewrite each_rank_zip_replicate in H; [done|].
  apply each_rank_length in Hmins. lia.
Qed.

(** ** One round of the group against one round of the reference *)

Lemma quot_rem_index (k j m : nat) :
  (j < m)%nat →
  Z.quot (Z.of_nat j + Z.of_nat k * Z.of_nat m) (Z.of_nat m) = Z.of_nat k ∧
  Z.rem (Z.of_nat j + Z.of_nat k * Z.of_nat m) (Z.of_nat m) = Z.of_nat j.
Proof.
  intros Hj. rewrite Z.quot_div_nonneg, Z.rem_mod_nonneg by lia.
  rewrite Z.div_add, Z.mod_add by lia.
  rewrite Z.div_small, Z.mod_small by lia. lia.
Qed.

Lemma index_inj (m k j k' j' : nat) :
  (j < m)%nat → (j' < m)%nat → (k * m + j = k' * m + j')%nat →
  k = k' ∧ j = j'.
Proof. intros ? ? H. apply Nat.mul_split_l in H; [|done..]. lia. Qed.

Section round.
Context (mat : list Z) (N m : nat) (ws : list proc).
Hypothesis Hwf : wf_procs mat N m ws.

Local Abbreviation loc_n := (Z.of_nat m).

Lemma wf_lengths (f : proc → list Z) :
  f = loc_dist ∨ f = loc_pred ∨ f = known →
  ∀ (k : nat) w, ws !! k = Some w → length (f w) = m.
Proof.
  intros Hf k w Hk. destruct Hwf as (_ & _ & Hw).
  destruct (Hw k w Hk) as (? & ? & ? & _).
  destruct Hf as [->|[->| ->]]; done.
Qed.

Lemma wf_dist_length : length (gathered_dist ws) = N.
Proof.
  unfold gathered_dist. rewrite (length_pieces loc_dist m).
  - by destruct Hwf as (-> & _).
  - apply wf_lengths. auto.
Qed.

Lemma wf_known_length : length (gathered_known ws) = N.
Proof.
  unfold gathered_known. rewrite (length_pieces known m).
  - by destruct Hwf as (-> & _).
  - apply wf_lengths. auto.
Qed.

Lemma wf_pred_length : length (gathered_pred ws) = N.
Proof.
  unfold gathered_pred. rewrite (length_pieces loc_pred m).
  - by destruct Hwf as (-> & _).
  - apply wf_lengths. auto.
Qed.

Lemma wf_m_le_N : ws ≠ [] → (m ≤ N)%nat.
Proof.
  intros Hne. destruct Hwf as (-> & _). destruct ws; [done|]. simpl. lia.
Qed.

Lemma wf_vertex (g : nat) :
  (g < N)%nat →
  ∃ (k j : nat) w, ws !! k = Some w ∧ (j < m)%nat ∧ g = (k * m + j)%nat.
Proof.
  intros Hg. destruct Hwf as (HNeq & _).
  destruct (index_split (length ws) m g) as (k & j & Hk & Hj & ->); [lia|].
  destruct (lookup_lt_is_Some_2 ws k Hk) as [w Hw]. by exists k, j, w.
Qed.

Lemma wf_index_bound (k j : nat) w :
  ws !! k = Some w → (j < m)%nat → (k * m + j < N)%nat.
Proof.
  intros Hk Hj. destruct Hwf as (-> & _).
  apply lookup_lt_Some in Hk. nia.
Qed.

Hypothesis Hm : (0 < m)%nat.
Hypothesis HN : Z.of_nat N ≤ INFINITY.

(** The winner of the round is the vertex the reference picks. *)
Lemma winner_is_reference_pick mins (k0 un : nat) md w0 :
  spmd (Dijkstra_my_min loc_n) ws = Some mins →
  least_pair mins (md, Z.of_nat un + Z.of_nat k0 * loc_n) →
  ws !! k0 = Some w0 → (un < m)%nat → md < INFINITY →
  unknown_min (loc_dist w0) (known w0) loc_n un md →
  seq_find_min (gathered_dist ws) (gathered_known ws) N =
    Some (md, (k0 * m + un)%nat).
Proof.
  intros Hmins [_ Hleast] Hk0 Hun Hmd (Hku & Hdu & Hmin0).
  assert (Hne : ws ≠ []) by (intros ->; done).
  assert (Hg0 := wf_index_bound k0 un w0 Hk0 Hun).
  assert (Hglob : unknown_min (gathered_dist ws) (gathered_known ws)
                    (Z.of_nat N) (k0 * m + un)%nat md).
  { split; [|split].
    - unfold gathered_known.
      rewrite (lookup_pieces known m ws) with (w := w0); try done.
      apply wf_lengths; auto.
    - unfold gathered_dist.
      rewrite (lookup_pieces loc_dist m ws) with (w := w0); try done.
      apply wf_lengths; auto.
    - intros v d Hv Hkv Hdv.
      destruct (wf_vertex v ltac:(lia)) as (k & j & w & Hk & Hj & ->).
      unfold gathered_known in Hkv. unfold gathered_dist in Hdv.
      rewrite (lookup_pieces known m ws) with (w := w) in Hkv;
        [|apply wf_lengths; auto|done..].
      rewrite (lookup_pieces loc_dist m ws) with (w := w) in Hdv;
        [|apply wf_lengths; auto|done..].
      destruct (spmd_lookup _ _ _ Hmins k w Hk) as (c & Hc & Hck).
      specialize (Hleast c (list_elem_of_lookup_2 _ _ _ Hc)).
      simpl in Hleast.
      apply Dijkstra_my_min_spec in Hck; [|pose proof (wf_m_le_N Hne); lia].
      destruct Hck as [[-> Hno]|(un' & md' & -> & Hun' & Hmd' & Hmin')].
      + specialize (Hno j d ltac:(lia) Hkv Hdv). lia.
      + destruct Hmin' as (_ & _ & Hmin').
        destruct (Hmin' j d ltac:(lia) Hkv Hdv) as [H1 H2].
        simpl in Hleast. split; [lia|]. intros Hlt.
        destruct Hleast as [?|[? Hle]]; [lia|].
        assert (j < un')%nat by lia.
        specialize (H2 ltac:(done)). lia. }
  assert (Hspec := seq_find_min_spec (gathered_dist ws) (gathered_known ws) N
            ltac:(by rewrite wf_dist_length, wf_known_length)).
  destruct (seq_find_min (gathered_dist ws) (gathered_known ws) N)
    as [[d u]|].
  - destruct Hspec as [Hu Hmin].
    assert (H1 : Z.of_nat u < Z.of_nat N) by lia.
    assert (H2 : Z.of_nat (k0 * m + un) < Z.of_nat N) by lia.
    destruct (unknown_min_unique _ _ _ _ _ _ _ H1 H2 Hmin Hglob)
      as [-> ->]. done.
  - exfalso. apply (Hspec (k0 * m + un)%nat Hg0). by destruct Hglob.
Qed.

(** After a successful update the arrays keep their shape. *)
Lemma update_keeps_wf (k : nat) r w w' :
  ws !! k = Some w →
  Dijkstra_update loc_n (Z.of_nat k) r w = Some w' →
  wf_proc mat N m k w'.
Proof.
  intros Hk Hu. destruct r as [md u].
  apply Dijkstra_update_spec in Hu as (_ & w1 & Hw1 & Hinv).
  destruct Hinv as (Hmat & Hkn & Hld & Hlp & _).
  destruct Hwf as (_ & _ & Hw). destruct (Hw k w Hk) as (L1 & L2 & L3 & L4 & L5).
  assert (Hw1' : loc_mat w1 = loc_mat w ∧ loc_dist w1 = loc_dist w ∧
                 loc_pred w1 = loc_pred w ∧ length (known w1) = m).
  { destruct (Z.quot u loc_n =? Z.of_nat k).
    - destruct Hw1 as [_ ->]. simpl. by rewrite length_insert.
    - by subst w1. }
  destruct Hw1' as (E1 & E2 & E3 & E4).
  unfold wf_proc. rewrite Hmat, Hkn, Hld, Hlp, E1, E2, E3, E4. done.
Qed.

Lemma round_keeps_wf r ws' :
  spmd (λ k w, Dijkstra_update loc_n k r w) ws = Some ws' →
  wf_procs mat N m ws'.
Proof.
  intros Hu. assert (Hl := spmd_length _ _ _ Hu).
  destruct Hwf as (HNeq & Hmat & Hw). split; [by rewrite Hl|].
  split; [done|]. intros k w' Hk'.
  destruct (lookup_lt_is_Some_2 ws k) as [w Hk].
  { rewrite <- Hl. by eapply lookup_lt_Some. }
  destruct (spmd_lookup _ _ _ Hu k w Hk) as (w'' & Hk'' & Hup).
  rewrite Hk' in Hk''. inversion Hk''; subst w''.
  by eapply update_keeps_wf.
Qed.

(** A gathered vector is known once each of its pieces is. *)
Lemma gathered_ext (f : proc → list Z) r ws' (l : list Z) :
  f = loc_dist ∨ f = loc_pred ∨ f = known →
  spmd (λ k w, Dijkstra_update loc_n k r w) ws = Some ws' →
  length l = N →
  (∀ (k j : nat) w w', ws !! k = Some w → ws' !! k = Some w' →
     (j < m)%nat → f w' !! j = l !! (k * m + j)%nat) →
  mjoin (f <$> ws') = l.
Proof.
  intros Hf Hu Hl Hpt. assert (Hwf' := round_keeps_wf _ _ Hu).
  assert (Hlen' : ∀ (k : nat) w, ws' !! k = Some w → length (f w) = m).
  { intros k w Hk. destruct Hwf' as (_ & _ & Hw).
    destruct (Hw k w Hk) as (? & ? & ? & _).
    destruct Hf as [->|[->| ->]]; done. }
  assert (HN' : N = (length ws' * m)%nat) by by destruct Hwf'.
  apply list_eq. intros g.
  destruct (decide (g < N)%nat) as [Hg|Hg].
  - destruct (wf_vertex g Hg) as (k & j & w & Hk & Hj & ->).
    destruct (spmd_lookup _ _ _ Hu k w Hk) as (w' & Hk' & _).
    rewrite (lookup_pieces f m ws' Hlen' k j w' Hk' Hj).
    by eapply Hpt.
  - rewrite !lookup_ge_None_2; [done|lia|].
    rewrite (length_pieces f m ws' Hlen'). lia.
Qed.

(** Entry [j] of process [k] after the update, when the winner is
    vertex [k0 * m + un] at distance [md]. *)
Lemma update_at (k j k0 un : nat) md w w' :
  (un < m)%nat → (k0 * m + un < N)%nat →
  ws !! k = Some w → (j < m)%nat →
  Dijkstra_update loc_n (Z.of_nat k)
    (md, Z.of_nat un + Z.of_nat k0 * loc_n) w = Some w' →
  let g := (k * m + j)%nat in
  let g0 := (k0 * m + un)%nat in
  let known' := <[g0 := 1]> (gathered_known ws) in
  known w' !! j = known' !! g ∧
  ∃ kk dv, known' !! g = Some kk ∧ loc_dist w !! j = Some dv ∧
    (kk = 0 → ∃ x, mat !! (g0 * N + g)%nat = Some x ∧
       if md + x <? dv
       then loc_dist w' !! j = Some (md + x) ∧
            loc_pred w' !! j = Some (Z.of_nat g0)
       else loc_dist w' !! j = Some dv ∧
            loc_pred w' !! j = loc_pred w !! j) ∧
    (kk ≠ 0 → loc_dist w' !! j = Some dv ∧
              loc_pred w' !! j = loc_pred w !! j).
Proof.
  intros Hun Hg0 Hk Hj Hu g g0 known'.
  apply Dijkstra_update_spec in Hu as (_ & w1 & Hw1 & Hinv).
  destruct (quot_rem_index k0 un m Hun) as [Eq Er].
  rewrite Eq, Er, Nat2Z.id in Hw1.
  destruct Hinv as (Hmat & Hkn & _ & _ & Hent).
  destruct (Hent j) as [Hrel _]. specialize (Hrel ltac:(lia)).
  destruct Hwf as (_ & _ & Hw).
  destruct (Hw k w Hk) as (L1 & L2 & L3 & L4 & L5).
  assert (Hgk : gathered_known ws !! g = known w !! j).
  { unfold gathered_known. apply (lookup_pieces known m ws); try done.
    apply wf_lengths; auto. }
  assert (Hw1' : loc_mat w1 = loc_mat w ∧ loc_dist w1 = loc_dist w ∧
                 loc_pred w1 = loc_pred w ∧ known w1 !! j = known' !! g).
  { subst known'. destruct (Z.of_nat k0 =? Z.of_nat k) eqn:E.
    - apply Z.eqb_eq in E. apply Nat2Z.inj in E. subst k0.
      destruct Hw1 as [_ ->]. simpl. repeat (split; [done|]).
      destruct (decide (j = un)) as [->|Hne].
      + subst g g0. rewrite !list_lookup_insert_eq; [done| |lia].
        rewrite wf_known_length. lia.
      + rewrite !list_lookup_insert_ne; [done| |done].
        subst g g0. lia.
    - apply Z.eqb_neq in E. subst w1. repeat (split; [done|]).
      rewrite list_lookup_insert_ne; [done|]. subst g g0. intros Heq.
      apply index_inj in Heq as [-> _]; [done..]. }
  destruct Hw1' as (E1 & E2 & E3 & E4).
  split; [by rewrite Hkn|].
  destruct Hrel as (kk & Hkk & Hrel). rewrite E4 in Hkk.
  destruct (lookup_lt_is_Some_2 (loc_dist w) j) as [dv Hdv]; [lia|].
  exists kk, dv. split; [done|]. split; [done|].
  rewrite E2, E3 in Hrel.
  destruct (kk =? 0) eqn:Ekk.
  - apply Z.eqb_eq in Ekk. split; [|done]. intros _.
    destruct Hrel as (x & dv' & Hx & Hdv' & Hrel).
    rewrite Hdv in Hdv'. inversion Hdv'; subst dv'. exists x. split.
    + apply rd_Some in Hx as [_ Hx]. rewrite E1 in Hx.
      replace (Z.to_nat ((Z.of_nat un + Z.of_nat k0 * Z.of_nat m)
                         * Z.of_nat m + Z.of_nat j))
        with (g0 * m + j)%nat in Hx by (subst g0; lia).
      rewrite L5 in Hx by done. done.
    + replace (Z.of_nat g0) with (Z.of_nat un + Z.of_nat k0 * Z.of_nat m)
        by (subst g0; lia). done.
  - apply Z.eqb_neq in Ekk. split; [done|]. intros _.
    destruct Hrel as [-> ->]. done.
Qed.

(** A round won by a vertex is a round of the reference. *)
Lemma round_won_simulates mins (k0 un : nat) md w0 ws' :
  spmd (Dijkstra_my_min loc_n) ws = Some mins →
  least_pair mins (md, Z.of_nat un + Z.of_nat k0 * loc_n) →
  ws !! k0 = Some w0 → (un < m)%nat → md < INFINITY →
  unknown_min (loc_dist w0) (known w0) loc_n un md →
  spmd (λ k w, Dijkstra_update loc_n k
                 (md, Z.of_nat un + Z.of_nat k0 * loc_n) w) ws = Some ws' →
  gathered ws' = seq_round mat N (gathered ws).
Proof.
  intros Hmins Hleast Hk0 Hun Hmd Hmin Hu.
  assert (Hg0 := wf_index_bound k0 un w0 Hk0 Hun).
  unfold seq_round. cbn [gathered sdist sknown spred].
  rewrite (winner_is_reference_pick mins k0 un md w0) by done.
  assert (Hat : ∀ (k j : nat) w w', ws !! k = Some w →
            ws' !! k = Some w' → (j < m)%nat →
            Dijkstra_update loc_n (Z.of_nat k)
              (md, Z.of_nat un + Z.of_nat k0 * loc_n) w = Some w').
  { intros k j w w' Hk Hk' _.
    destruct (spmd_lookup _ _ _ Hu k w Hk) as (w'' & Hk'' & Hup).
    congruence. }
  unfold gathered. f_equal.
  - apply (gathered_ext loc_dist (md, Z.of_nat un + Z.of_nat k0 * loc_n) ws'); [auto|done| |].
    { by rewrite length_imap, wf_dist_length. }
    intros k j w w' Hk Hk' Hj.
    destruct (update_at k j k0 un md w w' Hun Hg0 Hk Hj
                (Hat k j w w' Hk Hk' Hj))
      as (_ & kk & dv & Hkk & Hdv & Hz & Hnz).
    rewrite list_lookup_imap.
    assert (Hgd : gathered_dist ws !! (k * m + j)%nat = Some dv).
    { unfold gathered_dist.
      rewrite (lookup_pieces loc_dist m ws) with (w := w); try done.
      apply wf_lengths; auto. }
    rewrite Hgd. simpl. unfold seq_shorter.
    rewrite (list_lookup_total_correct _ _ _ Hkk).
    rewrite (list_lookup_total_correct _ _ _ Hgd).
    destruct (kk =? 0) eqn:Ekk; simpl.
    + apply Z.eqb_eq in Ekk. destruct (Hz Ekk) as (x & Hx & Hres).
      unfold weight. rewrite (list_lookup_total_correct _ _ _ Hx).
      destruct (md + x <? dv); by destruct Hres.
    + apply Z.eqb_neq in Ekk. by destruct (Hnz Ekk).
  - apply (gathered_ext loc_pred (md, Z.of_nat un + Z.of_nat k0 * loc_n) ws'); [auto|done| |].
    { by rewrite length_imap, wf_pred_length. }
    intros k j w w' Hk Hk' Hj.
    destruct (update_at k j k0 un md w w' Hun Hg0 Hk Hj
                (Hat k j w w' Hk Hk' Hj))
      as (_ & kk & dv & Hkk & Hdv & Hz & Hnz).
    rewrite list_lookup_imap.
    assert (Hgd : gathered_dist ws !! (k * m + j)%nat = Some dv).
    { unfold gathered_dist.
      rewrite (lookup_pieces loc_dist m ws) with (w := w); try done.
      apply wf_lengths; auto. }
    assert (Hgp : gathered_pred ws !! (k * m + j)%nat = loc_pred w !! j).
    { unfold gathered_pred. apply (lookup_pieces loc_pred m ws); try done.
      apply wf_lengths; auto. }
    destruct (lookup_lt_is_Some_2 (loc_pred w) j) as [q Hq].
    { rewrite (wf_lengths loc_pred ltac:(auto) k w Hk). done. }
    rewrite Hgp, Hq. simpl. unfold seq_shorter.
    rewrite (list_lookup_total_correct _ _ _ Hkk).
    rewrite (list_lookup_total_correct _ _ _ Hgd).
    destruct (kk =? 0) eqn:Ekk; simpl.
    + apply Z.eqb_eq in Ekk. destruct (Hz Ekk) as (x & Hx & Hres).
      unfold weight. rewrite (list_lookup_total_correct _ _ _ Hx).
      destruct (md + x <? dv); destruct Hres as [_ ->]; done.
    + apply Z.eqb_neq in Ekk. destruct (Hnz Ekk) as [_ ->]. done.
  - apply (gathered_ext known (md, Z.of_nat un + Z.of_nat k0 * loc_n) ws'); [auto|done| |].
    { by rewrite length_insert, wf_known_length. }
    intros k j w w' Hk Hk' Hj.
    by destruct (update_at k j k0 un md w w' Hun Hg0 Hk Hj
                   (Hat k j w w' Hk Hk' Hj)) as (-> & _).
Qed.

(** With the sentinel as winner, a process survives the update only if
    none of its entries is unknown; it then changes nothing. *)
Lemma sentinel_update (k j : nat) w w' :
  ws !! k = Some w → (j < m)%nat →
  Dijkstra_update loc_n (Z.of_nat k) (INFINITY, INFINITY) w = Some w' →
  (∃ kk, known w !! j = Some kk ∧ kk ≠ 0) ∧
  loc_dist w' !! j = loc_dist w !! j ∧
  loc_pred w' !! j = loc_pred w !! j ∧
  known w' !! j = known w !! j.
Proof.
  intros Hk Hj Hup.
  assert (Hne : ws ≠ []) by (intros ->; done).
  assert (HmN := wf_m_le_N Hne).
  apply Dijkstra_update_spec in Hup as (_ & w1 & Hw1 & Hinv).
  assert (Hp : (k < length ws)%nat) by by eapply lookup_lt_Some.
  assert (HNeq : N = (length ws * m)%nat) by by destruct Hwf.
  assert (E : (Z.quot INFINITY loc_n =? Z.of_nat k) = false).
  { apply Z.eqb_neq. rewrite Z.quot_div_nonneg by (unfold INFINITY; lia).
    intros Hq.
    assert (Z.of_nat (length ws) ≤ INFINITY / loc_n).
    { apply Z.div_le_lower_bound; lia. }
    lia. }
  rewrite E in Hw1. subst w1.
  destruct Hinv as (_ & Hkn & _ & _ & Hent).
  destruct (Hent j) as [Hrel _]. specialize (Hrel ltac:(lia)).
  destruct Hrel as (kk & Hkk & Hrel).
  destruct Hwf as (_ & _ & Hw).
  destruct (Hw k w Hk) as (L1 & L2 & L3 & L4 & L5).
  destruct (kk =? 0) eqn:Ekk.
  - exfalso. destruct Hrel as (x & dv & Hx & _).
    apply rd_Some in Hx as [_ Hx]. apply lookup_lt_Some in Hx.
    rewrite L4 in Hx. nia.
  - apply Z.eqb_neq in Ekk. destruct Hrel as [-> ->].
    split; [by exists kk|]. by rewrite Hkn.
Qed.

(** A round that no vertex wins: the processes exchange the sentinel,
    which is survivable only when no vertex is unknown any more; the
    reference then picks nothing either. *)
Lemma round_lost_simulates ws' :
  ws ≠ [] →
  spmd (λ k w, Dijkstra_update loc_n k (INFINITY, INFINITY) w) ws
    = Some ws' →
  gathered ws' = seq_round mat N (gathered ws).
Proof.
  intros Hne Hu.
  assert (HmN := wf_m_le_N Hne).
  assert (Hat : ∀ (k j : nat) w w', ws !! k = Some w →
            ws' !! k = Some w' → (j < m)%nat →
            (∃ kk, known w !! j = Some kk ∧ kk ≠ 0) ∧
            loc_dist w' !! j = loc_dist w !! j ∧
            loc_pred w' !! j = loc_pred w !! j ∧
            known w' !! j = known w !! j).
  { intros k j w w' Hk Hk' Hj.
    destruct (spmd_lookup _ _ _ Hu k w Hk) as (w'' & Hk'' & Hup).
    rewrite Hk' in Hk''. inversion Hk''; subst w''. clear Hk''.
    by apply (sentinel_update k). }
  assert (Hnone : seq_find_min (gathered_dist ws) (gathered_known ws) N
                  = None).
  { assert (Hspec := seq_find_min_spec (gathered_dist ws)
              (gathered_known ws) N
              ltac:(by rewrite wf_dist_length, wf_known_length)).
    destruct (seq_find_min (gathered_dist ws) (gathered_known ws) N)
      as [[d u]|]; [|done].
    exfalso. destruct Hspec as (Hlt & Hku & _).
    destruct (wf_vertex u Hlt) as (k & j & w & Hk & Hj & ->).
    destruct (spmd_lookup _ _ _ Hu k w Hk) as (w' & Hk' & _).
    destruct (Hat k j w w' Hk Hk' Hj) as ((kk & Hkk & Hnz) & _).
    unfold gathered_known in Hku.
    rewrite (lookup_pieces known m ws) with (w := w) in Hku;
      [|apply wf_lengths; auto|done..].
    congruence. }
  unfold seq_round. cbn [gathered sdist sknown spred]. rewrite Hnone.
  unfold gathered. f_equal.
  - apply (gathered_ext loc_dist (INFINITY, INFINITY) ws'); [auto|done|apply wf_dist_length|].
    intros k j w w' Hk Hk' Hj.
    destruct (Hat k j w w' Hk Hk' Hj) as (_ & -> & _).
    symmetry. apply (lookup_pieces loc_dist m ws); try done.
    apply wf_lengths; auto.
  - apply (gathered_ext loc_pred (INFINITY, INFINITY) ws'); [auto|done|apply wf_pred_length|].
    intros k j w w' Hk Hk' Hj.
    destruct (Hat k j w w' Hk Hk' Hj) as (_ & _ & -> & _).
    symmetry. apply (lookup_pieces loc_pred m ws); try done.
    apply wf_lengths; auto.
  - apply (gathered_ext known (INFINITY, INFINITY) ws'); [auto|done|apply wf_known_length|].
    intros k j w w' Hk Hk' Hj.
    destruct (Hat k j w w' Hk Hk' Hj) as (_ & _ & _ & ->).
    symmetry. apply (lookup_pieces known m ws); try done.
    apply wf_lengths; auto.
Qed.

(** A round of the group that does not fail is a round of the
    reference on the gathered vectors. *)
Lemma Dijkstra_round_simulates ws' :
  Dijkstra_round loc_n ws = Some ws' →
  wf_procs mat N m ws' ∧ gathered ws' = seq_round mat N (gathered ws).
Proof.
  intros H. apply Dijkstra_round_Some in H as (mins & r & Hmins & Hr & Hu).
  split; [by eapply round_keeps_wf|].
  assert (Hne : ws ≠ []).
  { intros ->. inversion Hmins; subst. by destruct Hr as [?%elem_of_nil _]. }
  assert (HmN := wf_m_le_N Hne).
  assert (Hrin := proj1 Hr). apply list_elem_of_lookup_1 in Hrin as [k0 Hk0].
  destruct (lookup_lt_is_Some_2 ws k0) as [w0 Hw0].
  { rewrite <- (spmd_length _ _ _ Hmins). by eapply lookup_lt_Some. }
  destruct (spmd_lookup _ _ _ Hmins k0 w0 Hw0) as (c & Hc & Hck).
  rewrite Hk0 in Hc. inversion Hc; subst c.
  apply Dijkstra_my_min_spec in Hck; [|lia].
  destruct Hck as [[-> _]|(un & md & -> & Hun & Hmd & Hmin)].
  - by apply round_lost_simulates.
  - eapply round_won_simulates; try done. lia.
Qed.
End round.

(** ** Datatypes *)

Lemma lookup_copies (c : Z) (F : Z → list Z) (m i j : nat) :
  (∀ i, length (F i) = m) → Z.of_nat i < c → (j < m)%nat →
  mjoin (F <$> seqZ 0 c) !! (i * m + j)%nat = F (Z.of_nat i) !! j.
Proof.
  intros HF Hi Hj.
  destruct (lookup_lt_is_Some_2 (F (Z.of_nat i)) j) as [x Hx].
  { by rewrite HF. }
  rewrite Hx. apply (join_lookup_Some_same_length' m); [|done|].
  - apply Forall_fmap, Forall_forall. intros z _. apply HF.
  - exists (F (Z.of_nat i)). split; [|done].
    rewrite list_lookup_fmap, lookup_seqZ_lt by done. done.
Qed.

Lemma length_copies (c : Z) (F : Z → list Z) (m : nat) :
  (∀ i, length (F i) = m) →
  length (mjoin (F <$> seqZ 0 c)) = (Z.to_nat c * m)%nat.
Proof.
  intros HF. rewrite length_join, <- list_fmap_compose.
  rewrite (sum_list_fmap_same m).
  - by rewrite length_seqZ.
  - apply Forall_forall. intros z _. apply HF.
Qed.

Lemma typemap_contiguous_INT c :
  typemap (MPI_Type_contiguous c MPI_INT) = seqZ 0 c.
Proof.
  simpl. unfold copies. simpl. apply list_eq. intros i.
  destruct (decide (Z.of_nat i < c)) as [Hi|Hi].
  - replace i with (i * 1 + 0)%nat at 1 by lia.
    rewrite (lookup_copies c (λ i, [i * 1 + 0]) 1 i 0); [|done|done|lia].
    rewrite lookup_seqZ_lt by done. simpl. f_equal. lia.
  - rewrite !lookup_ge_None_2; [done| |].
    + rewrite length_seqZ. lia.
    + rewrite (length_copies c (λ i, [i * 1 + 0]) 1); [lia|done].
Qed.

Lemma typemap_contiguous_1 t :
  typemap (MPI_Type_contiguous 1 t) = typemap t.
Proof.
  simpl. unfold copies. simpl. rewrite app_nil_r.
  rewrite <- (list_fmap_id (typemap t)) at 2.
  apply list_fmap_ext. intros _ d _. simpl. lia.
Qed.

Lemma extent_blk_col n loc_n : extent (Build_blk_col_type n loc_n) = loc_n.
Proof. simpl. lia. Qed.

Lemma typemap_blk_col n loc_n :
  typemap (Build_blk_col_type n loc_n) =
  mjoin ((λ i, (λ d, i * n + d) <$> seqZ 0 loc_n) <$> seqZ 0 n).
Proof.
  unfold Build_blk_col_type. cbn [MPI_Type_get_extent MPI_Type_create_resized
    MPI_Type_vector typemap]. rewrite typemap_contiguous_INT.
  f_equal. apply list_fmap_ext. intros _ i _.
  apply list_fmap_ext. intros _ d _. simpl. lia.
Qed.

(** Displacement [i*loc_n + j] of the type map is matrix cell [(i, j)]. *)
Lemma lookup_blk_col (N m i j : nat) :
  (i < N)%nat → (j < m)%nat →
  typemap (Build_blk_col_type (Z.of_nat N) (Z.of_nat m)) !! (i * m + j)%nat =
  Some (Z.of_nat (i * N + j)).
Proof.
  intros Hi Hj. rewrite typemap_blk_col.
  rewrite (lookup_copies _ _ m); [| |lia|done].
  - rewrite list_lookup_fmap, lookup_seqZ_lt by lia. simpl. f_equal. lia.
  - intros z. rewrite length_fmap, length_seqZ. lia.
Qed.

Lemma length_blk_col (N m : nat) :
  length (typemap (Build_blk_col_type (Z.of_nat N) (Z.of_nat m))) =
  (N * m)%nat.
Proof.
  rewrite typemap_blk_col. rewrite (length_copies _ _ m); [lia|].
  intros z. rewrite length_fmap, length_seqZ. lia.
Qed.

(** ** Scatter and gather by block columns *)

(** What process [k] holds after the matrix has been scattered. *)
Lemma MPI_Scatter_blk_col_Some (N m p : nat) mat cnt blocks :
  MPI_Scatter mat 1 (Build_blk_col_type (Z.of_nat N) (Z.of_nat m)) cnt p
    = Some blocks →
  length blocks = p ∧
  ∀ (k : nat) blk, blocks !! k = Some blk → block_column mat N m k blk.
Proof.
  intros H. unfold MPI_Scatter in H.
  assert (Hl := spmd_length _ _ _ H). rewrite length_replicate in Hl.
  split; [done|]. intros k blk Hk.
  assert (Hkp : (k < p)%nat) by (rewrite <- Hl; by eapply lookup_lt_Some).
  destruct (spmd_lookup _ _ _ H k () (lookup_replicate_2 _ _ _ Hkp))
    as (blk' & Hk' & Hf).
  rewrite Hk in Hk'. inversion Hk'; subst blk'. clear Hk'.
  apply bind_Some in Hf as (data & Hpack & Hf).
  destruct (Z.of_nat (length data) =? cnt); [|done].
  inversion Hf; subst data. clear Hf.
  unfold pack in Hpack. rewrite typemap_contiguous_1 in Hpack.
  apply mapM_Some in Hpack. split.
  - rewrite <- (Forall2_length _ _ _ Hpack). apply length_blk_col.
  - intros i j Hi Hj.
    destruct (Forall2_lookup_l _ _ _ _ _ Hpack (lookup_blk_col N m i j Hi Hj))
      as (x & Hx & Hrd).
    exists x. split; [done|]. apply rd_Some in Hrd as [_ Hrd].
    rewrite extent_blk_col in Hrd.
    replace (Z.to_nat (Z.of_nat k * 1 * Z.of_nat m + Z.of_nat (i * N + j)))
      with (i * N + (k * m + j))%nat in Hrd by lia. done.
Qed.

Lemma rd_is_Some (a : list Z) i :
  0 ≤ i < Z.of_nat (length a) → is_Some (rd a i).
Proof.
  intros Hi. unfold rd. destruct (0 <=? i) eqn:E.
  - apply lookup_lt_is_Some_2. lia.
  - apply Z.leb_gt in E. lia.
Qed.

(** Scattering an [N]-by-[N] matrix over [p] processes succeeds when the
    [p] block columns fit. *)
Lemma MPI_Scatter_blk_col_total (N m p : nat) mat :
  (p * m ≤ N)%nat → length mat = (N * N)%nat →
  is_Some (MPI_Scatter mat 1 (Build_blk_col_type (Z.of_nat N) (Z.of_nat m))
             (Z.of_nat N * Z.of_nat m) p).
Proof.
  intros Hp Hmat. unfold MPI_Scatter, spmd. apply each_rank_total.
  intros k [] Hk. apply lookup_replicate in Hk as [_ Hk].
  rewrite extent_blk_col.
  assert (Hpack : is_Some (pack mat (Z.of_nat k * 1 * Z.of_nat m)
            1 (Build_blk_col_type (Z.of_nat N) (Z.of_nat m)))).
  { unfold pack. rewrite typemap_contiguous_1. apply mapM_is_Some.
    apply Forall_lookup. intros idx d Hd.
    assert (Hidx : (idx < N * m)%nat).
    { rewrite <- (length_blk_col N m). by eapply lookup_lt_Some. }
    destruct (index_split N m idx Hidx) as (i & j & Hi & Hj & ->).
    rewrite lookup_blk_col in Hd by done. inversion Hd; subst d.
    apply rd_is_Some. nia. }
  destruct Hpack as [data Hdata].
  replace (0 + Z.of_nat k) with (Z.of_nat k) by lia.
  rewrite Hdata. simpl.
  unfold pack in Hdata. rewrite typemap_contiguous_1 in Hdata.
  apply length_mapM in Hdata. rewrite length_blk_col in Hdata.
  rewrite <- Hdata.
  replace (Z.of_nat (N * m) =? Z.of_nat N * Z.of_nat m) with true; [done|].
  symmetry. apply Z.eqb_eq. lia.
Qed.

Lemma store_all_agree (mat : list Z) :
  ∀ cells buf,
    length buf = length mat →
    (∀ i x, (i, x) ∈ cells → rd mat i = Some x) →
    ∃ buf', store_all buf cells = Some buf' ∧ length buf' = length mat ∧
      ∀ q : nat, (buf !! q = mat !! q ∨ ∃ x, (Z.of_nat q, x) ∈ cells) →
                 buf' !! q = mat !! q.
Proof.
  induction cells as [|[i x] cells IH]; intros buf Hlen Hcells.
  - exists buf. split; [done|]. split; [done|].
    intros q [Hq|[x Hx]]; [done|]. by apply elem_of_nil in Hx.
  - assert (Hi := Hcells i x ltac:(apply elem_of_cons; by left)).
    apply rd_Some in Hi as [Hi0 Hix].
    assert (Hlt := lookup_lt_Some _ _ _ Hix).
    destruct (IH (<[Z.to_nat i := x]> buf)) as (buf' & Hs & Hl & Hag).
    { by rewrite length_insert. }
    { intros i' x' Hin. apply Hcells. apply elem_of_cons. by right. }
    exists buf'. split; [|split; [done|]].
    + simpl. unfold wr.
      replace ((0 <=? i) && (i <? Z.of_nat (length buf))) with true; [done|].
      symmetry. apply andb_true_iff. split; [apply Z.leb_le|apply Z.ltb_lt]; lia.
    + intros q Hq. apply Hag.
      destruct (decide (q = Z.to_nat i)) as [->|Hne].
      { left. rewrite list_lookup_insert_eq by lia. done. }
      destruct Hq as [Hq|[x' Hx']].
      * left. by rewrite list_lookup_insert_ne.
      * apply elem_of_cons in Hx' as [Hx'|Hx']; [|right; by exists x'].
        inversion Hx'; subst. lia.
Qed.

Section gather.
Context (mat : list Z) (N m : nat).
Local Abbreviation blk_t :=
  (Build_blk_col_type (Z.of_nat N) (Z.of_nat m)).

Lemma unpack_block_column (k : nat) blk buf :
  length buf = length mat →
  block_column mat N m k blk →
  ∃ buf', unpack buf (Z.of_nat k * 1 * extent blk_t) 1 blk_t blk = Some buf' ∧
    length buf' = length mat ∧
    ∀ q : nat,
      (buf !! q = mat !! q ∨
       ∃ i j : nat, (i < N)%nat ∧ (j < m)%nat ∧
                    q = (i * N + (k * m + j))%nat) →
      buf' !! q = mat !! q.
Proof.
  intros Hlen [Hbl Hblk]. unfold unpack.
  rewrite typemap_contiguous_1, length_blk_col, Hbl, Nat.eqb_refl.
  rewrite extent_blk_col.
  destruct (store_all_agree mat
    (zip ((λ d, Z.of_nat k * 1 * Z.of_nat m + d) <$> typemap blk_t) blk)
    buf Hlen) as (buf' & Hs & Hl & Hag).
  { intros pos x Hin. apply list_elem_of_lookup_1 in Hin as [idx Hidx].
    apply lookup_zip_with_Some in Hidx as (d' & x' & Heq & Hd & Hx).
    inversion Heq; subst pos x'. clear Heq.
    rewrite list_lookup_fmap in Hd.
    destruct (typemap blk_t !! idx) as [d|] eqn:Ed; [|done].
    inversion Hd; subst d'. clear Hd.
    assert (Hlt : (idx < N * m)%nat).
    { rewrite <- Hbl. by eapply lookup_lt_Some. }
    destruct (index_split N m idx Hlt) as (i & j & Hi & Hj & ->).
    rewrite lookup_blk_col in Ed by done. inversion Ed; subst d.
    destruct (Hblk i j Hi Hj) as (y & Hy & Hm). rewrite Hy in Hx.
    inversion Hx; subst y. apply rd_Some. split; [lia|].
    replace (Z.to_nat (Z.of_nat k * 1 * Z.of_nat m + Z.of_nat (i * N + j)))
      with (i * N + (k * m + j))%nat by lia. done. }
  exists buf'. split; [done|]. split; [done|].
  intros q [Hq|(i & j & Hi & Hj & ->)]; apply Hag; [by left|right].
  destruct (Hblk i j Hi Hj) as (x & Hx & _). exists x.
  apply (list_elem_of_lookup_2 _ (i * m + j)%nat).
  apply lookup_zip_with_Some.
  exists (Z.of_nat k * 1 * Z.of_nat m + Z.of_nat (i * N + j)), x.
  split; [f_equal; lia|]. split; [|done].
  rewrite list_lookup_fmap, lookup_blk_col by done. done.
Qed.

Lemma gather_from_block_columns :
  ∀ blocks (k0 : nat) buf,
    length buf = length mat →
    (∀ (t : nat) blk, blocks !! t = Some blk →
                      block_column mat N m (k0 + t) blk) →
    ∃ buf', gather_from buf 1 blk_t (Z.of_nat k0) blocks = Some buf' ∧
      length buf' = length mat ∧
      ∀ q : nat,
        (buf !! q = mat !! q ∨
         ∃ t i j : nat, (t < length blocks)%nat ∧ (i < N)%nat ∧ (j < m)%nat ∧
                        q = (i * N + ((k0 + t) * m + j))%nat) →
        buf' !! q = mat !! q.
Proof.
  induction blocks as [|blk blocks IH]; intros k0 buf Hlen Hblocks.
  - exists buf. split; [done|]. split; [done|].
    intros q [Hq|(t & _ & _ & Ht & _)]; [done|simpl in Ht; lia].
  - destruct (unpack_block_column k0 blk buf Hlen) as (buf1 & Hu & Hl1 & Hag1).
    { specialize (Hblocks O blk eq_refl).
      by replace (k0 + 0)%nat with k0 in Hblocks by lia. }
    destruct (IH (S k0) buf1 Hl1) as (buf' & Hg & Hl & Hag).
    { intros t blk' Ht. specialize (Hblocks (S t) blk' Ht).
      by replace (k0 + S t)%nat with (S k0 + t)%nat in Hblocks by lia. }
    exists buf'. split; [|split; [done|]].
    + cbn [gather_from]. rewrite Hu. simpl.
      by replace (Z.of_nat k0 + 1) with (Z.of_nat (S k0)) by lia.
    + intros q Hq. apply Hag.
      destruct Hq as [Hq|(t & i & j & Ht & Hi & Hj & ->)].
      * left. apply Hag1. by left.
      * destruct t as [|t].
        -- left. apply Hag1. right. exists i, j.
           split; [done|]. split; [done|]. f_equal. lia.
        -- right. exists t, i, j. simpl in Ht.
           split; [lia|]. split; [done|]. split; [done|]. lia.
Qed.
End gather.

Lemma divides_blocks (p : nat) (n : Z) :
  (0 < p)%nat → 0 ≤ n → Z.rem n (Z.of_nat p) = 0 →
  ∃ N m : nat, n = Z.of_nat N ∧ Z.quot n (Z.of_nat p) = Z.of_nat m ∧
               N = (p * m)%nat.
Proof.
  intros Hp Hn Hrem.
  assert (Hq := Z.quot_rem' n (Z.of_nat p)). rewrite Hrem in Hq.
  assert (0 ≤ Z.quot n (Z.of_nat p)) by (apply Z.quot_pos; lia).
  exists (Z.to_nat n), (Z.to_nat (Z.quot n (Z.of_nat p))).
  split; [lia|]. split; [lia|]. nia.
Qed.

(** ** Initialisation *)

Lemma Dijkstra_init_body_inv blk (m : nat) i w w' :
  0 ≤ i →
  init_inv blk m i w →
  Dijkstra_init_body (Z.of_nat m) i w = Some w' →
  init_inv blk m (i + 1) w'.
Proof.
  intros Hi (Hmat & Ld & Lp & Lk & Hent) Hb. unfold Dijkstra_init_body in Hb.
  apply bind_Some in Hb as (off & Hoff & Hb).
  apply bind_Some in Hb as (idx & Hidx & Hb).
  apply bind_Some in Hb as (x & Hx & Hb).
  apply bind_Some in Hb as (d & Hd & Hb).
  apply bind_Some in Hb as (q & Hq & Hb).
  apply bind_Some in Hb as (k & Hk & Hb). inversion Hb; subst w'; clear Hb.
  apply int_mul_Some in Hoff as [-> _]. apply int_add_Some in Hidx as ->.
  apply rd_Some in Hx as [_ Hx]. rewrite Hmat in Hx.
  replace (Z.to_nat (0 * Z.of_nat m + i)) with (Z.to_nat i) in Hx by lia.
  apply wr_Some in Hd as [Hdr ->]. apply wr_Some in Hq as [Hqr ->].
  apply wr_Some in Hk as [Hkr ->].
  unfold init_inv. simpl. rewrite !length_insert.
  repeat (split; [done|]). intros j Hj.
  destruct (decide (j = Z.to_nat i)) as [->|Hne].
  - rewrite !list_lookup_insert_eq by lia. rewrite Hx. by split.
  - rewrite !list_lookup_insert_ne by done. apply Hent. lia.
Qed.

(** The arrays of a process when the main loop starts. *)
Lemma Dijkstra_init_Some (m : nat) my_rank blk w :
  Dijkstra_init (Z.of_nat m) my_rank blk = Some w →
  loc_mat w = blk ∧ length (loc_dist w) = m ∧ length (loc_pred w) = m ∧
  length (known w) = m ∧
  ∀ j : nat, (j < m)%nat →
    is_Some (blk !! j) ∧ loc_dist w !! j = blk !! j ∧
    loc_pred w !! j = Some 0 ∧
    known w !! j = Some (if (my_rank =? 0) && (Z.of_nat j =? 0) then 1 else 0).
Proof.
  unfold Dijkstra_init. intros H. apply bind_Some in H as (w0 & Hloop & H).
  assert (Hinv : init_inv blk m (Z.of_nat m) w0).
  { eapply (for_range_inv _ (init_inv blk m)); [lia| | |exact Hloop].
    - unfold init_inv. simpl. rewrite !length_malloc, !Nat2Z.id.
      repeat (split; [done|]). intros j Hj. lia.
    - intros i t t' Hi. apply Dijkstra_init_body_inv. lia. }
  destruct Hinv as (Hmat & Ld & Lp & Lk & Hent).
  destruct (my_rank =? 0) eqn:Er.
  - apply bind_Some in H as (k & Hk & H). inversion H; subst; clear H.
    apply wr_Some in Hk as [Hkr ->]. simpl. rewrite length_insert.
    repeat (split; [done|]). intros j Hj.
    destruct (Hent j ltac:(lia)) as (? & ? & ? & Hk0).
    repeat (split; [done|]). destruct j as [|j].
    + rewrite list_lookup_insert_eq by lia. done.
    + rewrite list_lookup_insert_ne by done. done.
  - inversion H; subst; clear H. repeat (split; [done|]).
    intros j Hj. destruct (Hent j ltac:(lia)) as (? & ? & ? & ?). done.
Qed.

(** A vector gathered from pieces of [m] entries is known once each of
    its pieces is. *)
Lemma gathered_eq (f : proc → list Z) (N m : nat) ws (l : list Z) :
  (∀ (k : nat) w, ws !! k = Some w → length (f w) = m) →
  N = (length ws * m)%nat → length l = N →
  (∀ (k j : nat) w, ws !! k = Some w → (j < m)%nat →
     f w !! j = l !! (k * m + j)%nat) →
  mjoin (f <$> ws) = l.
Proof.
  intros Hlen HN Hl Hpt. apply list_eq. intros g.
  destruct (decide (g < N)%nat) as [Hg|Hg].
  - destruct (index_split (length ws) m g) as (k & j & Hk & Hj & ->); [lia|].
    destruct (lookup_lt_is_Some_2 ws k Hk) as [w Hw].
    rewrite (lookup_pieces f m ws Hlen k j w Hw Hj). by eapply Hpt.
  - rewrite !lookup_ge_None_2; [done|lia|].
    rewrite (length_pieces f m ws Hlen). lia.
Qed.

(** When the main loop starts the group is well formed and holds the
    initial state of the reference. *)
Lemma Dijkstra_init_simulates mat (N m : nat) mats ws :
  (0 < m)%nat → N = (length mats * m)%nat → length mat = (N * N)%nat →
  (∀ (k : nat) blk, mats !! k = Some blk → block_column mat N m k blk) →
  spmd (Dijkstra_init (Z.of_nat m)) mats = Some ws →
  wf_procs mat N m ws ∧ gathered ws = seq_init mat N.
Proof.
  intros Hm HN Hmat Hblk Hinit.
  assert (Hl := spmd_length _ _ _ Hinit).
  assert (Hw : ∀ (k : nat) w, ws !! k = Some w →
            ∃ blk, mats !! k = Some blk ∧
                   Dijkstra_init (Z.of_nat m) (Z.of_nat k) blk = Some w).
  { intros k w Hk. destruct (lookup_lt_is_Some_2 mats k) as [blk Hb].
    { rewrite <- Hl. by eapply lookup_lt_Some. }
    destruct (spmd_lookup _ _ _ Hinit k blk Hb) as (w' & Hk' & Hi).
    exists blk. split; [done|]. congruence. }
  assert (HNpos : ws ≠ [] → (0 < N)%nat).
  { intros Hne. destruct ws; [done|]. simpl in Hl. lia. }
  assert (Hwf : wf_procs mat N m ws).
  { split; [by rewrite Hl|]. split; [done|]. intros k w Hk.
    destruct (Hw k w Hk) as (blk & Hb & Hi).
    apply Dijkstra_init_Some in Hi as (Em & Ld & Lp & Lk & _).
    destruct (Hblk k blk Hb) as [Hbl Hcol].
    unfold wf_proc. rewrite Em.
    repeat (split; [done|]). intros i j Hi Hj.
    destruct (Hcol i j Hi Hj) as (x & -> & ->). done. }
  split; [done|]. unfold gathered, seq_init. f_equal.
  - apply (gathered_eq loc_dist N m); [|by rewrite Hl| |].
    + intros k w Hk. by destruct (Hwf) as (_ & _ & Hp);
        destruct (Hp k w Hk) as (? & _).
    + rewrite length_take. destruct ws as [|w0 ws0].
      * simpl in Hl. lia.
      * specialize (HNpos ltac:(done)). nia.
    + intros k j w Hk Hj. destruct (Hw k w Hk) as (blk & Hb & Hi).
      apply Dijkstra_init_Some in Hi as (_ & _ & _ & _ & Hent).
      destruct (Hent j Hj) as (_ & -> & _).
      destruct (Hblk k blk Hb) as [_ Hcol].
      assert (HkN : (k * m + j < N)%nat).
      { apply lookup_lt_Some in Hk. nia. }
      destruct (Hcol O j ltac:(lia) Hj) as (x & Hx & Hm').
      simpl in Hx, Hm'. rewrite Hx, lookup_take_lt by done. done.
  - apply (gathered_eq loc_pred N m); [|by rewrite Hl| |].
    + intros k w Hk. by destruct (Hwf) as (_ & _ & Hp);
        destruct (Hp k w Hk) as (? & ? & _).
    + by rewrite length_replicate.
    + intros k j w Hk Hj. destruct (Hw k w Hk) as (blk & Hb & Hi).
      apply Dijkstra_init_Some in Hi as (_ & _ & _ & _ & Hent).
      destruct (Hent j Hj) as (_ & _ & -> & _).
      rewrite lookup_replicate_2; [done|]. apply lookup_lt_Some in Hk. nia.
  - apply (gathered_eq known N m); [|by rewrite Hl| |].
    + intros k w Hk. by destruct (Hwf) as (_ & _ & Hp);
        destruct (Hp k w Hk) as (? & ? & ? & _).
    + by rewrite length_insert, length_replicate.
    + intros k j w Hk Hj. destruct (Hw k w Hk) as (blk & Hb & Hi).
      apply Dijkstra_init_Some in Hi as (_ & _ & _ & _ & Hent).
      destruct (Hent j Hj) as (_ & _ & _ & ->).
      assert (HkN : (k * m + j < N)%nat).
      { apply lookup_lt_Some in Hk. nia. }
      destruct (decide (k * m + j = 0)%nat) as [E0|E0].
      * rewrite E0, list_lookup_insert_eq by (rewrite length_replicate; lia).
        assert (k = O ∧ j = O) as [-> ->] by nia. done.
      * rewrite list_lookup_insert_ne by done.
        rewrite lookup_replicate_2 by done.
        destruct (Z.of_nat k =? 0) eqn:Ek; [|done].
        destruct (Z.of_nat j =? 0) eqn:Ej; [|done].
        apply Z.eqb_eq in Ek, Ej. lia.
Qed.

(** ** The whole run against the reference *)

Lemma Dijkstra_rounds_simulate mat (N m : nat) :
  (0 < m)%nat → Z.of_nat N ≤ INFINITY →
  ∀ (k : nat) ws ws',
    wf_procs mat N m ws →
    Dijkstra_rounds (Z.of_nat m) k ws = Some ws' →
    wf_procs mat N m ws' ∧
    gathered ws' = Nat.iter k (seq_round mat N) (gathered ws).
Proof.
  intros Hm HN. induction k as [|k IH]; intros ws ws' Hwf Hrun.
  - inversion Hrun; subst. done.
  - cbn [Dijkstra_rounds] in Hrun. apply bind_Some in Hrun as (ws1 & H1 & Hrun).
    destruct (Dijkstra_round_simulates mat N m ws Hwf Hm HN ws1 H1)
      as [Hwf1 Hg1].
    destruct (IH ws1 ws' Hwf1 Hrun) as [Hwf' Hg'].
    split; [done|]. rewrite Hg', Hg1. symmetry. apply Nat.iter_succ_r.
Qed.

Lemma Dijkstra_init_rank0_pos loc_n blk w :
  Dijkstra_init loc_n 0 blk = Some w → 0 < loc_n.
Proof.
  unfold Dijkstra_init. intros H. apply bind_Some in H as (w0 & Hloop & H).
  destruct (Z.le_gt_cases loc_n 0) as [Hn|Hn]; [|lia].
  rewrite for_range_empty in Hloop by done. inversion Hloop; subst w0.
  simpl in H. apply bind_Some in H as (k & Hk & _).
  apply wr_Some in Hk as [Hk _]. rewrite length_malloc in Hk. lia.
Qed.

Lemma main_compute_upto (p : nat) (n : Z) input :
  main_compute p n input = main_upto (Z.to_nat (n - 1)) p n input.
Proof. reflexivity. Qed.

(** What a run that reached a round boundary went through: the matrix was
    read and scattered by block columns, and the group started from the
    initial state of the reference. *)
Lemma main_upto_Some (rounds p : nat) (n : Z) input ws :
  main_upto rounds p n input = Some ws →
  Z.rem n (Z.of_nat p) = 0 →
  ∃ (N m : nat) ws0,
    n = Z.of_nat N ∧ Z.quot n (Z.of_nat p) = Z.of_nat m ∧
    (0 < p)%nat ∧ (0 < m)%nat ∧ N = (p * m)%nat ∧ Z.of_nat N ≤ INFINITY ∧
    (N * N ≤ length input)%nat ∧
    wf_procs (take (N * N) input) N m ws0 ∧ length ws0 = p ∧
    gathered ws0 = seq_init (take (N * N) input) N ∧
    Dijkstra_rounds (Z.of_nat m) rounds ws0 = Some ws.
Proof.
  unfold main_upto. intros H Hrem.
  apply bind_Some in H as (loc_n & Hdiv & H).
  apply bind_Some in H as (sz & _ & H).
  apply bind_Some in H as (mats & Hread & H).
  apply int_div_Some in Hdiv as [Hp ->].
  unfold Read_matrix in Hread.
  apply bind_Some in Hread as (nn & Hnn & Hread).
  apply bind_Some in Hread as (mat & Hmat & Hread).
  apply bind_Some in Hread as (cnt & _ & Hsc).
  apply int_mul_Some in Hnn as [-> Hnn].
  destruct (n * n <=? Z.of_nat (length input)) eqn:Ein; [|done].
  apply Z.leb_le in Ein. inversion Hmat; subst mat; clear Hmat.
  apply bind_Some in H as (ws0 & Hinit & Hrun).
  assert (Hlm : length mats = p).
  { unfold MPI_Scatter in Hsc. apply spmd_length in Hsc.
    by rewrite length_replicate in Hsc. }
  assert (Hpos : 0 < Z.quot n (Z.of_nat p)).
  { destruct mats as [|blk mats]; [simpl in Hlm; lia|].
    destruct (spmd_lookup _ _ _ Hinit O blk eq_refl) as (w & _ & Hw).
    by apply Dijkstra_init_rank0_pos in Hw. }
  assert (Hq := Z.quot_rem' n (Z.of_nat p)). rewrite Hrem in Hq.
  assert (Hn : 0 ≤ n) by nia.
  destruct (divides_blocks p n ltac:(lia) Hn Hrem) as (N & m & -> & Em & HN).
  rewrite Em in *.
  replace (Z.to_nat (Z.of_nat N * Z.of_nat N)) with (N * N)%nat in Hsc by lia.
  destruct (MPI_Scatter_blk_col_Some N m p _ _ mats Hsc) as [_ Hblk].
  assert (Hlt : length (take (N * N) input) = (N * N)%nat).
  { rewrite length_take. lia. }
  destruct (Dijkstra_init_simulates (take (N * N) input) N m mats ws0
              ltac:(lia) ltac:(by rewrite Hlm) Hlt Hblk Hinit) as [Hwf Hg].
  exists N, m, ws0. split; [done|]. split; [done|]. split; [lia|].
  split; [lia|].
  split; [done|]. split; [unfold INT_MAX, INFINITY in *; nia|].
  split; [lia|]. split; [done|]. split; [|done].
  apply spmd_length in Hinit. lia.
Qed.

(** At a round boundary of a run the group is well formed and holds, in
    pieces, the state of the reference after as many rounds. *)
Lemma main_upto_is_seq_rounds (rounds p : nat) (n : Z) input ws :
  main_upto rounds p n input = Some ws →
  Z.rem n (Z.of_nat p) = 0 →
  ∃ N m : nat,
    n = Z.of_nat N ∧ Z.quot n (Z.of_nat p) = Z.of_nat m ∧
    (0 < p)%nat ∧ (0 < m)%nat ∧ N = (p * m)%nat ∧ Z.of_nat N ≤ INFINITY ∧
    (N * N ≤ length input)%nat ∧
    wf_procs (take (N * N) input) N m ws ∧
    gathered ws = seq_rounds (take (N * N) input) N rounds.
Proof.
  intros H Hrem.
  destruct (main_upto_Some rounds p n input ws H Hrem)
    as (N & m & ws0 & -> & Em & Hp & Hm & HNp & HN & Hin & Hwf & _ & Hg0
        & Hrun).
  destruct (Dijkstra_rounds_simulate _ N m Hm HN _ _ _ Hwf Hrun) as [Hwf' Hg].
  exists N, m. repeat (split; [done|]). by rewrite Hg, Hg0.
Qed.

(** A run that does not fail computes, in pieces, what the sequential
    reference computes on the same matrix. *)
Lemma main_compute_is_seq_Dijkstra (p : nat) (n : Z) input ws :
  main_compute p n input = Some ws →
  Z.rem n (Z.of_nat p) = 0 →
  gathered ws = seq_Dijkstra (take (Z.to_nat (n * n)) input) (Z.to_nat n).
Proof.
  intros H Hrem. rewrite main_compute_upto in H.
  destruct (main_upto_is_seq_rounds _ p n input ws H Hrem)
    as (N & m & -> & _ & _ & _ & _ & _ & _ & _ & Hg).
  rewrite Hg. unfold seq_Dijkstra.
  replace (Z.to_nat (Z.of_nat N * Z.of_nat N)) with (N * N)%nat by lia.
  rewrite Nat2Z.id. f_equal. lia.
Qed.


(** ** Invariants of the reference *)

Lemma unknown_count_insert (l : list Z) (i : nat) :
  l !! i = Some 0 →
  (unknown_count (<[i := 1%Z]> l) + 1 = unknown_count l)%nat.
Proof.
  unfold unknown_count. revert i. induction l as [|x l IH]; intros i Hi.
  - done.
  - destruct i as [|i]; simpl in Hi.
    + inversion Hi; subst x.
      change (<[0%nat := 1]> (0 :: l)) with (1 :: l).
      rewrite filter_cons_False by done. rewrite filter_cons_True by done.
      simpl. lia.
    + change (<[S i := 1]> (x :: l)) with (x :: <[i := 1]> l).
      specialize (IH i Hi).
      destruct (decide (x = 0)) as [E|E].
      * rewrite !filter_cons_True by done. simpl. lia.
      * rewrite !filter_cons_False by done. done.
Qed.

Lemma unknown_count_0 (l : list Z) :
  (∀ v : nat, l !! v ≠ Some 0) → unknown_count l = O.
Proof.
  intros H. unfold unknown_count.
  destruct (filter (λ k, k = 0) l) as [|x f] eqn:E; [done|].
  assert (Hx : x ∈ filter (λ k, k = 0) l) by (rewrite E; apply elem_of_cons; by left).
  apply list_elem_of_filter in Hx as [-> Hx].
  apply list_elem_of_lookup_1 in Hx as [v Hv]. by destruct (H v).
Qed.

Lemma unknown_count_0_inv (l : list Z) (v : nat) k :
  unknown_count l = O → l !! v = Some k → k ≠ 0.
Proof.
  unfold unknown_count. intros H Hv ->.
  assert (Hx : 0 ∈ filter (λ k, k = 0) l).
  { apply list_elem_of_filter. split; [done|]. by eapply list_elem_of_lookup_2. }
  destruct (filter (λ k, k = 0) l); [by apply elem_of_nil in Hx|done].
Qed.

Lemma known_path_mono pred known pred' known' s v :
  known_path pred known s v →
  (∀ x : nat, is_known known x →
     is_known known' x ∧ pred' !! x = pred !! x) →
  known_path pred' known' s v.
Proof.
  intros Hp Hmono. induction Hp as [H0|v u s Hv Hk Hpv Hp IH].
  - constructor. by apply Hmono.
  - destruct (Hmono v Hk) as [Hk' Hp']. econstructor; try done.
    by rewrite Hp'.
Qed.

Lemma seq_init_inv mat (N : nat) :
  length mat = (N * N)%nat → seq_inv mat N 0 (seq_init mat N).
Proof.
  intros Hmat.
  assert (H0 : (0 < N)%nat → is_known (<[0%nat := 1]> (replicate N 0)) 0).
  { intros HN. exists 1. split; [|done].
    rewrite list_lookup_insert_eq; [done|]. by rewrite length_replicate. }
  split; simpl.
  - rewrite length_take. nia.
  - by rewrite length_replicate.
  - by rewrite length_insert, length_replicate.
  - done.
  - intros v Hv. exists O. split; [by rewrite lookup_replicate_2|].
    split; [lia|]. apply H0. lia.
  - intros v Hv (k & Hk & Hnz). exists O. split; [done|].
    destruct v as [|v].
    + constructor. apply H0. lia.
    + rewrite list_lookup_insert_ne in Hk by done.
      apply lookup_replicate in Hk as [-> _]. done.
  - intros v Hv. exists O. split; [by rewrite lookup_replicate_2 by lia|].
    rewrite lookup_take_lt by lia. unfold source_dist, weight. simpl.
    destruct (lookup_lt_is_Some_2 mat v ltac:(nia)) as [x Hx].
    rewrite (list_lookup_total_correct _ _ _ Hx), Hx. f_equal; lia.
  - unfold unknown_count. destruct N as [|N]; [done|]. simpl.
    rewrite filter_cons_False by done.
    assert (H := length_filter (λ k, k = 0) (replicate N 0)).
    rewrite length_replicate in H. lia.
  - intros HN. by apply lookup_replicate_2.
Qed.

Lemma lookup_total_eq (l l' : list Z) (i : nat) :
  l' !! i = l !! i → l' !!! i = l !!! i.
Proof. intros H. by rewrite !list_lookup_total_alt, H. Qed.

Lemma lookup_imap_Some {A B : Type} (f : nat → A → B) (l : list A) i x :
  l !! i = Some x → imap f l !! i = Some (f i x).
Proof. intros H. by rewrite list_lookup_imap, H. Qed.

Lemma seq_round_inv mat (N k : nat) st :
  seq_inv mat N k st → seq_inv mat N (S k) (seq_round mat N st).
Proof.
  intros [Ld Lp Lk H0 Hpred Hpath Hcost Hcount Hsrc].
  assert (Hspec := seq_find_min_spec (sdist st) (sknown st) N
            ltac:(by rewrite Ld, Lk)).
  unfold seq_round.
  destruct (seq_find_min (sdist st) (sknown st) N) as [[du u]|].
  2:{ split; try done.
      - intros v Hv Hkv. destruct (Hpath v Hv Hkv) as (s & Hs & Hp).
        exists s. split; [lia|done].
      - rewrite unknown_count_0; [lia|]. intros v Hv.
        destruct (decide (v < N)%nat) as [Hlt|Hge]; [by apply (Hspec v)|].
        apply lookup_lt_Some in Hv. lia. }
  destruct Hspec as (Hu & Hku & Hdu & _). cbv zeta.
  set (known' := <[u := 1]> (sknown st)).
  set (shorter := seq_shorter mat N known' (sdist st) du u).
  set (dist' := imap (λ v d, if shorter v then du + weight mat N u v else d)
                  (sdist st)).
  set (pred' := imap (λ v q, if shorter v then Z.of_nat u else q) (spred st)).
  assert (K1 : ∀ x : nat, is_known (sknown st) x → is_known known' x).
  { intros x (kx & Hkx & Hnz). exists kx. split; [|done]. subst known'.
    rewrite list_lookup_insert_ne; [done|]. intros ->. congruence. }
  assert (K2 : is_known known' u).
  { exists 1. split; [|done]. subst known'.
    rewrite list_lookup_insert_eq; [done|]. lia. }
  assert (K3 : ∀ x : nat, is_known known' x → x = u ∨ is_known (sknown st) x).
  { intros x (kx & Hkx & Hnz). destruct (decide (x = u)) as [->|Hne]; [by left|].
    right. exists kx. subst known'.
    by rewrite list_lookup_insert_ne in Hkx by done. }
  assert (S1 : ∀ x : nat, is_known known' x → shorter x = false).
  { intros x (kx & Hkx & Hnz). subst shorter. unfold seq_shorter.
    rewrite (list_lookup_total_correct _ _ _ Hkx).
    apply Z.eqb_neq in Hnz. by rewrite Hnz. }
  assert (Hu0 : u ≠ O).
  { intros ->. destruct (H0 ltac:(lia)) as (k0 & Hk0 & Hnz). congruence. }
  assert (D0 : ∀ (x : nat) d, sdist st !! x = Some d →
            dist' !! x = Some (if shorter x then du + weight mat N u x else d)).
  { intros x d Hx. subst dist'. by rewrite (lookup_imap_Some _ _ _ _ Hx). }
  assert (P0 : ∀ (x : nat) q, spred st !! x = Some q →
            pred' !! x = Some (if shorter x then Z.of_nat u else q)).
  { intros x q Hx. subst pred'. by rewrite (lookup_imap_Some _ _ _ _ Hx). }
  assert (D1 : ∀ x : nat, shorter x = false →
            dist' !! x = sdist st !! x ∧ pred' !! x = spred st !! x).
  { intros x Hx. split.
    - destruct (sdist st !! x) as [d|] eqn:E.
      + by rewrite (D0 x d E), Hx.
      + subst dist'. by rewrite list_lookup_imap, E.
    - destruct (spred st !! x) as [q|] eqn:E.
      + by rewrite (P0 x q E), Hx.
      + subst pred'. by rewrite list_lookup_imap, E. }
  assert (Hdu' : dist' !!! u = du).
  { destruct (D1 u (S1 u K2)) as [E _].
    rewrite (lookup_total_eq _ _ _ E).
    by apply list_lookup_total_correct. }
  assert (Ld' : length dist' = N) by (subst dist'; by rewrite length_imap).
  assert (Lp' : length pred' = N) by (subst pred'; by rewrite length_imap).
  clearbody dist' pred' shorter.
  split; cbn [sdist spred sknown].
  - done.
  - done.
  - subst known'. by rewrite length_insert.
  - intros HN. by apply K1, H0.
  - intros v Hv. destruct (Hpred v Hv) as (u0 & Hp0 & Hu0N & Hk0).
    rewrite (P0 v _ Hp0). destruct (shorter v) eqn:Es.
    + exists u. by split.
    + exists u0. split; [done|]. split; [done|]. by apply K1.
  - intros v Hv Hkv.
    assert (Hmono : ∀ x : nat, is_known (sknown st) x →
              is_known known' x ∧ pred' !! x = spred st !! x).
    { intros x Hx. split; [by apply K1|]. apply D1, S1, K1, Hx. }
    destruct (K3 v Hkv) as [->|Hold].
    + destruct (Hpred u Hu) as (u0 & Hp0 & Hu0N & Hk0).
      destruct (Hpath u0 Hu0N Hk0) as (s & Hs & Hp).
      exists (S s). split; [lia|].
      apply known_path_step with u0; try done.
      * destruct (D1 u (S1 u K2)) as [_ ->]. done.
      * by eapply known_path_mono.
    + destruct (Hpath v Hv Hold) as (s & Hs & Hp).
      exists s. split; [lia|]. by eapply known_path_mono.
  - intros v Hv. destruct (Hcost v Hv) as (u0 & Hp0 & Hd0).
    rewrite (P0 v _ Hp0), (D0 v _ Hd0). destruct (shorter v) eqn:Es.
    + exists u. split; [done|]. unfold source_dist at 1.
      destruct (decide (u = O)); [done|]. by rewrite Hdu'.
    + exists u0. split; [done|]. do 2 f_equal. unfold source_dist.
      destruct (decide (u0 = O)); [done|].
      destruct (Hpred v ltac:(lia)) as (u1 & Hp1 & _ & Hk1).
      rewrite Hp0 in Hp1. inversion Hp1 as [E]. apply Nat2Z.inj in E.
      subst u1. symmetry. apply lookup_total_eq. apply D1, S1, K1, Hk1.
  - assert (Hc := unknown_count_insert (sknown st) u Hku).
    fold known' in Hc. lia.
  - intros HN. destruct (D1 O (S1 O (K1 O (H0 HN)))) as [_ ->]. by apply Hsrc.
Qed.

Lemma seq_rounds_inv mat (N k : nat) :
  length mat = (N * N)%nat → seq_inv mat N k (seq_rounds mat N k).
Proof.
  intros Hmat. unfold seq_rounds. induction k as [|k IH].
  - by apply seq_init_inv.
  - simpl. by apply seq_round_inv.
Qed.

(** ** Monotonicity of a round *)

Lemma Dijkstra_update_monotone loc_n my_rank r w w' :
  Dijkstra_update loc_n my_rank r w = Some w' →
  (∀ (j : nat) d, loc_dist w !! j = Some d →
     ∃ d', loc_dist w' !! j = Some d' ∧ (d' = d ∨ d' < d)) ∧
  (∀ (j : nat) x, known w !! j = Some x → x ≠ 0 →
     ∃ x', known w' !! j = Some x' ∧ x' ≠ 0).
Proof.
  destruct r as [md u]. intros H.
  apply Dijkstra_update_spec in H as (_ & w1 & Hw1 & Hinv).
  destruct Hinv as (_ & Hkn & _ & _ & Hent).
  assert (Hd1 : loc_dist w1 = loc_dist w).
  { destruct (Z.quot u loc_n =? my_rank); [by destruct Hw1 as [_ ->]|by subst]. }
  split.
  - intros j d Hd. rewrite <- Hd1 in Hd.
    destruct (Hent j) as [Hlt Hge].
    destruct (decide (Z.of_nat j < loc_n)) as [Hj|Hj].
    + destruct (Hlt Hj) as (kk & Hkk & Hrel). destruct (kk =? 0).
      * destruct Hrel as (x & dv & _ & Hdv & Hrel).
        rewrite Hd in Hdv. inversion Hdv; subst dv.
        destruct (md + x <? d) eqn:E.
        -- apply Z.ltb_lt in E. exists (md + x). split; [by destruct Hrel|].
           by right.
        -- exists d. split; [by destruct Hrel|]. by left.
      * exists d. destruct Hrel as [-> _]. split; [done|]. by left.
    + destruct (Hge ltac:(lia)) as [-> _]. exists d. split; [done|]. by left.
  - intros j x Hx Hnz. rewrite Hkn.
    destruct (Z.quot u loc_n =? my_rank); [|subst w1; by exists x].
    destruct Hw1 as [Hr ->]. simpl.
    destruct (decide (j = Z.to_nat (Z.rem u loc_n))) as [->|Hne].
    + exists 1. split; [|done]. apply list_lookup_insert_eq. lia.
    + exists x. split; [|done]. by rewrite list_lookup_insert_ne.
Qed.

Lemma Dijkstra_round_monotone loc_n ws ws' (k : nat) w :
  Dijkstra_round loc_n ws = Some ws' → ws !! k = Some w →
  ∃ w', ws' !! k = Some w' ∧
    (∀ (j : nat) d, loc_dist w !! j = Some d →
       ∃ d', loc_dist w' !! j = Some d' ∧ (d' = d ∨ d' < d)) ∧
    (∀ (j : nat) x, known w !! j = Some x → x ≠ 0 →
       ∃ x', known w' !! j = Some x' ∧ x' ≠ 0).
Proof.
  intros H Hk. apply Dijkstra_round_Some in H as (mins & r & _ & _ & Hu).
  destruct (spmd_lookup _ _ _ Hu k w Hk) as (w' & Hk' & Hup).
  exists w'. split; [done|]. by eapply Dijkstra_update_monotone.
Qed.

(** C9. Over a round, every entry of every process's distance array is
    either left as it was or replaced by a strictly smaller value. *)
Theorem C9_dist_never_increases loc_n ws ws' (k j : nat) w d :
  Dijkstra_round loc_n ws = Some ws' →
  ws !! k = Some w → loc_dist w !! j = Some d →
  ∃ w' d', ws' !! k = Some w' ∧ loc_dist w' !! j = Some d' ∧
           (d' = d ∨ d' < d).
Proof.
  intros H Hk Hd.
  destruct (Dijkstra_round_monotone loc_n ws ws' k w H Hk)
    as (w' & Hk' & Hdist & _).
  destruct (Hdist j d Hd) as (d' & Hd' & Hle). by exists w', d'.
Qed.

Lemma C9_dist_never_increases_witness :
  ∃ w' d',
    [Proc [0; 7; 2; 3; 4; 0; 5; 6; 7; 1; 0; 9; 8; 2; 1; 0]
          [0; 3; 2; 3] [0; 2; 0; 0] [1; 0; 1; 0]] !! O = Some w' ∧
    loc_dist w' !! 1%nat = Some d' ∧ (d' = 7 ∨ d' < 7).
Proof.
  refine (C9_dist_never_increases 4
    [Proc [0; 7; 2; 3; 4; 0; 5; 6; 7; 1; 0; 9; 8; 2; 1; 0]
          [0; 7; 2; 3] [0; 0; 0; 0] [1; 0; 0; 0]]
    _ O 1%nat _ 7 _ _ _); reflexivity.
Defined.

(** ** The known set *)

(** C10, amended. Over every round, from any state, an entry of a
    process's [known] array that is set stays set; and in a run that
    completes on [p] processes with [p] dividing [n], after the [n - 1]
    rounds every vertex [v] is marked in the [known] array of its owner,
    process [v / loc_n]. *)
Theorem C10_known_grows_and_covers (p : nat) (n : Z) input wsf :
  (∀ loc_n ws ws' (k j : nat) w x,
     Dijkstra_round loc_n ws = Some ws' →
     ws !! k = Some w → known w !! j = Some x → x ≠ 0 →
     ∃ w' x', ws' !! k = Some w' ∧ known w' !! j = Some x' ∧ x' ≠ 0) ∧
  (main_compute p n input = Some wsf →
   Z.rem n (Z.of_nat p) = 0 →
   ∀ v, 0 ≤ v < n →
     ∃ w x,
       wsf !! Z.to_nat (Z.quot v (Z.quot n (Z.of_nat p))) = Some w ∧
       rd (known w) (Z.rem v (Z.quot n (Z.of_nat p))) = Some x ∧ x ≠ 0).
Proof.
  split.
  - intros loc_n ws ws' k j w x Hround Hk Hx Hnz.
    destruct (Dijkstra_round_monotone loc_n ws ws' k w Hround Hk)
      as (w' & Hk' & _ & Hkn).
    destruct (Hkn j x Hx Hnz) as (x' & Hx' & Hnz'). by exists w', x'.
  - intros Hrun Hrem. rewrite main_compute_upto in Hrun.
    destruct (main_upto_is_seq_rounds _ p n input wsf Hrun Hrem)
      as (N & m & -> & Em & Hp & Hm & HNp & HN & Hin & Hwf & Hg).
    rewrite Em. intros v Hv.
    assert (Hinv := seq_rounds_inv (take (N * N) input) N
              (Z.to_nat (Z.of_nat N - 1))
              ltac:(rewrite length_take; lia)).
    rewrite <- Hg in Hinv. destruct Hinv as [_ _ _ _ _ _ _ Hcount _].
    simpl in Hcount.
    assert (Hc0 : unknown_count (gathered_known wsf) = O) by lia.
    destruct (wf_vertex _ N m wsf Hwf (Z.to_nat v) ltac:(lia))
      as (k & j & w & Hk & Hj & Hvkj).
    assert (Ev : v = Z.of_nat j + Z.of_nat k * Z.of_nat m) by lia.
    destruct (quot_rem_index k j m Hj) as [Eq Er].
    rewrite Ev, Eq, Er, Nat2Z.id.
    destruct (lookup_lt_is_Some_2 (known w) j) as [x Hx].
    { destruct Hwf as (_ & _ & Hw). destruct (Hw k w Hk) as (_ & _ & -> & _).
      done. }
    exists w, x. split; [done|]. split; [by rewrite rd_nat|].
    apply (unknown_count_0_inv (gathered_known wsf) (k * m + j)); [done|].
    unfold gathered_known. rewrite (lookup_pieces known m wsf) with (w := w);
      try done.
    intros k' w' Hk'. destruct Hwf as (_ & _ & Hw).
    by destruct (Hw k' w' Hk') as (_ & _ & ? & _).
Qed.

Lemma C10_known_grows_and_covers_witness :
  (∃ w' x',
     [Proc [0; 4; 1; 0; 7; 2; 8; 7] [0; 4] [0; 0] [1; 1];
      Proc [9; 9; 2; 6; 0; 1; 6; 0] [6; 7] [1; 2] [1; 0]] !! 0%nat
       = Some w' ∧
     known w' !! 1%nat = Some x' ∧ x' ≠ 0) ∧
  (∃ w x,
     [Proc [0; 4; 1; 0; 7; 2; 8; 7] [0; 4] [0; 0] [1; 1];
      Proc [9; 9; 2; 6; 0; 1; 6; 0] [6; 7] [1; 2] [1; 1]]
       !! Z.to_nat (Z.quot 3 (Z.quot 4 (Z.of_nat 2))) = Some w ∧
     rd (known w) (Z.rem 3 (Z.quot 4 (Z.of_nat 2))) = Some x ∧ x ≠ 0).
Proof.
  destruct (C10_known_grows_and_covers 2 4
              [0; 4; 9; 9; 1; 0; 2; 6; 7; 2; 0; 1; 8; 7; 6; 0]
              [Proc [0; 4; 1; 0; 7; 2; 8; 7] [0; 4] [0; 0] [1; 1];
               Proc [9; 9; 2; 6; 0; 1; 6; 0] [6; 7] [1; 2] [1; 1]])
    as [Hkeep Hcover].
  split.
  - apply (Hkeep 2
             [Proc [0; 4; 1; 0; 7; 2; 8; 7] [0; 4] [0; 0] [1; 1];
              Proc [9; 9; 2; 6; 0; 1; 6; 0] [6; 9] [1; 0] [0; 0]]
             [Proc [0; 4; 1; 0; 7; 2; 8; 7] [0; 4] [0; 0] [1; 1];
              Proc [9; 9; 2; 6; 0; 1; 6; 0] [6; 7] [1; 2] [1; 0]]
             O 1%nat (Proc [0; 4; 1; 0; 7; 2; 8; 7] [0; 4] [0; 0] [1; 1]) 1).
    + vm_compute. reflexivity.
    + reflexivity.
    + reflexivity.
    + lia.
  - apply Hcover.
    + vm_compute. reflexivity.
    + reflexivity.
    + lia.
Defined.

(** On two processes and three vertices the run completes (see C2), and
    vertex 2 belongs to no process: the [known] arrays hold vertices 0 and
    1 only, and no entry stands for vertex 2. *)
Lemma C10_counterexample :
  Z.rem 3 (Z.of_nat 2) ≠ 0 ∧
  ∃ wsf,
    main_compute 2 3 [0; 1; 2; 3; 0; 4; 5; 6; 0] = Some wsf ∧
    gathered_known wsf = [1; 1] ∧
    (∀ (k j : nat) w x,
       wsf !! k = Some w → known w !! j = Some x →
       Z.of_nat j + Z.of_nat k * Z.quot 3 (Z.of_nat 2) < 2) ∧
    ¬ ∃ w x,
        wsf !! Z.to_nat (Z.quot 2 (Z.quot 3 (Z.of_nat 2))) = Some w ∧
        rd (known w) (Z.rem 2 (Z.quot 3 (Z.of_nat 2))) = Some x ∧ x ≠ 0.
Proof.
  split; [by vm_compute|].
  exists [Proc [0; 3; 5] [0] [0] [1]; Proc [1; 0; 6] [1] [0] [1]].
  split; [reflexivity|]. split; [reflexivity|]. split.
  - change (Z.quot 3 (Z.of_nat 2)) with 1.
    intros [|[|k]] j w x Hk Hj; inversion Hk; subst w;
      (destruct j as [|j]; [simpl; lia|inversion Hj]).
  - intros (w & x & Hw & _). vm_compute in Hw. discriminate.
Qed.

(** ** Path costs *)

(** C7, amended. In a run that completes on [p] processes with [p]
    dividing [n], every vertex [v] but the source ends at the distance of
    its predecessor plus the weight of the edge from it, the source being
    counted at distance 0 (its entry of the distance vector holds
    [mat[0][0]], which the program never uses). *)
Theorem C7_path_cost_from_source (p : nat) (n : Z) input ws :
  main_compute p n input = Some ws →
  Z.rem n (Z.of_nat p) = 0 →
  path_cost_from_source (take (Z.to_nat (n * n)) input)
    (gathered_dist ws) (gathered_pred ws) n.
Proof.
  intros Hrun Hrem. rewrite main_compute_upto in Hrun.
  destruct (main_upto_is_seq_rounds _ p n input ws Hrun Hrem)
    as (N & m & -> & Em & Hp & Hm & HNp & HN & Hin & Hwf & Hg).
  replace (Z.to_nat (Z.of_nat N * Z.of_nat N)) with (N * N)%nat by lia.
  assert (Hlm : length (take (N * N) input) = (N * N)%nat).
  { rewrite length_take. lia. }
  assert (Hinv := seq_rounds_inv (take (N * N) input) N
            (Z.to_nat (Z.of_nat N - 1)) Hlm).
  rewrite <- Hg in Hinv. destruct Hinv as [Ld _ _ _ Hpred _ Hcost _ _].
  simpl in *. intros v Hv.
  destruct (Hcost (Z.to_nat v) ltac:(lia)) as (u & Hpu & Hdv).
  destruct (Hpred (Z.to_nat v) ltac:(lia)) as (u' & Hpu' & Hu' & _).
  rewrite Hpu in Hpu'. inversion Hpu' as [E]. apply Nat2Z.inj in E. subst u'.
  destruct (lookup_lt_is_Some_2 (take (N * N) input) (u * N + Z.to_nat v))
    as [w Hw]; [nia|].
  exists (Z.of_nat u), (source_dist (gathered_dist ws) u), w,
    (source_dist (gathered_dist ws) u + w).
  split; [apply rd_Some; by split; [lia|]|]. split; [lia|].
  unfold source_dist. split; [|split; [|split; [|split; [|done]]]].
  - intros Hu0. destruct (decide (u = O)); [done|lia].
  - intros Hu0. destruct (decide (u = O)); [lia|]. rewrite rd_nat.
    destruct (lookup_lt_is_Some_2 (gathered_dist ws) u) as [du Hdu]; [lia|].
    by rewrite (list_lookup_total_correct _ _ _ Hdu).
  - apply rd_Some. split; [lia|].
    by replace (Z.to_nat (Z.of_nat u * Z.of_nat N + v))
      with (u * N + Z.to_nat v)%nat by lia.
  - apply rd_Some. split; [lia|]. rewrite Hdv. unfold source_dist, weight.
    by rewrite (list_lookup_total_correct _ _ _ Hw).
Qed.

Lemma C7_path_cost_from_source_witness :
  path_cost_from_source
    (take (Z.to_nat (4 * 4)) [0; 4; 9; 9; 1; 0; 2; 6; 7; 2; 0; 1; 8; 7; 6; 0])
    (gathered_dist
       [Proc [0; 4; 1; 0; 7; 2; 8; 7] [0; 4] [0; 0] [1; 1];
        Proc [9; 9; 2; 6; 0; 1; 6; 0] [6; 7] [1; 2] [1; 1]])
    (gathered_pred
       [Proc [0; 4; 1; 0; 7; 2; 8; 7] [0; 4] [0; 0] [1; 1];
        Proc [9; 9; 2; 6; 0; 1; 6; 0] [6; 7] [1; 2] [1; 1]]) 4.
Proof.
  apply (C7_path_cost_from_source 2 4
           [0; 4; 9; 9; 1; 0; 2; 6; 7; 2; 0; 1; 8; 7; 6; 0]
           [Proc [0; 4; 1; 0; 7; 2; 8; 7] [0; 4] [0; 0] [1; 1];
            Proc [9; 9; 2; 6; 0; 1; 6; 0] [6; 7] [1; 2] [1; 1]]).
  - vm_compute. reflexivity.
  - reflexivity.
Defined.

(** Two runs against the equation as the claim has it.  On one process,
    with [mat[0][0] = 5], the distance vector breaks the equation read
    with the stored [dist[0]]: [dist[1] = 1] but
    [dist[pred[1]] + mat[pred[1]][1] = 5 + 1].  On two processes and three
    vertices the run completes (see C2) and vertex 2 belongs to no
    process: the gathered vectors have no entry for it, and the equation
    fails for [v = 2] whichever way the source is counted. *)
Lemma C7_counterexample :
  (∃ ws, main_compute 1 2 [5; 1; 1; 0] = Some ws ∧ Z.rem 2 1 = 0 ∧
         ¬ path_cost_consistent [5; 1; 1; 0]
             (gathered_dist ws) (gathered_pred ws) 2) ∧
  (∃ ws, main_compute 2 3 [0; 1; 2; 3; 0; 4; 5; 6; 0] = Some ws ∧
         Z.rem 3 (Z.of_nat 2) ≠ 0 ∧
         gathered_dist ws = [0; 1] ∧ gathered_pred ws = [0; 0] ∧
         ¬ path_cost_consistent [0; 1; 2; 3; 0; 4; 5; 6; 0]
             (gathered_dist ws) (gathered_pred ws) 3 ∧
         ¬ path_cost_from_source [0; 1; 2; 3; 0; 4; 5; 6; 0]
             (gathered_dist ws) (gathered_pred ws) 3).
Proof.
  split.
  - exists [Proc [5; 1; 1; 0] [5; 1] [0; 0] [1; 1]].
    split; [reflexivity|]. split; [reflexivity|]. intros H.
    destruct (H 1 ltac:(lia)) as (u & du & w & dv & Hu & Hdu & Hw & Hdv & E).
    vm_compute in Hu. inversion Hu; subst u.
    vm_compute in Hdu, Hw, Hdv. inversion Hdu; inversion Hw; inversion Hdv.
    subst. lia.
  - exists [Proc [0; 3; 5] [0] [0] [1]; Proc [1; 0; 6] [1] [0] [1]].
    split; [reflexivity|]. split; [by vm_compute|].
    split; [reflexivity|]. split; [reflexivity|]. split.
    + intros H. destruct (H 2 ltac:(lia)) as (u & du & w & dv & Hu & _).
      vm_compute in Hu. discriminate.
    + intros H. destruct (H 2 ltac:(lia)) as (u & du & w & dv & Hu & _).
      vm_compute in Hu. discriminate.
Qed.

(** ** Gathering a vector *)

Lemma unpack_piece (l : list Z) (m k : nat) data buf :
  length buf = length l →
  length data = m →
  (∀ j : nat, (j < m)%nat → data !! j = l !! (k * m + j)%nat) →
  ((k + 1) * m ≤ length l)%nat →
  ∃ buf',
    unpack buf (Z.of_nat k * Z.of_nat m * extent MPI_INT) (Z.of_nat m)
      MPI_INT data = Some buf' ∧
    length buf' = length l ∧
    ∀ q : nat,
      (buf !! q = l !! q ∨ ∃ j : nat, (j < m)%nat ∧ q = (k * m + j)%nat) →
      buf' !! q = l !! q.
Proof.
  intros Hlen Hdata Hpt Hfit. unfold unpack.
  rewrite typemap_contiguous_INT, length_seqZ, Nat2Z.id, Hdata, Nat.eqb_refl.
  cbn [extent MPI_INT].
  destruct (store_all_agree l
    (zip ((λ d, Z.of_nat k * Z.of_nat m * 1 + d) <$> seqZ 0 (Z.of_nat m)) data)
    buf Hlen) as (buf' & Hs & Hl & Hag).
  { intros pos x Hin. apply list_elem_of_lookup_1 in Hin as [j Hj].
    apply lookup_zip_with_Some in Hj as (d' & x' & Heq & Hd & Hx).
    inversion Heq; subst pos x'. clear Heq.
    rewrite list_lookup_fmap in Hd.
    assert (Hjm : (j < m)%nat) by (rewrite <- Hdata; by eapply lookup_lt_Some).
    rewrite lookup_seqZ_lt in Hd by lia. inversion Hd; subst d'.
    apply rd_Some. split; [lia|].
    replace (Z.to_nat (Z.of_nat k * Z.of_nat m * 1 + (0 + Z.of_nat j)))
      with (k * m + j)%nat by lia.
    by rewrite <- Hpt. }
  exists buf'. split; [done|]. split; [done|].
  intros q [Hq|(j & Hj & ->)]; apply Hag; [by left|right].
  destruct (lookup_lt_is_Some_2 data j) as [x Hx]; [lia|]. exists x.
  apply (list_elem_of_lookup_2 _ j). apply lookup_zip_with_Some.
  exists (Z.of_nat k * Z.of_nat m * 1 + Z.of_nat j), x.
  split; [f_equal; lia|]. split; [|done].
  rewrite list_lookup_fmap, lookup_seqZ_lt by lia. done.
Qed.

Lemma gather_from_pieces (l : list Z) (m : nat) :
  ∀ blocks (k0 : nat) buf,
    length buf = length l →
    ((k0 + length blocks) * m ≤ length l)%nat →
    (∀ (t : nat) data, blocks !! t = Some data →
       length data = m ∧
       ∀ j : nat, (j < m)%nat → data !! j = l !! ((k0 + t) * m + j)%nat) →
    ∃ buf',
      gather_from buf (Z.of_nat m) MPI_INT (Z.of_nat k0) blocks = Some buf' ∧
      length buf' = length l ∧
      ∀ q : nat,
        (buf !! q = l !! q ∨
         ∃ t j : nat, (t < length blocks)%nat ∧ (j < m)%nat ∧
                      q = ((k0 + t) * m + j)%nat) →
        buf' !! q = l !! q.
Proof.
  induction blocks as [|data blocks IH]; intros k0 buf Hlen Hfit Hblocks.
  - exists buf. split; [done|]. split; [done|].
    intros q [Hq|(t & _ & Ht & _)]; [done|simpl in Ht; lia].
  - destruct (Hblocks O data eq_refl) as [Hd Hpt].
    replace (k0 + 0)%nat with k0 in Hpt by lia.
    destruct (unpack_piece l m k0 data buf Hlen Hd Hpt) as (buf1 & Hu & Hl1 & Hag1).
    { simpl in Hfit. lia. }
    destruct (IH (S k0) buf1 Hl1) as (buf' & Hg & Hl & Hag).
    { simpl in Hfit. lia. }
    { intros t data' Ht. specialize (Hblocks (S t) data' Ht).
      by replace (k0 + S t)%nat with (S k0 + t)%nat in Hblocks by lia. }
    exists buf'. split; [|split; [done|]].
    + cbn [gather_from]. rewrite Hu. simpl.
      by replace (Z.of_nat k0 + 1) with (Z.of_nat (S k0)) by lia.
    + intros q Hq. apply Hag.
      destruct Hq as [Hq|(t & j & Ht & Hj & ->)].
      * left. apply Hag1. by left.
      * destruct t as [|t].
        -- left. apply Hag1. right. exists j. split; [done|]. f_equal. lia.
        -- right. exists t, j. simpl in Ht.
           split; [lia|]. split; [done|]. lia.
Qed.

(** Gathering the pieces of a vector into a buffer of its size gives the
    pieces in rank order. *)
Lemma MPI_Gather_pieces (f : proc → list Z) (m : nat) ws buf :
  (∀ (k : nat) w, ws !! k = Some w → length (f w) = m) →
  length buf = (length ws * m)%nat →
  MPI_Gather (f <$> ws) (Z.of_nat m) buf (Z.of_nat m) MPI_INT =
  Some (mjoin (f <$> ws)).
Proof.
  intros Hlen Hbuf. unfold MPI_Gather.
  replace (forallb _ (f <$> ws)) with true.
  2:{ symmetry. apply forallb_forall. intros data Hin.
      apply list_elem_of_In, list_elem_of_fmap in Hin as (w & -> & Hw).
      apply list_elem_of_lookup_1 in Hw as [k Hk].
      rewrite (Hlen k w Hk). apply Z.eqb_eq. done. }
  assert (Hl := length_pieces f m ws Hlen).
  destruct (gather_from_pieces (mjoin (f <$> ws)) m (f <$> ws) 0 buf)
    as (buf' & Hg & Hl' & Hag).
  - lia.
  - rewrite length_fmap. lia.
  - intros t data Ht. rewrite list_lookup_fmap in Ht.
    destruct (ws !! t) as [w|] eqn:Hw; [|done]. inversion Ht; subst data.
    split; [by eapply Hlen|]. intros j Hj. symmetry.
    by apply (lookup_pieces f m ws Hlen).
  - change (Z.of_nat 0) with 0 in Hg. rewrite Hg. f_equal.
    apply list_eq. intros q.
    destruct (decide (q < length ws * m)%nat) as [Hq|Hq].
    + apply Hag. right.
      destruct (index_split (length ws) m q Hq) as (k & j & Hk & Hj & ->).
      exists k, j. rewrite length_fmap. done.
    + rewrite !lookup_ge_None_2; [done|lia|lia].
Qed.

(** ** Path reconstruction *)

Lemma known_path_chain pred known (s v : nat) :
  known_path pred known s v →
  ∃ l, pred_chain pred (Z.of_nat v) l ∧ length l = s.
Proof.
  induction 1 as [_|v u s Hv _ Hp _ (l & Hl & Hs)].
  - exists []. split; [constructor|done].
  - exists (Z.of_nat v :: l). split; [|by simpl; f_equal].
    apply pred_chain_step with (Z.of_nat u); [lia| |done].
    by rewrite rd_nat.
Qed.

(** The loop follows a chain to its end, storing it from [count] on, as
    soon as it has fuel for one test per vertex and one for the source. *)
Lemma path_loop_chain pred :
  ∀ l v, pred_chain pred v l →
  ∀ (fuel : nat) path (count : nat),
    (length l < fuel)%nat →
    (count + length l ≤ length path)%nat →
    Z.of_nat (length path) ≤ INT_MAX →
    ∃ path',
      path_loop fuel pred path (Z.of_nat count) v =
        Finished (path', Z.of_nat (count + length l)) ∧
      length path' = length path ∧
      (∀ i : nat, (i < count)%nat → path' !! i = path !! i) ∧
      (∀ i : nat, (i < length l)%nat → path' !! (count + i)%nat = l !! i).
Proof.
  induction 1 as [|v u l Hv Hu Hc IH]; intros fuel path count Hf Hfit Hmax.
  - destruct fuel as [|fuel]; [simpl in Hf; lia|]. simpl.
    exists path. replace (count + 0)%nat with count by lia.
    split; [done|]. split; [done|]. split; [done|]. intros i Hi. lia.
  - destruct fuel as [|fuel]; [simpl in Hf; lia|]. simpl in Hf, Hfit.
    cbn [path_loop]. apply Z.eqb_neq in Hv. rewrite Hv.
    rewrite wr_nat by lia. rewrite Hu.
    unfold int_add. rewrite checked_in by (unfold INT_MIN; lia).
    destruct (IH fuel (<[count := v]> path) (S count)) as (path' & Hr & Hl & Hlo & Hhi).
    { lia. } { rewrite length_insert. lia. } { by rewrite length_insert. }
    exists path'.
    replace (Z.of_nat count + 1) with (Z.of_nat (S count)) by lia.
    rewrite Hr. split; [do 2 f_equal; simpl; lia|].
    rewrite length_insert in Hl. split; [done|]. split.
    + intros i Hi. rewrite Hlo by lia. by rewrite list_lookup_insert_ne by lia.
    + intros i Hi. destruct i as [|i].
      * replace (count + 0)%nat with count by lia. rewrite Hlo by lia.
        rewrite list_lookup_insert_eq by lia. done.
      * replace (count + S i)%nat with (S count + i)%nat by lia.
        apply Hhi. simpl in Hi. lia.
Qed.

Lemma print_path_chain (path l : list Z) :
  (∀ i : nat, (i < length l)%nat → path !! i = l !! i) →
  print_path path (Z.of_nat (length l)) = Some (0 :: reverse l).
Proof.
  intros Hpt. unfold print_path.
  assert (H : mapM (rd path) (reverse (seqZ 0 (Z.of_nat (length l))))
              = Some (reverse l)).
  { apply mapM_Some, Forall2_reverse, Forall2_same_length_lookup.
    split; [by rewrite length_seqZ, Nat2Z.id|].
    intros i z y Hz Hy. apply lookup_seqZ in Hz as [-> Hi].
    rewrite Z.add_0_l, rd_nat, Hpt by lia. done. }
  rewrite H. done.
Qed.

(** Every line of the table of paths is printed when every vertex has a
    chain that fits the buffer. *)
Lemma Print_paths_lines_total pred (fuel : nat) :
  ∀ vs path,
    Z.of_nat (length path) ≤ INT_MAX →
    (∀ v, v ∈ vs → ∃ l, pred_chain pred v l ∧
                        (length l < fuel)%nat ∧
                        (length l ≤ length path)%nat) →
    ∃ lines, Print_paths_lines fuel pred path vs = Finished lines ∧
             Forall2 (path_line pred) vs lines.
Proof.
  induction vs as [|v vs IH]; intros path Hmax Hvs.
  - exists []. split; [done|constructor].
  - destruct (Hvs v ltac:(apply elem_of_cons; by left))
      as (l & Hl & Hf & Hfit).
    destruct (path_loop_chain pred l v Hl fuel path O Hf ltac:(lia) Hmax)
      as (path' & Hr & Hlen & _ & Hent).
    change (0 + length l)%nat with (length l) in Hr.
    destruct (IH path') as (lines & Hlines & Hall).
    { by rewrite Hlen. }
    { intros v' Hv'. destruct (Hvs v' ltac:(apply elem_of_cons; by right))
        as (l' & ? & ? & ?). exists l'. by rewrite Hlen. }
    exists ((0 :: reverse l) :: lines). split.
    + cbn [Print_paths_lines]. change 0 with (Z.of_nat 0) at 1. rewrite Hr.
      cbn [obind]. rewrite (print_path_chain path' l Hent).
      cbn [of_option obind]. by rewrite Hlines.
    + constructor; [|done]. by exists l.
Qed.

Lemma seq_inv_chain mat (N k : nat) st (v : nat) :
  seq_inv mat N k st → (v < N)%nat →
  ∃ l, pred_chain (spred st) (Z.of_nat v) l ∧ (length l ≤ S k)%nat.
Proof.
  intros [_ _ _ _ Hpred Hpath _ _ _] Hv.
  destruct (decide (v = O)) as [->|Hnz].
  { exists []. split; [constructor|simpl; lia]. }
  destruct (Hpred v Hv) as (u & Hpu & Hu & Hku).
  destruct (Hpath u Hu Hku) as (s & Hs & Hp).
  destruct (known_path_chain _ _ _ _ Hp) as (l & Hl & Hlen).
  exists (Z.of_nat v :: l). split; [|simpl; lia].
  apply pred_chain_step with (Z.of_nat u); [lia| |done]. by rewrite rd_nat.
Qed.

(** ** No cycle *)

Lemma pred_chain_unique pred v l :
  pred_chain pred v l → ∀ l', pred_chain pred v l' → l = l'.
Proof.
  induction 1 as [|v u l Hv Hu _ IH]; intros l' H'.
  - inversion H'; subst; [done|congruence].
  - inversion H' as [|v' u' l'' _ Hu' Hc']; subst; [done|].
    rewrite Hu in Hu'. inversion Hu'; subst u'. f_equal. by apply IH.
Qed.

Lemma pred_steps_chain pred v l :
  pred_chain pred v l →
  ∀ (k : nat) w, pred_steps pred k v w → (k ≤ length l)%nat →
                 pred_chain pred w (drop k l).
Proof.
  induction 1 as [|v u l Hv Hu Hc IH]; intros k w Hs Hk.
  - simpl in Hk. assert (k = O) by lia. subst k.
    inversion Hs; subst. constructor.
  - destruct k as [|k].
    + inversion Hs; subst. simpl. by apply pred_chain_step with u.
    + inversion Hs as [|k' v' u' w' Hu' Hs']; subst.
      rewrite Hu in Hu'. inversion Hu'; subst u'.
      simpl. apply IH; [done|]. simpl in Hk. lia.
Qed.

Lemma pred_steps_source pred :
  rd pred 0 = Some 0 → ∀ (k : nat) w, pred_steps pred k 0 w → w = 0.
Proof.
  intros H0. induction k as [|k IH]; intros w Hs.
  - by inversion Hs.
  - inversion Hs as [|k' v' u' w' Hu' Hs']; subst.
    rewrite H0 in Hu'. inversion Hu'; subst u'. by apply IH.
Qed.

Lemma pred_steps_split pred (a b : nat) :
  ∀ v w, pred_steps pred (a + b) v w →
         ∃ u, pred_steps pred a v u ∧ pred_steps pred b u w.
Proof.
  induction a as [|a IH]; intros v w Hs.
  - exists v. split; [constructor|done].
  - inversion Hs as [|k' v' u' w' Hu' Hs']; subst.
    destruct (IH u' w Hs') as (x & Ha & Hb).
    exists x. split; [by apply pred_steps_S with u'|done].
Qed.

(** A vertex that has a chain to the source lies on no cycle of [pred],
    unless it is the source. *)
Lemma pred_chain_no_cycle pred v l (k : nat) :
  rd pred 0 = Some 0 → pred_chain pred v l → v ≠ 0 → (0 < k)%nat →
  ¬ pred_steps pred k v v.
Proof.
  intros H0 Hc Hv Hk Hs.
  destruct (decide (k ≤ length l)%nat) as [Hle|Hgt].
  - assert (Hd := pred_steps_chain pred v l Hc k v Hs Hle).
    assert (E := pred_chain_unique pred v _ Hd l Hc).
    assert (Hl := length_drop l k). rewrite E in Hl. lia.
  - replace k with (length l + (k - length l))%nat in Hs by lia.
    apply pred_steps_split in Hs as (u & Ha & Hb).
    assert (Hd := pred_steps_chain pred v l Hc _ u Ha ltac:(lia)).
    rewrite drop_all in Hd. inversion Hd; subst.
    by apply pred_steps_source in Hb.
Qed.

(** At a round boundary every vertex has a chain to the source, of at
    most [N] vertices. *)
Lemma round_boundary_chain mat (N rounds : nat) ws v :
  length mat = (N * N)%nat → (rounds ≤ N - 1)%nat →
  gathered ws = seq_rounds mat N rounds →
  0 ≤ v < Z.of_nat N →
  ∃ l, pred_chain (gathered_pred ws) v l ∧ (length l ≤ N)%nat.
Proof.
  intros Hmat Hr Hg Hv.
  assert (Hinv := seq_rounds_inv mat N rounds Hmat). rewrite <- Hg in Hinv.
  destruct (seq_inv_chain _ N rounds _ (Z.to_nat v) Hinv ltac:(lia))
    as (l & Hl & Hlen).
  exists l. rewrite Z2Nat.id in Hl by lia. split; [done|]. simpl in *. lia.
Qed.

(** The table of paths is printed in full when every vertex has a chain
    of at most [N] vertices. *)
Lemma Print_paths_total mat (N m : nat) ws :
  wf_procs mat N m ws → Z.of_nat N ≤ INFINITY →
  (∀ v, 0 ≤ v < Z.of_nat N →
     ∃ l, pred_chain (gathered_pred ws) v l ∧ (length l ≤ N)%nat) →
  ∃ lines,
    Print_paths (N + 1) (loc_pred <$> ws) (Z.of_nat N) (Z.of_nat m)
      = Finished lines ∧
    Forall2 (path_line (gathered_pred ws)) (seqZ 1 (Z.of_nat N - 1)) lines.
Proof.
  intros Hwf HN Hchain. unfold Print_paths.
  assert (Hlen : ∀ (k : nat) w, ws !! k = Some w → length (loc_pred w) = m).
  { intros k w Hk. destruct Hwf as (_ & _ & Hw).
    by destruct (Hw k w Hk) as (_ & ? & _). }
  rewrite (MPI_Gather_pieces loc_pred m ws).
  2: done.
  2:{ rewrite length_malloc, Nat2Z.id. by destruct Hwf as (? & _). }
  cbn [of_option obind].
  apply Print_paths_lines_total.
  - rewrite length_malloc, Nat2Z.id. unfold INT_MAX, INFINITY in *. lia.
  - intros v Hv. apply elem_of_seqZ in Hv.
    destruct (Hchain v ltac:(lia)) as (l & Hl & Hll).
    exists l. rewrite length_malloc, Nat2Z.id. split; [done|]. lia.
Qed.

(** C8, amended. At every round boundary of a run on [p] processes, [p]
    dividing [n]: following the gathered predecessor vector from any vertex reaches
    the source after at most [n] vertices, none of them the source; no
    vertex but the source lies on a cycle of the predecessor relation;
    hence the path loop of [Print_paths], given fuel for [n + 1] tests,
    ends for every target, and each line printed is the source followed by
    the chain of the target in source-to-target order. *)
Theorem C8_pred_reaches_source (rounds p : nat) (n : Z) input ws :
  main_upto rounds p n input = Some ws →
  Z.rem n (Z.of_nat p) = 0 →
  Z.of_nat rounds ≤ n - 1 →
  (∀ v, 0 ≤ v < n →
     ∃ l, pred_chain (gathered_pred ws) v l ∧ Z.of_nat (length l) ≤ n) ∧
  (∀ v (k : nat), 0 < v < n → (0 < k)%nat →
     ¬ pred_steps (gathered_pred ws) k v v) ∧
  ∃ lines,
    Print_paths (Z.to_nat n + 1) (loc_pred <$> ws) n (Z.quot n (Z.of_nat p))
      = Finished lines ∧
    Forall2 (path_line (gathered_pred ws)) (seqZ 1 (n - 1)) lines.
Proof.
  intros Hrun Hrem Hrounds.
  destruct (main_upto_is_seq_rounds _ p n input ws Hrun Hrem)
    as (N & m & -> & Em & Hp & Hm & HNp & HN & Hin & Hwf & Hg).
  assert (Hmat : length (take (N * N) input) = (N * N)%nat).
  { rewrite length_take. lia. }
  assert (Hchain := λ v, round_boundary_chain _ N rounds ws v Hmat
                           ltac:(lia) Hg).
  split.
  { intros v Hv. destruct (Hchain v Hv) as (l & Hl & Hlen).
    exists l. split; [done|lia]. }
  split.
  { intros v k Hv Hk. destruct (Hchain v ltac:(lia)) as (l & Hl & _).
    apply (pred_chain_no_cycle _ v l k); [|done|lia|done].
    assert (Hinv := seq_rounds_inv _ N rounds Hmat). rewrite <- Hg in Hinv.
    change 0 with (Z.of_nat 0). rewrite rd_nat.
    apply (inv_pred0 _ _ _ _ Hinv). lia. }
  rewrite Em, Nat2Z.id. by eapply Print_paths_total.
Qed.

Lemma C8_pred_reaches_source_witness :
  ∃ lines,
    Print_paths (Z.to_nat 4 + 1)
      (loc_pred <$>
         [Proc [0; 7; 7; 0; 8; 1; 2; 2] [0; 3] [0; 2] [1; 1];
          Proc [2; 3; 1; 9; 0; 9; 1; 0] [2; 3] [0; 0] [1; 1]]) 4
      (Z.quot 4 (Z.of_nat 2)) = Finished lines ∧
    Forall2 (path_line [0; 2; 0; 0]) (seqZ 1 (4 - 1)) lines.
Proof.
  exact (proj2 (proj2 (C8_pred_reaches_source 3 2 4
    [0; 7; 2; 3; 7; 0; 1; 9; 8; 1; 0; 9; 2; 2; 1; 0] _
    eq_refl eq_refl ltac:(vm_compute; congruence)))).
Defined.

(** On two processes and three vertices the run reaches every round
    boundary (see C2), and vertex 2 belongs to no process: the gathered
    predecessor vector has no entry for it, so that following [pred] from
    vertex 2 leads nowhere, at no round boundary. *)
Lemma C8_counterexample :
  Z.rem 3 (Z.of_nat 2) ≠ 0 ∧
  ∀ rounds : nat, Z.of_nat rounds ≤ 3 - 1 →
    ∃ ws, main_upto rounds 2 3 [0; 1; 2; 3; 0; 4; 5; 6; 0] = Some ws ∧
      gathered_pred ws = [0; 0] ∧
      ¬ ∃ l, pred_chain (gathered_pred ws) 2 l.
Proof.
  split; [by vm_compute|]. intros rounds Hr.
  assert (Hno : ¬ ∃ l, pred_chain [0; 0] 2 l).
  { intros [l H]. inversion H as [|v u l' Hv Hrd Hch]; subst.
    vm_compute in Hrd. discriminate. }
  destruct rounds as [|[|[|rounds]]]; [| | |lia].
  - exists [Proc [0; 3; 5] [0] [0] [1]; Proc [1; 0; 6] [1] [0] [0]].
    split; [reflexivity|]. split; [reflexivity|]. exact Hno.
  - exists [Proc [0; 3; 5] [0] [0] [1]; Proc [1; 0; 6] [1] [0] [1]].
    split; [reflexivity|]. split; [reflexivity|]. exact Hno.
  - exists [Proc [0; 3; 5] [0] [0] [1]; Proc [1; 0; 6] [1] [0] [1]].
    split; [reflexivity|]. split; [reflexivity|]. exact Hno.
Qed.

(** ** A vertex out of reach

    Two vertices, one process, no edge: vertex 1 stays at distance
    [INFINITY].  [Find_min_dist] then finds no entry under [INFINITY] and
    returns [INFINITY] itself, which goes through the reduction as a vertex
    id and is used to index the matrix. *)

(** C6. With vertex 1 still unknown, at distance 1000000, the process
    contributes the pair (1000000, 1000000), not (1000000, 1): the
    sentinel goes out although an unknown entry remains. *)
Theorem C6_sentinel_with_unknown_left :
  ∃ w,
    main_upto 0 1 2 [0; 1000000; 1000000; 0] = Some [w] ∧
    known w !! 1%nat = Some 0 ∧
    loc_dist w !! 1%nat = Some 1000000 ∧
    Find_min_dist (loc_dist w) (known w) 2 = Some INFINITY ∧
    Dijkstra_my_min 2 0 w = Some (INFINITY, INFINITY).
Proof.
  exists (Proc [0; 1000000; 1000000; 0] [0; 1000000] [0; 0] [1; 0]).
  repeat split; reflexivity.
Qed.

(** C4. In the first round of that run the reduction returns vertex id
    1000000, outside [0, n) for n = 2; the relaxation of vertex 1 then
    reads cell 2000001 of a block of 4 cells, and the round fails. *)
Theorem C4_winner_out_of_range :
  ∃ w,
    main_upto 0 1 2 [0; 1000000; 1000000; 0] = Some [w] ∧
    spmd (Dijkstra_my_min 2) [w] = Some [(1000000, 1000000)] ∧
    MPI_Allreduce MPI_MINLOC [(1000000, 1000000)]
      = Some [(1000000, 1000000)] ∧
    ¬ (0 ≤ 1000000 < 2) ∧
    length (loc_mat w) = 4%nat ∧
    rd (loc_mat w) (1000000 * 2 + 1) = None ∧
    Dijkstra_update 2 0 (1000000, 1000000) w = None ∧
    Dijkstra_round 2 [w] = None.
Proof.
  exists (Proc [0; 1000000; 1000000; 0] [0; 1000000] [0; 0] [1; 0]).
  repeat split; try reflexivity. lia.
Qed.

(** C1. On that matrix the sequential reference ends with distance
    1000000 for vertex 1, and the program, on one process, ends in
    undefined behaviour: there are no distances to compare. *)
Theorem C1_unreachable_vertex_fails :
  Z.rem 2 (Z.of_nat 1) = 0 ∧
  sdist (seq_Dijkstra [0; 1000000; 1000000; 0] 2) = [0; 1000000] ∧
  main_compute 1 2 [0; 1000000; 1000000; 0] = None ∧
  ∀ fuel, main fuel 1 2 [0; 1000000; 1000000; 0] = Undefined.
Proof. repeat split; reflexivity. Qed.

(** ** Configuration: the worker count *)

Lemma path_loop_no_ConfigError pred msg :
  ∀ fuel path count w, path_loop fuel pred path count w ≠ ConfigError msg.
Proof.
  induction fuel as [|fuel IH]; intros path count w; simpl; [done|].
  destruct (w =? 0); [done|].
  destruct (wr path count w); [|done].
  destruct (int_add count 1); [|done].
  destruct (rd pred w); [apply IH|done].
Qed.

Lemma Print_paths_lines_no_ConfigError fuel pred msg :
  ∀ vs path, Print_paths_lines fuel pred path vs ≠ ConfigError msg.
Proof.
  induction vs as [|v vs IH]; intros path; simpl; [done|].
  destruct (path_loop fuel pred path 0 v) as [[path' count]| | |] eqn:E;
    simpl; try done.
  - destruct (print_path path' count); simpl; [|done].
    specialize (IH path').
    destruct (Print_paths_lines fuel pred path' vs); simpl; done.
  - by apply path_loop_no_ConfigError in E.
Qed.

(** No statement of the program raises a configuration error. *)
Lemma main_no_ConfigError fuel p n input msg :
  main fuel p n input ≠ ConfigError msg.
Proof.
  unfold main. destruct (main_compute p n input) as [ws|]; simpl; [|done].
  destruct (Print_dists _ _ _); simpl; [|done].
  unfold Print_paths.
  destruct (MPI_Gather _ _ _ _ _) as [pred|]; simpl; [|done].
  assert (H := Print_paths_lines_no_ConfigError fuel pred msg
            (seqZ 1 (n - 1)) (malloc n)).
  destruct (Print_paths_lines fuel pred (malloc n) (seqZ 1 (n - 1)));
    simpl; try done.
  intros E. inversion E; subst. by apply H.
Qed.

(** The initialisation of a process succeeds on a block that holds at
    least one row. *)
Lemma Dijkstra_init_total (m : nat) my_rank blk :
  (0 < m)%nat → (m ≤ length blk)%nat → Z.of_nat m ≤ INT_MAX →
  is_Some (Dijkstra_init (Z.of_nat m) my_rank blk).
Proof.
  intros Hm Hblk Hmax. unfold Dijkstra_init.
  destruct (for_range_total (Dijkstra_init_body (Z.of_nat m))
    (λ _ w, loc_mat w = blk ∧ length (loc_dist w) = m ∧
            length (loc_pred w) = m ∧ length (known w) = m)
    (Z.of_nat m) (Proc blk (malloc (Z.of_nat m)) (malloc (Z.of_nat m))
                    (malloc (Z.of_nat m)))) as (w & Hw & Hinv).
  - lia.
  - simpl. rewrite !length_malloc, Nat2Z.id. done.
  - intros i w Hi (Hmat & Ld & Lp & Lk). unfold Dijkstra_init_body.
    destruct (rd_is_Some blk (0 * Z.of_nat m + i)) as [x Hx]; [lia|].
    eexists. split.
    + apply bind_Some. exists (0 * Z.of_nat m). split.
      { apply checked_in. unfold INT_MIN, INT_MAX. lia. }
      apply bind_Some. exists (0 * Z.of_nat m + i). split.
      { apply checked_in. unfold INT_MIN, INT_MAX in *. lia. }
      apply bind_Some. exists x. split; [by rewrite Hmat|].
      apply bind_Some. eexists. split; [apply wr_Some; split; [lia|done]|].
      apply bind_Some. eexists. split; [apply wr_Some; split; [lia|done]|].
      apply bind_Some. eexists. split; [apply wr_Some; split; [lia|done]|].
      done.
    + simpl. rewrite !length_insert. done.
  - rewrite Hw. simpl. destruct Hinv as (_ & _ & _ & Lk).
    destruct (my_rank =? 0); [|done].
    change (wr (known w) 0 1) with (wr (known w) (Z.of_nat 0) 1).
    rewrite wr_nat by lia. done.
Qed.

(** Reading and scattering the matrix succeeds whenever the [p] block
    columns fit in the matrix, whether or not they cover it. *)
Lemma Read_matrix_total (N m p : nat) input :
  (p * m ≤ N)%nat → (m ≤ N)%nat → Z.of_nat (N * N) ≤ INT_MAX →
  (N * N ≤ length input)%nat →
  ∃ mats,
    Read_matrix input (Z.of_nat N) (Z.of_nat m)
      (Build_blk_col_type (Z.of_nat N) (Z.of_nat m)) p = Some mats ∧
    length mats = p ∧
    ∀ (k : nat) blk, mats !! k = Some blk →
      block_column (take (N * N) input) N m k blk.
Proof.
  intros Hp Hm Hmax Hin. unfold Read_matrix, int_mul.
  rewrite (checked_in (Z.of_nat N * Z.of_nat N)) by (unfold INT_MIN; nia).
  simpl.
  replace (Z.of_nat N * Z.of_nat N <=? Z.of_nat (length input)) with true
    by (symmetry; apply Z.leb_le; lia).
  simpl.
  rewrite (checked_in (Z.of_nat N * Z.of_nat m)) by (unfold INT_MIN; nia).
  simpl.
  replace (Z.to_nat (Z.of_nat N * Z.of_nat N)) with (N * N)%nat by lia.
  assert (Hlt : length (take (N * N) input) = (N * N)%nat).
  { rewrite length_take. lia. }
  destruct (MPI_Scatter_blk_col_total N m p _ Hp Hlt) as [mats Hsc].
  exists mats. split; [done|].
  by apply MPI_Scatter_blk_col_Some in Hsc.
Qed.

(** C2, amended. The program makes no divisibility check and never raises
    a configuration error.  With at least one process and at most [n],
    whether or not [p] divides [n], it takes [loc_n = n / p] rounded down,
    gives process [k] the block column [k] of that width, and enters the
    main loop. *)
Theorem C2_no_divisibility_check (fuel p : nat) (n : Z) input :
  (1 ≤ p)%nat → Z.of_nat p ≤ n → n * n ≤ INT_MAX →
  n * n ≤ Z.of_nat (length input) →
  let loc_n := Z.quot n (Z.of_nat p) in
  (∀ msg, main fuel p n input ≠ ConfigError msg) ∧
  ∃ mats ws,
    int_div n (Z.of_nat p) = Some loc_n ∧
    Read_matrix input n loc_n (Build_blk_col_type n loc_n) p = Some mats ∧
    (∀ (k : nat) blk, mats !! k = Some blk →
       block_column (take (Z.to_nat (n * n)) input)
         (Z.to_nat n) (Z.to_nat loc_n) k blk) ∧
    spmd (Dijkstra_init loc_n) mats = Some ws ∧
    main_upto 0 p n input = Some ws ∧ length ws = p.
Proof.
  intros Hp Hpn Hmax Hin loc_n. split; [intros msg; apply main_no_ConfigError|].
  assert (Hq : 0 < loc_n).
  { subst loc_n. rewrite Z.quot_div_nonneg by lia.
    apply Z.div_str_pos. lia. }
  assert (Hqn : Z.of_nat p * loc_n ≤ n).
  { subst loc_n. rewrite Z.quot_div_nonneg by lia.
    apply Z.mul_div_le. lia. }
  assert (Hqle : loc_n ≤ n) by nia.
  set (N := Z.to_nat n). set (m := Z.to_nat loc_n).
  assert (EN : n = Z.of_nat N) by lia. assert (Em : loc_n = Z.of_nat m) by lia.
  destruct (Read_matrix_total N m p input) as (mats & Hread & Hlen & Hblk);
    [nia|lia|lia|nia|].
  assert (Hinit : is_Some (spmd (Dijkstra_init loc_n) mats)).
  { unfold spmd. apply each_rank_total. intros k blk Hk. rewrite Em.
    apply Dijkstra_init_total; [lia| |unfold INT_MAX in *; nia].
    destruct (Hblk k blk Hk) as [-> _]. nia. }
  destruct Hinit as [ws Hws].
  assert (Hdiv : int_div n (Z.of_nat p) = Some loc_n).
  { unfold int_div. replace (Z.of_nat p =? 0) with false
      by (symmetry; apply Z.eqb_neq; lia).
    apply checked_in. unfold INT_MIN, INT_MAX in *. subst loc_n. nia. }
  exists mats, ws. rewrite <- EN, <- Em in Hread.
  split; [done|]. split; [done|]. split.
  { intros k blk Hk. replace (Z.to_nat (n * n)) with (N * N)%nat by lia.
    by apply Hblk. }
  split; [done|]. split; [|by rewrite (spmd_length _ _ _ Hws)].
  unfold main_upto. rewrite Hdiv. simpl.
  unfold int_mul at 1.
  rewrite checked_in by (unfold INT_MIN, INT_MAX in *; nia). simpl.
  fold loc_n. rewrite Hread. simpl. rewrite Hws. done.
Qed.

Lemma C2_no_divisibility_check_witness :
  Z.rem 3 (Z.of_nat 2) ≠ 0 ∧
  (∀ msg, main 4 2 3 [0; 1; 2; 3; 0; 4; 5; 6; 0] ≠ ConfigError msg) ∧
  ∃ mats ws,
    int_div 3 (Z.of_nat 2) = Some 1 ∧
    Read_matrix [0; 1; 2; 3; 0; 4; 5; 6; 0] 3 1 (Build_blk_col_type 3 1) 2
      = Some mats ∧
    spmd (Dijkstra_init 1) mats = Some ws ∧
    main_upto 0 2 3 [0; 1; 2; 3; 0; 4; 5; 6; 0] = Some ws ∧
    length ws = 2%nat.
Proof.
  split; [vm_compute; congruence|].
  destruct (C2_no_divisibility_check 4 2 3 [0; 1; 2; 3; 0; 4; 5; 6; 0])
    as (Hne & mats & ws & Hd & Hr & _ & Hi & Hu & Hl);
    [lia|vm_compute; congruence..|].
  split; [exact Hne|]. exists mats, ws. repeat split; assumption.
Defined.

(** With three vertices on two processes no configuration error is
    raised: vertex 2 is given to no process and the main loop runs its
    two rounds to the end. *)
Lemma C2_counterexample :
  Z.rem 3 (Z.of_nat 2) ≠ 0 ∧
  (∀ fuel msg, main fuel 2 3 [0; 1; 2; 3; 0; 4; 5; 6; 0] ≠ ConfigError msg) ∧
  main_compute 2 3 [0; 1; 2; 3; 0; 4; 5; 6; 0] =
    Some [Proc [0; 3; 5] [0] [0] [1]; Proc [1; 0; 6] [1] [0] [1]].
Proof.
  split; [vm_compute; congruence|]. split; [|reflexivity].
  intros fuel msg. apply main_no_ConfigError.
Qed.

(** ** The printed tables *)

(** The table of distances shows the gathered distance of every vertex
    but the source. *)
Lemma Print_dists_gathered (N m : nat) ws :
  (∀ (k : nat) w, ws !! k = Some w → length (loc_dist w) = m) →
  N = (length ws * m)%nat →
  Print_dists (loc_dist <$> ws) (Z.of_nat N) (Z.of_nat m) =
  Some ((λ v, (v, gathered_dist ws !!! Z.to_nat v)) <$>
          seqZ 1 (Z.of_nat N - 1)).
Proof.
  intros Hlen HN. unfold Print_dists.
  rewrite (MPI_Gather_pieces loc_dist m ws _ Hlen)
    by (rewrite length_malloc; lia).
  simpl. fold (gathered_dist ws).
  apply mapM_Some, Forall2_fmap_r, Forall_Forall2_diag, Forall_forall.
  intros v Hv. apply elem_of_seqZ in Hv. unfold compose.
  destruct (lookup_lt_is_Some_2 (gathered_dist ws) (Z.to_nat v)) as [d Hd].
  { unfold gathered_dist. rewrite (length_pieces loc_dist m ws Hlen). lia. }
  rewrite (list_lookup_total_correct _ _ _ Hd).
  replace (rd (gathered_dist ws) v) with (Some d); [done|].
  symmetry. apply rd_Some. split; [lia|done].
Qed.

(** A run whose computation completes, on [p] processes with [p] dividing
    [n], finishes: it prints the distances of the sequential reference and
    a path from the source to every other vertex. *)
Theorem main_finishes (p : nat) (n : Z) input ws :
  main_compute p n input = Some ws →
  Z.rem n (Z.of_nat p) = 0 →
  ∃ paths,
    main (Z.to_nat n + 1) p n input =
      Finished
        ((λ v, (v, sdist (seq_Dijkstra (take (Z.to_nat (n * n)) input)
                            (Z.to_nat n)) !!! Z.to_nat v))
           <$> seqZ 1 (n - 1), paths) ∧
    Forall2 (path_line (gathered_pred ws)) (seqZ 1 (n - 1)) paths.
Proof.
  intros Hrun Hrem.
  assert (Hseq := main_compute_is_seq_Dijkstra p n input ws Hrun Hrem).
  assert (Hup := Hrun). rewrite main_compute_upto in Hup.
  destruct (main_upto_is_seq_rounds _ p n input ws Hup Hrem)
    as (N & m & EN & Em & Hp & Hm & HNp & HN & Hin & Hwf & Hg).
  assert (Hmat : length (take (N * N) input) = (N * N)%nat).
  { rewrite length_take. lia. }
  destruct (Print_paths_total _ N m ws Hwf HN) as (paths & Hpaths & Hall).
  { intros v Hv.
    apply (round_boundary_chain _ N (Z.to_nat (n - 1)) ws v Hmat);
      [lia|done|done]. }
  subst n. rewrite Nat2Z.id in *.
  exists paths. split; [|done].
  unfold main. rewrite Hrun. cbn [of_option obind]. rewrite Em, Hpaths.
  rewrite <- Hseq. cbn [gathered sdist].
  rewrite (Print_dists_gathered N m ws).
  - done.
  - intros k w Hk. destruct Hwf as (_ & _ & Hw).
    by destruct (Hw k w Hk) as (? & _).
  - by destruct Hwf as (? & _).
Qed.

(** ** Runs that complete *)

Lemma Find_min_dist_total dist known (m : nat) :
  (m ≤ length dist)%nat → (m ≤ length known)%nat →
  is_Some (Find_min_dist dist known (Z.of_nat m)).
Proof.
  intros Hd Hk. unfold Find_min_dist.
  destruct (for_range_total (Find_min_dist_body dist known) (λ _ _, True)
              (Z.of_nat m) (INFINITY, INFINITY)) as (st & Hst & _);
    [lia|done| |by rewrite Hst].
  intros i [u md] Hi _. unfold Find_min_dist_body.
  destruct (rd_is_Some known i) as [k Hkk]; [lia|].
  destruct (rd_is_Some dist i) as [d Hdd]; [lia|].
  rewrite Hkk, Hdd. simpl.
  destruct (k =? 0); [destruct (d <? md)|]; by eexists.
Qed.

Lemma Dijkstra_my_min_total (m k : nat) w :
  length (loc_dist w) = m → length (known w) = m →
  Z.of_nat ((k + 1) * m) ≤ INT_MAX →
  is_Some (Dijkstra_my_min (Z.of_nat m) (Z.of_nat k) w).
Proof.
  intros Ld Lk Hmax. unfold Dijkstra_my_min.
  destruct (Find_min_dist_total (loc_dist w) (known w) m) as [u Hu]; [lia..|].
  rewrite Hu. simpl. destruct (u <? INFINITY) eqn:E; [|done].
  apply Z.ltb_lt in E.
  destruct (Find_min_dist_spec _ _ _ _ Hu)
    as [[-> _]|(un & md & -> & Hlt & _ & _ & Hdu & _)]; [lia|].
  rewrite rd_nat, Hdu. simpl. unfold int_mul, int_add.
  rewrite checked_in by (unfold INT_MIN; nia). simpl.
  rewrite checked_in by (unfold INT_MIN; nia). done.
Qed.

Section update_total.
Context (mat : list Z) (N m : nat) (ws : list proc).
Hypothesis Hwf : wf_procs mat N m ws.
Hypothesis Hm : (0 < m)%nat.
Hypothesis Hmax : Z.of_nat (N * N) ≤ INT_MAX.
Hypothesis Hval : valid_weights mat.

Lemma wf_block_weight (k : nat) w (i j : nat) x :
  ws !! k = Some w → (i < N)%nat → (j < m)%nat →
  loc_mat w !! (i * m + j)%nat = Some x → 0 ≤ x ≤ INFINITY.
Proof.
  intros Hk Hi Hj Hx. destruct Hwf as (_ & _ & Hw).
  destruct (Hw k w Hk) as (_ & _ & _ & _ & Hcol).
  rewrite (Hcol i j Hi Hj) in Hx. apply Hval.
  by eapply list_elem_of_lookup_2.
Qed.

(** The update does not fail when the winner is a vertex, at a distance
    from 0 to [INFINITY]. *)
Lemma Dijkstra_update_total (k g0 : nat) md w :
  ws !! k = Some w → (g0 < N)%nat → 0 ≤ md ≤ INFINITY →
  is_Some (Dijkstra_update (Z.of_nat m) (Z.of_nat k) (md, Z.of_nat g0) w).
Proof.
  intros Hk Hg0 Hmd.
  assert (HmN := wf_m_le_N mat N m ws Hwf ltac:(intros ->; done)).
  destruct Hwf as (_ & _ & Hw).
  destruct (Hw k w Hk) as (Ld & Lp & Lk & Lm & _).
  unfold Dijkstra_update. cbn [fst snd].
  assert (Hq : 0 ≤ Z.quot (Z.of_nat g0) (Z.of_nat m) ≤ Z.of_nat g0).
  { rewrite Z.quot_div_nonneg by lia. split; [apply Z.div_pos; lia|].
    apply Z.div_le_upper_bound; nia. }
  assert (Hr : 0 ≤ Z.rem (Z.of_nat g0) (Z.of_nat m) < Z.of_nat m).
  { apply Z.rem_bound_pos; lia. }
  assert (Hdiv : int_div (Z.of_nat g0) (Z.of_nat m)
                 = Some (Z.quot (Z.of_nat g0) (Z.of_nat m))).
  { unfold int_div. replace (Z.of_nat m =? 0) with false
      by (symmetry; apply Z.eqb_neq; lia).
    apply checked_in. unfold INT_MIN. nia. }
  rewrite Hdiv. simpl.
  assert (Hw1 : ∃ w1,
    (if Z.quot (Z.of_nat g0) (Z.of_nat m) =? Z.of_nat k
     then loc_u ← int_rem (Z.of_nat g0) (Z.of_nat m);
          kn ← wr (known w) loc_u 1; Some (set_known w kn)
     else Some w) = Some w1 ∧
    loc_mat w1 = loc_mat w ∧ length (loc_dist w1) = m ∧
    length (loc_pred w1) = m ∧ length (known w1) = m).
  { destruct (Z.quot (Z.of_nat g0) (Z.of_nat m) =? Z.of_nat k).
    - eexists. split.
      + apply bind_Some. eexists. split.
        { unfold int_rem. replace (Z.of_nat m =? 0) with false
            by (symmetry; apply Z.eqb_neq; lia).
          apply checked_in. unfold INT_MIN. nia. }
        apply bind_Some. eexists. split; [apply wr_Some; split; [lia|done]|].
        done.
      + simpl. rewrite length_insert. done.
    - by exists w. }
  destruct Hw1 as (w1 & -> & Em & Ld1 & Lp1 & Lk1). simpl.
  destruct (for_range_total
    (Dijkstra_relax_body (Z.of_nat m) md (Z.of_nat g0))
    (λ _ w', loc_mat w' = loc_mat w ∧ length (loc_dist w') = m ∧
             length (loc_pred w') = m ∧ length (known w') = m)
    (Z.of_nat m) w1) as (w' & Hw' & _); [lia|done| |by rewrite Hw'].
  intros i t Hi (Emt & Ldt & Lpt & Lkt). unfold Dijkstra_relax_body.
  destruct (rd_is_Some (known t) i) as [kv Hkv]; [lia|]. rewrite Hkv. simpl.
  destruct (kv =? 0); [|by exists t].
  destruct (rd_is_Some (loc_mat t) (Z.of_nat g0 * Z.of_nat m + i))
    as [x Hx]; [rewrite Emt; nia|].
  destruct (rd_is_Some (loc_dist t) i) as [dv Hdv]; [lia|].
  assert (Hxr : 0 ≤ x ≤ INFINITY).
  { apply rd_Some in Hx as [_ Hx]. rewrite Emt in Hx.
    apply (wf_block_weight k w g0 (Z.to_nat i)); [done|done|lia|].
    by replace (g0 * m + Z.to_nat i)%nat
      with (Z.to_nat (Z.of_nat g0 * Z.of_nat m + i)) by lia. }
  unfold int_mul, int_add.
  rewrite checked_in by (unfold INT_MIN; nia). simpl.
  rewrite checked_in by (unfold INT_MIN; nia). simpl.
  rewrite Hx. simpl.
  rewrite checked_in by (unfold INT_MIN, INT_MAX, INFINITY in *; lia). simpl.
  rewrite Hdv. simpl.
  destruct (md + x <? dv); [|by exists t].
  eexists. split.
  - apply bind_Some. eexists. split; [apply wr_Some; split; [lia|done]|].
    apply bind_Some. eexists. split; [apply wr_Some; split; [lia|done]|].
    done.
  - simpl. rewrite !length_insert. done.
Qed.
End update_total.

Section round_total.
Context (mat : list Z) (N m : nat) (ws : list proc).
Hypothesis Hwf : wf_procs mat N m ws.
Hypothesis Hm : (0 < m)%nat.
Hypothesis HN : Z.of_nat N ≤ INFINITY.
Hypothesis Hmax : Z.of_nat (N * N) ≤ INT_MAX.
Hypothesis Hval : valid_weights mat.
Hypothesis Hnn : dist_nonneg ws.

(** A round does not fail when some unknown vertex is at a distance under
    [INFINITY]; distances stay non-negative. *)
Lemma Dijkstra_round_total d u :
  seq_find_min (gathered_dist ws) (gathered_known ws) N = Some (d, u) →
  d < INFINITY →
  ∃ ws', Dijkstra_round (Z.of_nat m) ws = Some ws' ∧ dist_nonneg ws'.
Proof.
  intros Hpick Hd.
  assert (Hspec := seq_find_min_spec (gathered_dist ws) (gathered_known ws) N
            ltac:(by rewrite (wf_dist_length mat N m ws Hwf),
                             (wf_known_length mat N m ws Hwf))).
  rewrite Hpick in Hspec. destruct Hspec as (Hu & Hku & Hdu & _).
  destruct (wf_vertex mat N m ws Hwf u Hu) as (k & j & w & Hk & Hj & ->).
  assert (Hne : ws ≠ []) by (intros ->; done).
  assert (HmN := wf_m_le_N mat N m ws Hwf Hne).
  assert (HNeq : N = (length ws * m)%nat) by by destruct Hwf.
  unfold gathered_known in Hku. unfold gathered_dist in Hdu.
  rewrite (lookup_pieces known m ws) with (w := w) in Hku;
    [|by apply (wf_lengths mat N m ws Hwf); auto|done..].
  rewrite (lookup_pieces loc_dist m ws) with (w := w) in Hdu;
    [|by apply (wf_lengths mat N m ws Hwf); auto|done..].
  (* the contributions *)
  destruct (each_rank_total (Dijkstra_my_min (Z.of_nat m)) ws 0) as [mins Hmins].
  { intros i wi Hi. rewrite Z.add_0_l. apply Dijkstra_my_min_total.
    - by apply (wf_lengths mat N m ws Hwf loc_dist ltac:(auto) i).
    - by apply (wf_lengths mat N m ws Hwf known ltac:(auto) i).
    - apply lookup_lt_Some in Hi. nia. }
  fold (spmd (Dijkstra_my_min (Z.of_nat m)) ws) in Hmins.
  assert (Hlm := spmd_length _ _ _ Hmins).
  destruct mins as [|c cs]; [destruct ws; [done|simpl in Hlm; lia]|].
  set (r := foldl MPI_MINLOC c cs).
  destruct (foldl_MINLOC_least cs c) as [Hrin Hleast]. fold r in Hrin, Hleast.
  (* process [k] has a candidate, so the winner is a vertex *)
  destruct (spmd_lookup _ _ _ Hmins k w Hk) as (ck & Hck & Hmk).
  apply Dijkstra_my_min_spec in Hmk; [|lia].
  destruct Hmk as [[_ Hno]|(unk & mdk & -> & _ & Hmdk & _ & _ & Hmink)].
  { specialize (Hno j d ltac:(lia) Hku Hdu). lia. }
  destruct (Hmink j d ltac:(lia) Hku Hdu) as [Hle _].
  assert (Hrk := Hleast _ (list_elem_of_lookup_2 _ _ _ Hck)). simpl in Hrk.
  apply list_elem_of_lookup_1 in Hrin as [k0 Hk0].
  destruct (lookup_lt_is_Some_2 ws k0) as [w0 Hw0].
  { rewrite <- Hlm. by eapply lookup_lt_Some. }
  destruct (spmd_lookup _ _ _ Hmins k0 w0 Hw0) as (c0 & Hc0 & Hm0).
  rewrite Hk0 in Hc0. inversion Hc0; subst c0. clear Hc0.
  apply Dijkstra_my_min_spec in Hm0; [|lia].
  destruct Hm0 as [[Er _]|(un & md & Er & Hun & Hmd & _ & Hdun & _)].
  { rewrite Er in Hrk. simpl in Hrk. lia. }
  assert (Hmd0 : 0 ≤ md) by (by eapply (Hnn k0 un w0)).
  assert (Hg0 := wf_index_bound mat N m ws Hwf k0 un w0 Hw0 ltac:(lia)).
  assert (Hupd : is_Some (spmd (λ i wi, Dijkstra_update (Z.of_nat m) i r wi) ws)).
  { unfold spmd. apply each_rank_total. intros i wi Hi. rewrite Z.add_0_l, Er.
    replace (Z.of_nat un + Z.of_nat k0 * Z.of_nat m)
      with (Z.of_nat (k0 * m + un)) by lia.
    apply (Dijkstra_update_total mat N m ws Hwf Hm Hmax Hval); [done|done|lia]. }
  destruct Hupd as [ws' Hws']. exists ws'. split.
  - unfold Dijkstra_round. rewrite Hmins. cbn [mbind option_bind MPI_Allreduce].
    fold r. unfold spmd in *. rewrite each_rank_zip_replicate; [done|].
    simpl in Hlm. simpl. lia.
  - intros i j' wi' d' Hi' Hd'.
    destruct (lookup_lt_is_Some_2 ws i) as [wi Hi].
    { rewrite <- (spmd_length _ _ _ Hws'). by eapply lookup_lt_Some. }
    destruct (spmd_lookup _ _ _ Hws' i wi Hi) as (wi'' & Hi'' & Hup).
    rewrite Hi' in Hi''. inversion Hi''; subst wi''. clear Hi''.
    assert (Hj' : (j' < m)%nat).
    { apply lookup_lt_Some in Hd'.
      destruct (update_keeps_wf mat N m ws Hwf i r wi wi' Hi Hup) as (Ld' & _).
      by rewrite Ld' in Hd'. }
    rewrite Er in Hup.
    destruct (update_at mat N m ws Hwf Hm i j' k0 un md wi wi' ltac:(lia) Hg0
                Hi Hj' Hup) as (_ & kk & dv & _ & Hdv & Hz & Hnz).
    destruct (decide (kk = 0)) as [E|E].
    + destruct (Hz E) as (x & Hx & Hres).
      assert (0 ≤ x ≤ INFINITY)
        by (apply Hval; by eapply list_elem_of_lookup_2).
      destruct (md + x <? dv); destruct Hres as [Hres _];
        rewrite Hres in Hd'; inversion Hd'; subst d'; [lia|].
      by eapply (Hnn i j' wi).
    + destruct (Hnz E) as [Hres _]. rewrite Hres in Hd'. inversion Hd'; subst.
      by eapply (Hnn i j' wi).
Qed.
End round_total.

Lemma Dijkstra_rounds_total mat (N m : nat) :
  (0 < m)%nat → Z.of_nat N ≤ INFINITY → Z.of_nat (N * N) ≤ INT_MAX →
  valid_weights mat →
  ∀ (k : nat) ws (k0 : nat),
    wf_procs mat N m ws → gathered ws = seq_rounds mat N k0 →
    dist_nonneg ws →
    (∀ i : nat, (k0 ≤ i < k0 + k)%nat → seq_progress mat N i) →
    is_Some (Dijkstra_rounds (Z.of_nat m) k ws).
Proof.
  intros Hm HN Hmax Hval. induction k as [|k IH]; intros ws k0 Hwf Hg Hnn Hpr.
  - done.
  - destruct (Hpr k0 ltac:(lia)) as (d & u & Hpick & Hd).
    rewrite <- Hg in Hpick. cbn [gathered sdist sknown] in Hpick.
    destruct (Dijkstra_round_total mat N m ws Hwf Hm HN Hmax Hval Hnn d u
                Hpick Hd) as (ws1 & Hround & Hnn1).
    destruct (Dijkstra_round_simulates mat N m ws Hwf Hm HN ws1 Hround)
      as [Hwf1 Hg1].
    cbn [Dijkstra_rounds]. rewrite Hround. simpl.
    apply (IH ws1 (S k0)); [done| |done|].
    + rewrite Hg1, Hg. done.
    + intros i Hi. apply Hpr. lia.
Qed.

(** On [p] processes, [p] dividing [n], with weights from 0 to [INFINITY]
    and a matrix the program can hold, the computation completes as soon
    as the reference finds, in each of its [n - 1] rounds, a vertex at a
    distance under [INFINITY]. *)
Theorem main_compute_total (p : nat) (n : Z) input :
  (0 < p)%nat → 0 < n → Z.rem n (Z.of_nat p) = 0 →
  n * n ≤ INT_MAX → n * n ≤ Z.of_nat (length input) →
  valid_weights (take (Z.to_nat (n * n)) input) →
  (∀ i : nat, Z.of_nat i < n - 1 →
     seq_progress (take (Z.to_nat (n * n)) input) (Z.to_nat n) i) →
  is_Some (main_compute p n input).
Proof.
  intros Hp Hn Hrem Hmax Hin Hval Hpr.
  destruct (divides_blocks p n Hp ltac:(lia) Hrem) as (N & m & -> & Em & HNp).
  replace (Z.to_nat (Z.of_nat N * Z.of_nat N)) with (N * N)%nat in * by lia.
  rewrite Nat2Z.id in Hpr.
  assert (Hm : (0 < m)%nat) by nia.
  destruct (Read_matrix_total N m p input) as (mats & Hread & Hlen & Hblk);
    [lia|nia|lia|lia|].
  assert (Hinit : is_Some (spmd (Dijkstra_init (Z.of_nat m)) mats)).
  { unfold spmd. apply each_rank_total. intros k blk Hk.
    apply Dijkstra_init_total; [lia| |unfold INT_MAX in *; nia].
    destruct (Hblk k blk Hk) as [-> _]. nia. }
  destruct Hinit as [ws0 Hws0].
  assert (Hmat : length (take (N * N) input) = (N * N)%nat).
  { rewrite length_take. lia. }
  destruct (Dijkstra_init_simulates _ N m mats ws0 Hm ltac:(by rewrite Hlen)
              Hmat Hblk Hws0) as [Hwf Hg].
  assert (Hnn : dist_nonneg ws0).
  { intros k j w d Hk Hd.
    destruct (lookup_lt_is_Some_2 mats k) as [blk Hb].
    { rewrite <- (spmd_length _ _ _ Hws0). by eapply lookup_lt_Some. }
    destruct (spmd_lookup _ _ _ Hws0 k blk Hb) as (w' & Hk' & Hi).
    rewrite Hk in Hk'. inversion Hk'; subst w'.
    apply Dijkstra_init_Some in Hi as (_ & Ld & _ & _ & Hent).
    assert (Hj : (j < m)%nat) by (rewrite <- Ld; by eapply lookup_lt_Some).
    destruct (Hent j Hj) as (_ & Edj & _). rewrite Edj in Hd.
    destruct (Hblk k blk Hb) as [_ Hcol].
    destruct (Hcol O j ltac:(lia) Hj) as (x & Hx & Hmx).
    simpl in Hx. rewrite Hd in Hx. inversion Hx; subst x.
    apply Hval. by eapply list_elem_of_lookup_2. }
  destruct (Dijkstra_rounds_total _ N m Hm
              ltac:(unfold INT_MAX, INFINITY in *; nia) ltac:(lia) Hval
              (N - 1) ws0 0 Hwf Hg Hnn) as [ws Hws].
  { intros i Hi. apply Hpr. lia. }
  exists ws. unfold main_compute, Dijkstra.
  assert (Hdiv : int_div (Z.of_nat N) (Z.of_nat p) = Some (Z.of_nat m)).
  { unfold int_div. replace (Z.of_nat p =? 0) with false
      by (symmetry; apply Z.eqb_neq; lia).
    rewrite Em. apply checked_in. unfold INT_MIN, INT_MAX in *. nia. }
  rewrite Hdiv. simpl. unfold int_mul at 1.
  rewrite checked_in by (unfold INT_MIN, INT_MAX in *; nia). simpl.
  rewrite Hread. simpl. rewrite Hws0. simpl.
  by replace (Z.to_nat (Z.of_nat N - 1)) with (N - 1)%nat by lia.
Qed.

(** The sample of the header of p3.c, on two processes. *)
Example main_sample :
  main 5 2 4 [0; 1; 2; 3; 4; 0; 5; 6; 7; 8; 0; 9; 8; 7; 6; 0] =
  Finished ([(1, 1); (2, 2); (3, 3)], [[0; 1]; [0; 2]; [0; 3]]).
Proof. reflexivity. Qed.

(** ** Runs that fail *)

(** A round that does not fail has a winner under [INFINITY]: the vertex
    the reference picks. *)
Lemma Dijkstra_round_progress mat (N m : nat) ws ws' d u :
  wf_procs mat N m ws → (0 < m)%nat → Z.of_nat N ≤ INFINITY →
  Dijkstra_round (Z.of_nat m) ws = Some ws' →
  seq_find_min (gathered_dist ws) (gathered_known ws) N = Some (d, u) →
  d < INFINITY.
Proof.
  intros Hwf Hm HN Hround Hpick.
  assert (Hspec := seq_find_min_spec (gathered_dist ws) (gathered_known ws) N
            ltac:(by rewrite (wf_dist_length mat N m ws Hwf),
                             (wf_known_length mat N m ws Hwf))).
  rewrite Hpick in Hspec. destruct Hspec as (Hu & Hku & Hdu & Hmin).
  destruct (wf_vertex mat N m ws Hwf u Hu) as (k & j & w & Hk & Hj & ->).
  assert (Hne : ws ≠ []) by (intros ->; done).
  assert (HmN := wf_m_le_N mat N m ws Hwf Hne).
  apply Dijkstra_round_Some in Hround as (mins & r & Hmins & [Hrin _] & Hupd).
  apply list_elem_of_lookup_1 in Hrin as [k0 Hk0].
  destruct (lookup_lt_is_Some_2 ws k0) as [w0 Hw0].
  { rewrite <- (spmd_length _ _ _ Hmins). by eapply lookup_lt_Some. }
  destruct (spmd_lookup _ _ _ Hmins k0 w0 Hw0) as (c0 & Hc0 & Hm0).
  rewrite Hk0 in Hc0. inversion Hc0; subst c0. clear Hc0.
  apply Dijkstra_my_min_spec in Hm0; [|lia].
  destruct Hm0 as [[-> _]|(un & md & -> & Hun & Hmd & Hkun & Hdun & _)].
  - (* the sentinel won: process [k] cannot hold the unknown vertex [u] *)
    exfalso. destruct (spmd_lookup _ _ _ Hupd k w Hk) as (w' & _ & Hup).
    destruct (sentinel_update mat N m ws Hwf Hm HN k j w w' Hk Hj Hup)
      as ((kk & Hkk & Hnz) & _).
    unfold gathered_known in Hku.
    rewrite (lookup_pieces known m ws) with (w := w) in Hku;
      [|by apply (wf_lengths mat N m ws Hwf); auto|done..].
    congruence.
  - (* a vertex won, at a distance under [INFINITY]; [d] is no larger *)
    assert (Hg0 := wf_index_bound mat N m ws Hwf k0 un w0 Hw0 ltac:(lia)).
    destruct (Hmin (k0 * m + un)%nat md ltac:(lia)) as [Hle _]; [| |lia].
    + unfold gathered_known.
      rewrite (lookup_pieces known m ws) with (w := w0); try done; [|lia].
      apply (wf_lengths mat N m ws Hwf); auto.
    + unfold gathered_dist.
      rewrite (lookup_pieces loc_dist m ws) with (w := w0); try done; [|lia].
      apply (wf_lengths mat N m ws Hwf); auto.
Qed.

Lemma unknown_count_replicate (N : nat) : unknown_count (replicate N 0) = N.
Proof.
  unfold unknown_count. induction N as [|N IH]; [done|].
  change (replicate (S N) 0) with (0 :: replicate N 0).
  rewrite filter_cons_True by done. simpl. by rewrite IH.
Qed.

(** A round of the reference marks one vertex at most. *)
Lemma seq_rounds_count mat (N k : nat) :
  length mat = (N * N)%nat →
  (N - 1 - k ≤ unknown_count (sknown (seq_rounds mat N k)))%nat.
Proof.
  intros Hmat. induction k as [|k IH].
  - unfold seq_rounds, seq_init. simpl. destruct N as [|N]; [simpl; lia|].
    assert (H := unknown_count_insert (replicate (S N) 0) 0 eq_refl).
    rewrite unknown_count_replicate in H. lia.
  - assert (Hinv := seq_rounds_inv mat N k Hmat).
    change (seq_rounds mat N (S k))
      with (seq_round mat N (seq_rounds mat N k)).
    set (st := seq_rounds mat N k) in *. unfold seq_round.
    assert (Hspec := seq_find_min_spec (sdist st) (sknown st) N
              ltac:(by rewrite (inv_ldist _ _ _ _ Hinv),
                               (inv_lknown _ _ _ _ Hinv))).
    destruct (seq_find_min (sdist st) (sknown st) N) as [[d u]|]; [|lia].
    destruct Hspec as (_ & Hku & _). cbn [sknown].
    assert (H := unknown_count_insert (sknown st) u Hku). lia.
Qed.

Lemma Dijkstra_rounds_split loc_n (a b : nat) ws ws' :
  Dijkstra_rounds loc_n (a + b) ws = Some ws' →
  ∃ ws1, Dijkstra_rounds loc_n a ws = Some ws1 ∧
         Dijkstra_rounds loc_n b ws1 = Some ws'.
Proof.
  revert ws. induction a as [|a IH]; intros ws H.
  - by exists ws.
  - simpl in H. apply bind_Some in H as (ws0 & Hr & H).
    destruct (IH ws0 H) as (ws1 & Ha & Hb). exists ws1.
    split; [|done]. simpl. rewrite Hr. done.
Qed.

(** In a run that completes the reference found a vertex under
    [INFINITY] in every round. *)
Lemma main_compute_progress (p : nat) (n : Z) input ws (i : nat) :
  main_compute p n input = Some ws →
  Z.rem n (Z.of_nat p) = 0 →
  Z.of_nat i < n - 1 →
  seq_progress (take (Z.to_nat (n * n)) input) (Z.to_nat n) i.
Proof.
  intros Hrun Hrem Hi. rewrite main_compute_upto in Hrun.
  destruct (main_upto_Some _ p n input ws Hrun Hrem)
    as (N & m & ws0 & -> & Em & Hp & Hm & HNp & HN & Hin & Hwf & _ & Hg0
        & Hrounds).
  replace (Z.to_nat (Z.of_nat N * Z.of_nat N)) with (N * N)%nat by lia.
  rewrite Nat2Z.id.
  replace (Z.to_nat (Z.of_nat N - 1)) with (i + (1 + (N - 1 - i - 1)))%nat
    in Hrounds by lia.
  apply Dijkstra_rounds_split in Hrounds as (wsi & Hpre & Hrest).
  apply Dijkstra_rounds_split in Hrest as (wsi' & Hround & _).
  simpl in Hround. apply bind_Some in Hround as (ws1 & Hround & _).
  destruct (Dijkstra_rounds_simulate _ N m Hm HN i ws0 wsi Hwf Hpre)
    as [Hwfi Hgi].
  assert (Hmat : length (take (N * N) input) = (N * N)%nat).
  { rewrite length_take. lia. }
  assert (Hgi' : gathered wsi = seq_rounds (take (N * N) input) N i).
  { by rewrite Hgi, Hg0. }
  assert (Hcount := seq_rounds_count _ N i Hmat).
  assert (Hinv := seq_rounds_inv _ N i Hmat).
  unfold seq_progress. rewrite <- Hgi'. cbn [gathered sdist sknown].
  rewrite <- Hgi' in Hcount, Hinv. cbn [gathered sknown] in Hcount.
  assert (Hspec := seq_find_min_spec (gathered_dist wsi) (gathered_known wsi)
            N ltac:(by rewrite (wf_dist_length _ N m wsi Hwfi),
                               (wf_known_length _ N m wsi Hwfi))).
  destruct (seq_find_min (gathered_dist wsi) (gathered_known wsi) N)
    as [[d u]|] eqn:Hpick.
  - exists d, u. split; [done|].
    by eapply (Dijkstra_round_progress _ N m wsi ws1).
  - exfalso. rewrite unknown_count_0 in Hcount; [lia|].
    intros v Hv. destruct (decide (v < N)%nat) as [Hlt|Hge].
    + by apply (Hspec v).
    + apply lookup_lt_Some in Hv.
      rewrite (wf_known_length _ N m wsi Hwfi) in Hv. lia.
Qed.

(** With weights from 0 to [INFINITY], [p] dividing [n] and a matrix the
    program can hold, the computation completes exactly when the reference
    finds a vertex under [INFINITY] in each of its [n - 1] rounds. *)
Theorem main_compute_completes_iff (p : nat) (n : Z) input :
  (0 < p)%nat → 0 < n → Z.rem n (Z.of_nat p) = 0 →
  n * n ≤ INT_MAX → n * n ≤ Z.of_nat (length input) →
  valid_weights (take (Z.to_nat (n * n)) input) →
  is_Some (main_compute p n input) ↔
  ∀ i : nat, Z.of_nat i < n - 1 →
    seq_progress (take (Z.to_nat (n * n)) input) (Z.to_nat n) i.
Proof.
  intros Hp Hn Hrem Hmax Hin Hval. split.
  - intros [ws Hws] i Hi. by eapply main_compute_progress.
  - by apply main_compute_total.
Qed.

(** * Shortest paths *)

(** ** One round of the reference, vertex by vertex *)

Lemma weight_nonneg mat (N u v : nat) :
  nonneg_weights mat → length mat = (N * N)%nat → (u < N)%nat → (v < N)%nat →
  0 ≤ weight mat N u v.
Proof.
  intros Hnn Hlen Hu Hv. unfold weight.
  destruct (lookup_lt_is_Some_2 mat (u * N + v)) as [x Hx]; [nia|].
  rewrite (list_lookup_total_correct _ _ _ Hx).
  unfold nonneg_weights in Hnn. rewrite Forall_forall in Hnn.
  apply Hnn. by eapply list_elem_of_lookup_2.
Qed.

Lemma source_dist_lookup (dist : list Z) (v : nat) d :
  v ≠ O → dist !! v = Some d → source_dist dist v = d.
Proof.
  intros Hv Hd. unfold source_dist. destruct (decide (v = O)); [done|].
  by apply list_lookup_total_correct.
Qed.

(** What a round that picks [u] at distance [du] does to each vertex. *)
Lemma seq_round_pick mat (N k : nat) st du u :
  seq_inv mat N k st →
  seq_find_min (sdist st) (sknown st) N = Some (du, u) →
  (u < N)%nat ∧ u ≠ O ∧ sknown st !! u = Some 0 ∧
  source_dist (sdist st) u = du ∧
  (∀ v : nat, (v < N)%nat → sknown st !! v = Some 0 →
     du ≤ source_dist (sdist st) v) ∧
  sknown (seq_round mat N st) = <[u := 1]> (sknown st) ∧
  ∀ x : nat, (x < N)%nat →
    source_dist (sdist (seq_round mat N st)) x =
    if bool_decide (sknown st !! x = Some 0 ∧ x ≠ u ∧
                    du + weight mat N u x < source_dist (sdist st) x)
    then du + weight mat N u x else source_dist (sdist st) x.
Proof.
  intros [Ld Lp Lk H0 Hpred Hpath Hcost Hcount Hsrc] Hpick.
  assert (Hspec := seq_find_min_spec (sdist st) (sknown st) N
            ltac:(by rewrite Ld, Lk)).
  unfold seq_round. rewrite Hpick in *.
  destruct Hspec as (Hu & Hku & Hdu & Hmin).
  assert (Hu0 : u ≠ O).
  { intros ->. destruct (H0 ltac:(lia)) as (k0 & Hk0 & Hnz). congruence. }
  assert (HD : ∀ v : nat, (v < N)%nat → sknown st !! v = Some 0 →
            v ≠ O ∧ ∃ d, sdist st !! v = Some d ∧ source_dist (sdist st) v = d).
  { intros v Hv Hkv.
    assert (Hv0 : v ≠ O).
    { intros ->. destruct (H0 ltac:(lia)) as (k0 & Hk0 & Hnz). congruence. }
    split; [done|].
    destruct (lookup_lt_is_Some_2 (sdist st) v ltac:(lia)) as [d Hd].
    exists d. split; [done|]. by apply source_dist_lookup. }
  split; [done|]. split; [done|]. split; [done|].
  split; [by apply source_dist_lookup|].
  split.
  { intros v Hv Hkv. destruct (HD v Hv Hkv) as (_ & d & Hd & ->).
    by apply (Hmin v d); [lia|..]. }
  cbn [sdist sknown]. split; [done|].
  intros x Hx.
  destruct (lookup_lt_is_Some_2 (sdist st) x ltac:(lia)) as [dx Hdx].
  destruct (lookup_lt_is_Some_2 (sknown st) x ltac:(lia)) as [kx Hkx].
  unfold source_dist at 1. destruct (decide (x = O)) as [->|Hx0].
  { rewrite bool_decide_eq_false_2; [done|]. intros (Hk & _).
    destruct (H0 ltac:(lia)) as (k0 & Hk0 & Hnz). congruence. }
  rewrite (list_lookup_total_correct _ _ _
             (lookup_imap_Some _ _ _ _ Hdx)).
  unfold seq_shorter. rewrite (list_lookup_total_correct _ _ _ Hdx).
  rewrite (source_dist_lookup _ _ _ Hx0 Hdx).
  destruct (decide (x = u)) as [->|Hne].
  - rewrite list_lookup_total_insert_eq by lia. simpl.
    rewrite bool_decide_eq_false_2; [done|]. intros (_ & ? & _). done.
  - rewrite list_lookup_total_insert_ne by done.
    rewrite (list_lookup_total_correct _ _ _ Hkx).
    destruct (kx =? 0) eqn:Ek; simpl.
    + apply Z.eqb_eq in Ek. subst kx.
      destruct (du + weight mat N u x <? dx) eqn:El.
      * apply Z.ltb_lt in El. by rewrite bool_decide_eq_true_2.
      * apply Z.ltb_ge in El. rewrite bool_decide_eq_false_2; [done|].
        intros (_ & _ & ?). lia.
    + apply Z.eqb_neq in Ek. rewrite bool_decide_eq_false_2; [done|].
      intros (E & _). congruence.
Qed.

Lemma seq_round_idle mat (N k : nat) st :
  seq_inv mat N k st →
  seq_find_min (sdist st) (sknown st) N = None →
  seq_round mat N st = st ∧
  ∀ v : nat, (v < N)%nat → is_known (sknown st) v.
Proof.
  intros [Ld Lp Lk H0 Hpred Hpath Hcost Hcount Hsrc] Hpick.
  assert (Hspec := seq_find_min_spec (sdist st) (sknown st) N
            ltac:(by rewrite Ld, Lk)).
  unfold seq_round. rewrite Hpick in *. split; [done|].
  intros v Hv.
  destruct (lookup_lt_is_Some_2 (sknown st) v ltac:(lia)) as [kv Hkv].
  exists kv. split; [done|]. intros ->. by apply (Hspec v).
Qed.

Lemma is_known_insert (known : list Z) (u x : nat) :
  (u < length known)%nat →
  is_known (<[u := 1]> known) x ↔ x = u ∨ is_known known x.
Proof.
  intros Hu. unfold is_known. destruct (decide (x = u)) as [->|Hne].
  - rewrite list_lookup_insert_eq by done. split; [by left|].
    intros _. by exists 1.
  - rewrite list_lookup_insert_ne by done. split; [by right|].
    by intros [?|?].
Qed.

Lemma seq_init_opt mat (N : nat) :
  nonneg_weights mat → length mat = (N * N)%nat → seq_opt mat N (seq_init mat N).
Proof.
  intros Hnn Hlen.
  assert (HD : ∀ v : nat, (v < N)%nat → v ≠ O →
            source_dist (sdist (seq_init mat N)) v = weight mat N 0 v).
  { intros v Hv Hv0. unfold source_dist, weight. simpl.
    destruct (decide (v = O)); [done|].
    apply lookup_total_eq. rewrite lookup_take_lt by lia. done. }
  assert (HK : ∀ u : nat, is_known (sknown (seq_init mat N)) u → u = O).
  { simpl. intros u (k & Hk & Hnz). destruct u as [|u]; [done|].
    rewrite list_lookup_insert_ne in Hk by done.
    apply lookup_replicate in Hk as [-> _]. done. }
  assert (H0 : ∀ v : nat, (v < N)%nat →
            0 ≤ source_dist (sdist (seq_init mat N)) v).
  { intros v Hv. destruct (decide (v = O)) as [->|Hv0]; [done|].
    rewrite HD by done. apply weight_nonneg; try done. lia. }
  split.
  - done.
  - intros u v Hu Hv Hk. apply HK in Hk as ->.
    change (source_dist (sdist (seq_init mat N)) 0) with 0.
    destruct (decide (v = O)) as [->|Hv0].
    + change (source_dist (sdist (seq_init mat N)) 0) with 0.
      assert (H := weight_nonneg mat N O O Hnn Hlen Hu Hu). lia.
    + rewrite HD by done. lia.
  - intros u v Hu Hv Hk _. apply HK in Hk as ->. by apply H0.
Qed.

Lemma seq_round_opt mat (N k : nat) st :
  nonneg_weights mat → length mat = (N * N)%nat →
  seq_inv mat N k st → seq_opt mat N st → seq_opt mat N (seq_round mat N st).
Proof.
  intros Hnn Hlen Hinv [J3 J1 J2].
  destruct (seq_find_min (sdist st) (sknown st) N) as [[du u]|] eqn:Hpick.
  2:{ destruct (seq_round_idle mat N k st Hinv Hpick) as [-> _]. by split. }
  destruct (seq_round_pick mat N k st du u Hinv Hpick)
    as (Hu & Hu0 & Hku & HDu & Hmin & Hk' & HD').
  assert (Lk := inv_lknown _ _ _ _ Hinv).
  set (st' := seq_round mat N st) in *. clearbody st'.
  assert (W : ∀ x : nat, (x < N)%nat → 0 ≤ weight mat N u x).
  { intros x Hx. by apply weight_nonneg. }
  assert (Hdu0 : 0 ≤ du) by (rewrite <- HDu; by apply J3).
  assert (F1 : ∀ x : nat, (x < N)%nat →
            source_dist (sdist st') x ≤ source_dist (sdist st) x).
  { intros x Hx. rewrite (HD' x Hx). case_bool_decide; lia. }
  assert (F2 : ∀ x : nat, (x < N)%nat → is_known (sknown st') x →
            source_dist (sdist st') x = source_dist (sdist st) x).
  { intros x Hx Hkx. rewrite (HD' x Hx).
    rewrite bool_decide_eq_false_2; [done|]. intros (Hk0 & Hne & _).
    rewrite Hk' in Hkx.
    apply (is_known_insert (sknown st) u x ltac:(lia)) in Hkx as [?|(kx & E & Hnz)];
      [done|congruence]. }
  assert (F3 : ∀ x : nat, (x < N)%nat → sknown st' !! x = Some 0 →
            sknown st !! x = Some 0 ∧ x ≠ u ∧
            source_dist (sdist st') x ≤ du + weight mat N u x ∧
            du ≤ source_dist (sdist st') x).
  { intros x Hx Hkx. rewrite Hk' in Hkx.
    assert (Hne : x ≠ u).
    { intros ->. rewrite list_lookup_insert_eq in Hkx by lia. done. }
    rewrite list_lookup_insert_ne in Hkx by done.
    split; [done|]. split; [done|]. rewrite (HD' x Hx).
    assert (H := Hmin x Hx Hkx). assert (Hw := W x Hx).
    case_bool_decide as E; [lia|].
    split; [|done].
    destruct (decide (du + weight mat N u x < source_dist (sdist st) x));
      [|lia].
    destruct E. done. }
  split.
  - intros v Hv. rewrite (HD' v Hv). assert (Hw := W v Hv).
    assert (H := J3 v Hv). case_bool_decide; lia.
  - intros a v Ha Hv Hka. rewrite (F2 a Ha Hka).
    rewrite Hk' in Hka.
    apply (is_known_insert (sknown st) u a ltac:(lia)) in Hka as [->|Hold].
    + rewrite HDu.
      destruct (lookup_lt_is_Some_2 (sknown st') v) as [kv Hkv].
      { rewrite Hk', length_insert. lia. }
      destruct (decide (kv = 0)) as [->|Hnz].
      * by apply F3.
      * assert (Hkv' : is_known (sknown st') v) by by exists kv.
        rewrite (F2 v Hv Hkv'). rewrite Hk' in Hkv'.
        apply (is_known_insert (sknown st) u v ltac:(lia)) in Hkv' as [->|Hold].
        -- rewrite HDu. assert (Hw := W u Hu). lia.
        -- assert (H := J2 v u Hv Hu Hold Hku). rewrite HDu in H.
           assert (Hw := W v Hv). lia.
    + assert (H := J1 a v Ha Hv Hold). assert (H' := F1 v Hv). lia.
  - intros a b Ha Hb Hka Hkb. rewrite (F2 a Ha Hka).
    destruct (F3 b Hb Hkb) as (Hkb0 & Hne & _ & Hge).
    rewrite Hk' in Hka.
    apply (is_known_insert (sknown st) u a ltac:(lia)) in Hka as [->|Hold].
    + by rewrite HDu.
    + assert (H := J2 a u Ha Hu Hold Hku). rewrite HDu in H. lia.
Qed.

Lemma seq_rounds_opt mat (N k : nat) :
  nonneg_weights mat → length mat = (N * N)%nat →
  seq_opt mat N (seq_rounds mat N k).
Proof.
  intros Hnn Hlen. unfold seq_rounds. induction k as [|k IH].
  - by apply seq_init_opt.
  - simpl. apply seq_round_opt with k; try done.
    by apply seq_rounds_inv.
Qed.

(** ** Walks *)

Lemma walk_snoc mat (n : nat) (v : nat) :
  ∀ vs u e, walk n u vs e → (v < n)%nat →
    walk n u (vs ++ [v]) v ∧
    walk_cost mat n u (vs ++ [v]) = walk_cost mat n u vs + weight mat n e v.
Proof.
  induction vs as [|y vs IH]; intros u e [Hall Hlast] Hv.
  - simpl in Hlast. inversion Hlast; subst e. split.
    + split; [by repeat constructor|done].
    + simpl. lia.
  - apply Forall_cons in Hall as [Hy Hall].
    destruct (IH y e) as [[Hall' Hlast'] Hcost]; [by split|done|].
    split.
    + split; [by constructor|]. exact Hlast'.
    + simpl. rewrite Hcost. lia.
Qed.

Lemma walk_cost_nonneg mat (N : nat) :
  nonneg_weights mat → length mat = (N * N)%nat →
  ∀ vs u, (u < N)%nat → Forall (λ x, (x < N)%nat) vs →
          0 ≤ walk_cost mat N u vs.
Proof.
  intros Hnn Hlen. induction vs as [|y vs IH]; intros u Hu Hall; [done|].
  apply Forall_cons in Hall as [Hy Hall]. simpl.
  assert (H := weight_nonneg mat N u y Hnn Hlen Hu Hy).
  assert (H' := IH y Hy Hall). lia.
Qed.

(** When every vertex is known, no walk is shorter than the distances. *)
Lemma walk_lower_bound mat (N : nat) st :
  seq_opt mat N st →
  (∀ v : nat, (v < N)%nat → is_known (sknown st) v) →
  ∀ vs u v, (u < N)%nat → walk N u vs v →
    source_dist (sdist st) v ≤ source_dist (sdist st) u + walk_cost mat N u vs.
Proof.
  intros [J3 J1 J2] Hall. induction vs as [|y vs IH]; intros u v Hu [Hvs Hlast].
  - simpl in Hlast. inversion Hlast; subst v. simpl. lia.
  - apply Forall_cons in Hvs as [Hy Hvs].
    assert (H := IH y v Hy ltac:(by split)).
    assert (H' := J1 u y Hu Hy (Hall u Hu)). simpl. lia.
Qed.

(** A walk from a known vertex to an unknown one meets an unknown vertex
    whose distance is at most the cost of the walk so far. *)
Lemma walk_meets_unknown mat (N : nat) st :
  nonneg_weights mat → length mat = (N * N)%nat →
  length (sknown st) = N → seq_opt mat N st →
  ∀ vs a v, (a < N)%nat → is_known (sknown st) a → walk N a vs v →
    sknown st !! v = Some 0 →
    ∃ x : nat, (x < N)%nat ∧ sknown st !! x = Some 0 ∧
      source_dist (sdist st) x ≤
      source_dist (sdist st) a + walk_cost mat N a vs.
Proof.
  intros Hnn Hlen Lk [J3 J1 J2].
  induction vs as [|y vs IH]; intros a v Ha Hka [Hvs Hlast] Hkv.
  - simpl in Hlast. inversion Hlast; subst v.
    destruct Hka as (k & Hk & Hnz). congruence.
  - apply Forall_cons in Hvs as [Hy Hvs].
    assert (Hay := J1 a y Ha Hy Hka).
    destruct (lookup_lt_is_Some_2 (sknown st) y ltac:(lia)) as [ky Hky].
    destruct (decide (ky = 0)) as [->|Hnz].
    + exists y. split; [done|]. split; [done|]. simpl.
      assert (H := walk_cost_nonneg mat N Hnn Hlen vs y Hy Hvs). lia.
    + destruct (IH y v Hy ltac:(by exists ky) ltac:(by split) Hkv)
        as (x & Hx & Hkx & Hle).
      exists x. split; [done|]. split; [done|]. simpl. lia.
Qed.

(** The chain of a known vertex, read from the source, is a walk whose
    cost is the distance of the vertex. *)
Lemma known_path_walk mat (N k : nat) st :
  seq_inv mat N k st →
  ∀ (s v : nat), known_path (spred st) (sknown st) s v → (v < N)%nat →
    ∃ vs, walk N 0 vs v ∧
          walk_cost mat N 0 vs = source_dist (sdist st) v ∧
          pred_chain (spred st) (Z.of_nat v) (reverse (Z.of_nat <$> vs)).
Proof.
  intros Hinv s v Hp. induction Hp as [H0|v u s Hv Hk Hpv Hp IH]; intros HvN.
  - exists []. split; [by split|]. split; [done|]. constructor.
  - destruct (inv_pred _ _ _ _ Hinv v HvN) as (u' & Hu' & HuN & _).
    rewrite Hpv in Hu'. inversion Hu' as [E]. apply Nat2Z.inj in E. subst u'.
    destruct (IH HuN) as (vs & Hw & Hc & Hch).
    destruct (walk_snoc mat N v vs O u Hw HvN) as [Hw' Hc'].
    exists (vs ++ [v]). split; [done|]. split.
    + rewrite Hc', Hc.
      destruct (inv_cost _ _ _ _ Hinv v ltac:(lia)) as (u2 & Hu2 & Hd).
      rewrite Hpv in Hu2. inversion Hu2 as [E]. apply Nat2Z.inj in E.
      subst u2. symmetry. by apply source_dist_lookup.
    + rewrite fmap_app, reverse_app. simpl.
      apply pred_chain_step with (Z.of_nat u); [lia| |done].
      by rewrite rd_nat.
Qed.

(** After the last round every vertex is known. *)
Lemma seq_Dijkstra_all_known mat (N : nat) :
  length mat = (N * N)%nat →
  ∀ v : nat, (v < N)%nat → is_known (sknown (seq_Dijkstra mat N)) v.
Proof.
  intros Hlen v Hv. unfold seq_Dijkstra.
  assert (Hinv := seq_rounds_inv mat N (N - 1) Hlen).
  destruct (lookup_lt_is_Some_2 (sknown (seq_rounds mat N (N - 1))) v)
    as [kv Hkv].
  { rewrite (inv_lknown _ _ _ _ Hinv). lia. }
  exists kv. split; [done|].
  apply (unknown_count_0_inv (sknown (seq_rounds mat N (N - 1))) v kv);
    [|done].
  assert (H := inv_count _ _ _ _ Hinv). lia.
Qed.

(** The distances of the reference are those of shortest walks. *)
Lemma seq_Dijkstra_shortest mat (N : nat) (v : nat) :
  nonneg_weights mat → length mat = (N * N)%nat → (v < N)%nat →
  let st := seq_Dijkstra mat N in
  ∃ vs, walk N 0 vs v ∧
        walk_cost mat N 0 vs = source_dist (sdist st) v ∧
        pred_chain (spred st) (Z.of_nat v) (reverse (Z.of_nat <$> vs)) ∧
        ∀ vs', walk N 0 vs' v → source_dist (sdist st) v ≤ walk_cost mat N 0 vs'.
Proof.
  intros Hnn Hlen Hv st.
  assert (Hinv : seq_inv mat N (N - 1) st) by by apply seq_rounds_inv.
  assert (Hopt : seq_opt mat N st) by by apply seq_rounds_opt.
  assert (Hall := seq_Dijkstra_all_known mat N Hlen).
  destruct (inv_path _ _ _ _ Hinv v Hv (Hall v Hv)) as (s & _ & Hp).
  destruct (known_path_walk mat N _ st Hinv s v Hp Hv) as (vs & Hw & Hc & Hch).
  exists vs. split; [done|]. split; [done|]. split; [done|].
  intros vs' Hw'.
  assert (H := walk_lower_bound mat N st Hopt Hall vs' O v ltac:(lia) Hw').
  change (source_dist (sdist st) 0) with 0 in H. lia.
Qed.

(** ** What the path loop computes *)

Lemma path_loop_sound pred :
  ∀ (fuel : nat) path (count : nat) w path' count',
    path_loop fuel pred path (Z.of_nat count) w = Finished (path', count') →
    ∃ l, pred_chain pred w l ∧ count' = Z.of_nat (count + length l) ∧
         length path' = length path ∧
         (∀ i : nat, (i < count)%nat → path' !! i = path !! i) ∧
         (∀ i : nat, (i < length l)%nat → path' !! (count + i)%nat = l !! i).
Proof.
  induction fuel as [|fuel IH]; intros path count w path' count' H; [done|].
  simpl in H. destruct (w =? 0) eqn:Ew.
  - apply Z.eqb_eq in Ew. subst w. inversion H; subst. exists [].
    split; [constructor|]. split; [simpl; f_equal; lia|].
    split; [done|]. split; [done|]. simpl. lia.
  - apply Z.eqb_neq in Ew.
    destruct (wr path (Z.of_nat count) w) as [path1|] eqn:Ewr; [|done].
    destruct (int_add (Z.of_nat count) 1) as [c1|] eqn:Eadd; [|done].
    destruct (rd pred w) as [w1|] eqn:Erd; [|done].
    apply int_add_Some in Eadd. subst c1.
    apply wr_Some in Ewr as [Hc ->]. rewrite Nat2Z.id in *.
    replace (Z.of_nat count + 1) with (Z.of_nat (S count)) in H by lia.
    destruct (IH _ _ _ _ _ H) as (l & Hl & -> & Hlen & Hpre & Hnew).
    rewrite length_insert in Hlen.
    exists (w :: l). split; [by econstructor|].
    split; [simpl; f_equal; lia|]. split; [done|]. split.
    + intros i Hi. rewrite Hpre by lia.
      rewrite list_lookup_insert_ne by lia. done.
    + intros [|i] Hi.
      * rewrite Nat.add_0_r, Hpre by lia.
        rewrite list_lookup_insert_eq by lia. done.
      * simpl in Hi. replace (count + S i)%nat with (S count + i)%nat by lia.
        rewrite Hnew by lia. done.
Qed.

Lemma Print_paths_lines_sound pred (fuel : nat) :
  ∀ vs path lines,
    Print_paths_lines fuel pred path vs = Finished lines →
    Forall2 (path_line pred) vs lines.
Proof.
  induction vs as [|v vs IH]; intros path lines H; simpl in H.
  - inversion H. constructor.
  - destruct (path_loop fuel pred path 0 v) as [[path' count]| | |] eqn:E;
      try done.
    cbn [obind] in H.
    destruct (path_loop_sound pred fuel path O v path' count E)
      as (l & Hl & -> & _ & _ & Hnew).
    change (O + length l)%nat with (length l) in H.
    rewrite (print_path_chain path' l) in H by exact Hnew.
    cbn [of_option obind] in H.
    destruct (Print_paths_lines fuel pred path' vs) as [lines'| | |] eqn:E';
      try done.
    cbn [obind] in H. inversion H; subst lines.
    constructor; [|by eapply IH]. by exists l.
Qed.

Lemma path_line_unique pred v line line' :
  path_line pred v line → path_line pred v line' → line = line'.
Proof.
  intros (l & Hl & ->) (l' & Hl' & ->).
  by rewrite (pred_chain_unique pred v l Hl l' Hl').
Qed.

Lemma Forall2_path_line_unique pred vs lines lines' :
  Forall2 (path_line pred) vs lines → Forall2 (path_line pred) vs lines' →
  lines = lines'.
Proof.
  intros H. revert lines'. induction H as [|v line vs lines Hv _ IH];
    intros lines' H'; inversion H'; subst; [done|].
  f_equal; [by eapply path_line_unique|by apply IH].
Qed.

(** What a run that ends has printed, in terms of the gathered vectors. *)
Lemma main_Finished (fuel p : nat) (n : Z) input dists paths :
  main fuel p n input = Finished (dists, paths) →
  Z.rem n (Z.of_nat p) = 0 →
  ∃ ws, main_compute p n input = Some ws ∧
    dists = (λ v, (v, gathered_dist ws !!! Z.to_nat v)) <$> seqZ 1 (n - 1) ∧
    Forall2 (path_line (gathered_pred ws)) (seqZ 1 (n - 1)) paths.
Proof.
  intros Hmain Hrem. unfold main in Hmain.
  destruct (main_compute p n input) as [ws|] eqn:Hrun; [|done].
  cbn [of_option obind] in Hmain. exists ws. split; [done|].
  assert (Hup := Hrun). rewrite main_compute_upto in Hup.
  destruct (main_upto_is_seq_rounds _ p n input ws Hup Hrem)
    as (N & m & EN & Em & Hp & Hm & HNp & HN & Hin & Hwf & Hg).
  assert (HlenD : ∀ (k : nat) w, ws !! k = Some w → length (loc_dist w) = m).
  { intros k w Hk. destruct Hwf as (_ & _ & Hw).
    by destruct (Hw k w Hk) as (? & _). }
  assert (HlenP : ∀ (k : nat) w, ws !! k = Some w → length (loc_pred w) = m).
  { intros k w Hk. destruct Hwf as (_ & _ & Hw).
    by destruct (Hw k w Hk) as (_ & ? & _). }
  assert (HNw : N = (length ws * m)%nat) by by destruct Hwf as (? & _).
  subst n. rewrite Em in Hmain.
  rewrite (Print_dists_gathered N m ws HlenD HNw) in Hmain.
  cbn [of_option obind] in Hmain. unfold Print_paths in Hmain.
  rewrite (MPI_Gather_pieces loc_pred m ws _ HlenP) in Hmain
    by (rewrite length_malloc; lia).
  cbn [of_option obind] in Hmain. fold (gathered_pred ws) in Hmain.
  destruct (Print_paths_lines fuel (gathered_pred ws)
              (malloc (Z.of_nat N)) (seqZ 1 (Z.of_nat N - 1)))
    as [lines| | |] eqn:El; try done.
  cbn [obind] in Hmain. inversion Hmain; subst. split; [done|].
  by eapply Print_paths_lines_sound.
Qed.

Lemma main_compute_shortest (p : nat) (n : Z) input ws (v : nat) :
  main_compute p n input = Some ws →
  Z.rem n (Z.of_nat p) = 0 →
  nonneg_weights (take (Z.to_nat (n * n)) input) →
  (0 < v)%nat → Z.of_nat v < n →
  let mat := take (Z.to_nat (n * n)) input in
  let N := Z.to_nat n in
  ∃ d vs,
    gathered_dist ws !! v = Some d ∧
    pred_chain (gathered_pred ws) (Z.of_nat v) (reverse (Z.of_nat <$> vs)) ∧
    walk N 0 vs v ∧ walk_cost mat N 0 vs = d ∧
    ∀ vs', walk N 0 vs' v → d ≤ walk_cost mat N 0 vs'.
Proof.
  intros Hrun Hrem Hnn Hv0 Hvn mat N.
  assert (Hseq := main_compute_is_seq_Dijkstra p n input ws Hrun Hrem).
  fold mat N in Hseq.
  assert (Hup := Hrun). rewrite main_compute_upto in Hup.
  destruct (main_upto_is_seq_rounds _ p n input ws Hup Hrem)
    as (N' & m & EN & Em & Hp & Hm & HNp & HN & Hin & Hwf & Hg).
  assert (E1 : N = N') by (subst N n; by rewrite Nat2Z.id).
  assert (Hlen : length mat = (N * N)%nat).
  { subst mat. rewrite length_take. subst n. rewrite E1. lia. }
  destruct (seq_Dijkstra_shortest mat N v Hnn Hlen ltac:(lia))
    as (vs & Hw & Hc & Hch & Hmin).
  rewrite <- Hseq in Hc, Hch, Hmin. cbn [gathered sdist spred] in *.
  destruct (lookup_lt_is_Some_2 (gathered_dist ws) v) as [d Hd].
  { rewrite (wf_dist_length _ _ _ _ Hwf). lia. }
  rewrite (source_dist_lookup _ v d ltac:(lia) Hd) in Hc, Hmin.
  exists d, vs. done.
Qed.

(** X1. When the computation completes on a matrix without negative
    weights ([p] dividing [n]), the distance gathered for a vertex [v]
    other than the source is the cost of a shortest walk from vertex 0 to
    [v]: some walk has that cost, and no walk costs less. *)
Theorem X1_distances_are_shortest (p : nat) (n : Z) input ws (v : nat) :
  main_compute p n input = Some ws →
  Z.rem n (Z.of_nat p) = 0 →
  nonneg_weights (take (Z.to_nat (n * n)) input) →
  (0 < v)%nat → Z.of_nat v < n →
  ∃ d vs,
    gathered_dist ws !! v = Some d ∧
    walk (Z.to_nat n) 0 vs v ∧
    walk_cost (take (Z.to_nat (n * n)) input) (Z.to_nat n) 0 vs = d ∧
    ∀ vs', walk (Z.to_nat n) 0 vs' v →
           d ≤ walk_cost (take (Z.to_nat (n * n)) input) (Z.to_nat n) 0 vs'.
Proof.
  intros Hrun Hrem Hnn Hv0 Hvn.
  destruct (main_compute_shortest p n input ws v Hrun Hrem Hnn Hv0 Hvn)
    as (d & vs & Hd & _ & Hw & Hc & Hmin).
  by exists d, vs.
Qed.

Lemma X1_distances_are_shortest_witness :
  ∃ d vs,
    gathered_dist
      [Proc [0; 4; 1; 0; 7; 2; 8; 7] [0; 4] [0; 0] [1; 1];
       Proc [9; 9; 2; 6; 0; 1; 6; 0] [6; 7] [1; 2] [1; 1]] !! 3%nat = Some d ∧
    walk 4 0 vs 3 ∧
    walk_cost [0; 4; 9; 9; 1; 0; 2; 6; 7; 2; 0; 1; 8; 7; 6; 0] 4 0 vs = d ∧
    ∀ vs', walk 4 0 vs' 3 →
      d ≤ walk_cost [0; 4; 9; 9; 1; 0; 2; 6; 7; 2; 0; 1; 8; 7; 6; 0] 4 0 vs'.
Proof.
  apply (X1_distances_are_shortest 2 4
           [0; 4; 9; 9; 1; 0; 2; 6; 7; 2; 0; 1; 8; 7; 6; 0]
           [Proc [0; 4; 1; 0; 7; 2; 8; 7] [0; 4] [0; 0] [1; 1];
            Proc [9; 9; 2; 6; 0; 1; 6; 0] [6; 7] [1; 2] [1; 1]] 3).
  - vm_compute. reflexivity.
  - reflexivity.
  - unfold nonneg_weights. vm_compute take. repeat constructor; lia.
  - lia.
  - lia.
Defined.

(** X2. Whenever [main] ends, on a matrix without negative weights and
    with [p] dividing [n], the line of the table of distances for vertex
    [v] shows the cost of a shortest walk from vertex 0 to [v], and the
    line of the table of paths for [v] shows such a walk: it starts at 0,
    ends at [v], stays inside the graph and has that cost. *)
Theorem X2_main_prints_shortest_paths (fuel p : nat) (n : Z) input
    dists paths (v : nat) :
  main fuel p n input = Finished (dists, paths) →
  Z.rem n (Z.of_nat p) = 0 →
  nonneg_weights (take (Z.to_nat (n * n)) input) →
  (0 < v)%nat → Z.of_nat v < n →
  ∃ d vs,
    dists !! (v - 1)%nat = Some (Z.of_nat v, d) ∧
    paths !! (v - 1)%nat = Some (Z.of_nat <$> O :: vs) ∧
    walk (Z.to_nat n) 0 vs v ∧
    walk_cost (take (Z.to_nat (n * n)) input) (Z.to_nat n) 0 vs = d ∧
    ∀ vs', walk (Z.to_nat n) 0 vs' v →
           d ≤ walk_cost (take (Z.to_nat (n * n)) input) (Z.to_nat n) 0 vs'.
Proof.
  intros Hmain Hrem Hnn Hv0 Hvn.
  destruct (main_Finished fuel p n input dists paths Hmain Hrem)
    as (ws & Hrun & -> & Hpaths).
  destruct (main_compute_shortest p n input ws v Hrun Hrem Hnn Hv0 Hvn)
    as (d & vs & Hd & Hch & Hw & Hc & Hmin).
  exists d, vs.
  assert (Hseq : seqZ 1 (n - 1) !! (v - 1)%nat = Some (Z.of_nat v)).
  { rewrite lookup_seqZ. split; lia. }
  split.
  { rewrite list_lookup_fmap, Hseq. simpl. rewrite Nat2Z.id.
    by rewrite (list_lookup_total_correct _ _ _ Hd). }
  split; [|done].
  destruct (Forall2_lookup_l _ _ _ _ _ Hpaths Hseq) as (line & Hline & Hpl).
  rewrite Hline. f_equal.
  destruct Hpl as (l & Hl & ->).
  rewrite (pred_chain_unique _ _ _ Hl _ Hch), reverse_involutive. done.
Qed.

Lemma X2_main_prints_shortest_paths_witness :
  ∃ d vs,
    [(1, 4); (2, 6); (3, 7)] !! (3 - 1)%nat = Some (Z.of_nat 3, d) ∧
    [[0; 1]; [0; 1; 2]; [0; 1; 2; 3]] !! (3 - 1)%nat
      = Some (Z.of_nat <$> O :: vs) ∧
    walk (Z.to_nat 4) 0 vs 3 ∧
    walk_cost
      (take (Z.to_nat (4 * 4))
         [0; 4; 9; 9; 1; 0; 2; 6; 7; 2; 0; 1; 8; 7; 6; 0])
      (Z.to_nat 4) 0 vs = d ∧
    ∀ vs', walk (Z.to_nat 4) 0 vs' 3 →
      d ≤ walk_cost
            (take (Z.to_nat (4 * 4))
               [0; 4; 9; 9; 1; 0; 2; 6; 7; 2; 0; 1; 8; 7; 6; 0])
            (Z.to_nat 4) 0 vs'.
Proof.
  apply (X2_main_prints_shortest_paths 5 2 4
           [0; 4; 9; 9; 1; 0; 2; 6; 7; 2; 0; 1; 8; 7; 6; 0]
           [(1, 4); (2, 6); (3, 7)] [[0; 1]; [0; 1; 2]; [0; 1; 2; 3]] 3).
  - vm_compute. reflexivity.
  - reflexivity.
  - unfold nonneg_weights. vm_compute take. repeat constructor; lia.
  - lia.
  - lia.
Defined.

(** ** The runs that complete, in terms of the graph *)

Lemma seq_rounds_S mat (N k : nat) :
  seq_rounds mat N (S k) = seq_round mat N (seq_rounds mat N k).
Proof. done. Qed.

(** As long as every pick is under [INFINITY], so is the distance of every
    known vertex. *)
Lemma seq_rounds_known_below mat (N : nat) :
  length mat = (N * N)%nat →
  ∀ k : nat,
    (∀ i : nat, (i < k)%nat → seq_progress mat N i) →
    ∀ v : nat, (v < N)%nat → is_known (sknown (seq_rounds mat N k)) v →
      source_dist (sdist (seq_rounds mat N k)) v < INFINITY.
Proof.
  intros Hlen. induction k as [|k IH]; intros Hpr v Hv Hkv.
  - simpl in Hkv. destruct Hkv as (kv & Hk & Hnz).
    destruct v as [|v]; [done|].
    unfold seq_rounds in Hk. simpl in Hk.
    rewrite list_lookup_insert_ne in Hk by done.
    apply lookup_replicate in Hk as [-> _]. done.
  - assert (Hinv := seq_rounds_inv mat N k Hlen).
    destruct (Hpr k ltac:(lia)) as (d & u & Hpick & Hd).
    rewrite seq_rounds_S in *.
    destruct (seq_round_pick mat N k _ d u Hinv Hpick)
      as (Hu & Hu0 & Hku & HDu & Hmin & Hk' & HD').
    rewrite (HD' v Hv). rewrite Hk' in Hkv.
    apply (is_known_insert (sknown (seq_rounds mat N k)) u v) in Hkv;
      [|rewrite (inv_lknown _ _ _ _ Hinv); lia].
    rewrite bool_decide_eq_false_2.
    + destruct Hkv as [->|Hold]; [lia|].
      apply IH; [|done|done]. intros i Hi. apply Hpr. lia.
    + intros (Hk0 & Hne & _). destruct Hkv as [?|(kv & E & Hnz)];
        [done|congruence].
Qed.

Lemma unknown_count_pos (l : list Z) :
  (0 < unknown_count l)%nat → ∃ v : nat, l !! v = Some 0.
Proof.
  unfold unknown_count. intros H.
  destruct (filter (λ k, k = 0) l) as [|x f] eqn:E; [simpl in H; lia|].
  assert (Hx : x ∈ filter (λ k, k = 0) l) by (rewrite E; apply elem_of_cons; by left).
  apply list_elem_of_filter in Hx as [-> Hx].
  by apply list_elem_of_lookup_1 in Hx.
Qed.

Lemma reachable_progress mat (N : nat) :
  nonneg_weights mat → length mat = (N * N)%nat → reachable mat N →
  ∀ i : nat, (i < N - 1)%nat → seq_progress mat N i.
Proof.
  intros Hnn Hlen Hreach i Hi.
  assert (Hinv := seq_rounds_inv mat N i Hlen).
  assert (Hopt := seq_rounds_opt mat N i Hnn Hlen).
  assert (Hcount := seq_rounds_count mat N i Hlen).
  set (st := seq_rounds mat N i) in *.
  destruct (unknown_count_pos (sknown st) ltac:(lia)) as [v Hkv].
  assert (Hv : (v < N)%nat).
  { rewrite <- (inv_lknown _ _ _ _ Hinv). by eapply lookup_lt_Some. }
  assert (H0 : is_known (sknown st) 0) by (apply (inv_source _ _ _ _ Hinv); lia).
  assert (Hv0 : v ≠ O).
  { intros ->. destruct H0 as (k0 & Hk0 & Hnz). congruence. }
  destruct (Hreach v ltac:(lia)) as (vs & Hw & Hc).
  destruct (walk_meets_unknown mat N st Hnn Hlen (inv_lknown _ _ _ _ Hinv)
              Hopt vs O v ltac:(lia) H0 Hw Hkv) as (x & Hx & Hkx & Hle).
  change (source_dist (sdist st) 0) with 0 in Hle.
  unfold seq_progress. fold st.
  destruct (seq_find_min (sdist st) (sknown st) N) as [[d u]|] eqn:Hpick.
  - exists d, u. split; [done|].
    destruct (seq_round_pick mat N i st d u Hinv Hpick)
      as (_ & _ & _ & _ & Hmin & _).
    assert (H := Hmin x Hx Hkx). lia.
  - destruct (seq_round_idle mat N i st Hinv Hpick) as [_ Hall].
    destruct (Hall v Hv) as (kv & E & Hnz). congruence.
Qed.

Lemma main_compute_reachable (p : nat) (n : Z) input ws :
  main_compute p n input = Some ws →
  Z.rem n (Z.of_nat p) = 0 →
  nonneg_weights (take (Z.to_nat (n * n)) input) →
  reachable (take (Z.to_nat (n * n)) input) (Z.to_nat n).
Proof.
  intros Hrun Hrem Hnn v Hv.
  assert (Hup := Hrun). rewrite main_compute_upto in Hup.
  destruct (main_upto_is_seq_rounds _ p n input ws Hup Hrem)
    as (N & m & EN & Em & Hp & Hm & HNp & HN & Hin & Hwf & Hg).
  subst n. rewrite Nat2Z.id in *.
  replace (Z.to_nat (Z.of_nat N * Z.of_nat N)) with (N * N)%nat in * by lia.
  set (mat := take (N * N) input) in *.
  assert (Hlen : length mat = (N * N)%nat).
  { subst mat. rewrite length_take. lia. }
  destruct (seq_Dijkstra_shortest mat N v Hnn Hlen ltac:(lia))
    as (vs & Hw & Hc & _).
  exists vs. split; [done|]. rewrite Hc.
  apply (seq_rounds_known_below mat N Hlen (N - 1)); [|lia|].
  - intros i Hi.
    assert (H := main_compute_progress p (Z.of_nat N) input ws i Hrun Hrem
                   ltac:(lia)).
    rewrite Nat2Z.id in H.
    by replace (Z.to_nat (Z.of_nat N * Z.of_nat N)) with (N * N)%nat in H
      by lia.
  - apply seq_Dijkstra_all_known; [done|lia].
Qed.

Lemma valid_nonneg mat : valid_weights mat → nonneg_weights mat.
Proof.
  intros H. apply Forall_forall. intros x Hx. destruct (H x Hx). lia.
Qed.

Lemma in_range_valid mat :
  Forall (λ x, 0 ≤ x ≤ INFINITY) mat → valid_weights mat.
Proof. intros H x Hx. rewrite Forall_forall in H. by apply H. Qed.

(** What [main] does once the computation has completed: a function of
    the reference alone. *)
Lemma main_after_compute (fuel p : nat) (n : Z) input ws :
  main_compute p n input = Some ws →
  Z.rem n (Z.of_nat p) = 0 →
  let st := seq_Dijkstra (take (Z.to_nat (n * n)) input) (Z.to_nat n) in
  main fuel p n input =
  obind (Print_paths_lines fuel (spred st) (malloc n) (seqZ 1 (n - 1)))
    (λ paths,
       Finished ((λ v, (v, sdist st !!! Z.to_nat v)) <$> seqZ 1 (n - 1),
                 paths)).
Proof.
  intros Hrun Hrem st.
  assert (Hseq := main_compute_is_seq_Dijkstra p n input ws Hrun Hrem).
  fold st in Hseq.
  assert (Hup := Hrun). rewrite main_compute_upto in Hup.
  destruct (main_upto_is_seq_rounds _ p n input ws Hup Hrem)
    as (N & m & EN & Em & Hp & Hm & HNp & HN & Hin & Hwf & Hg).
  assert (HlenD : ∀ (k : nat) w, ws !! k = Some w → length (loc_dist w) = m).
  { intros k w Hk. destruct Hwf as (_ & _ & Hw).
    by destruct (Hw k w Hk) as (? & _). }
  assert (HlenP : ∀ (k : nat) w, ws !! k = Some w → length (loc_pred w) = m).
  { intros k w Hk. destruct Hwf as (_ & _ & Hw).
    by destruct (Hw k w Hk) as (_ & ? & _). }
  assert (HNw : N = (length ws * m)%nat) by by destruct Hwf as (? & _).
  unfold main. rewrite Hrun. cbn [of_option obind]. rewrite Em.
  rewrite <- Hseq. cbn [gathered sdist spred]. clear Hseq st. subst n.
  rewrite (Print_dists_gathered N m ws HlenD HNw).
  cbn [of_option obind]. unfold Print_paths.
  rewrite (MPI_Gather_pieces loc_pred m ws _ HlenP)
    by (rewrite length_malloc; lia).
  cbn [of_option obind]. done.
Qed.

Lemma main_compute_iff_reachable (p : nat) (n : Z) input :
  (0 < p)%nat → 0 < n → Z.rem n (Z.of_nat p) = 0 →
  n * n ≤ INT_MAX → n * n ≤ Z.of_nat (length input) →
  Forall (λ x, 0 ≤ x ≤ INFINITY) (take (Z.to_nat (n * n)) input) →
  is_Some (main_compute p n input) ↔
  reachable (take (Z.to_nat (n * n)) input) (Z.to_nat n).
Proof.
  intros Hp Hn Hrem Hmax Hin Hval.
  apply in_range_valid in Hval. assert (Hnn := valid_nonneg _ Hval). split.
  - intros [ws Hrun]. by eapply main_compute_reachable.
  - intros Hreach. apply main_compute_total; try done.
    intros i Hi. apply reachable_progress; [done| |done|lia].
    rewrite length_take. nia.
Qed.

(** X3. With weights from 0 to [INFINITY], [p] dividing [n] and a matrix
    the program can hold: [main] runs to its end exactly when every vertex
    other than 0 can be reached from vertex 0 by a walk that costs less
    than [INFINITY]; on any other graph the run is undefined (the sentinel
    of [Find_min_dist] is used as a vertex). *)
Theorem X3_main_finishes_iff_reachable (p : nat) (n : Z) input :
  (0 < p)%nat → 0 < n → Z.rem n (Z.of_nat p) = 0 →
  n * n ≤ INT_MAX → n * n ≤ Z.of_nat (length input) →
  Forall (λ x, 0 ≤ x ≤ INFINITY) (take (Z.to_nat (n * n)) input) →
  ((∃ out, main (Z.to_nat n + 1) p n input = Finished out) ↔
   reachable (take (Z.to_nat (n * n)) input) (Z.to_nat n)) ∧
  (¬ reachable (take (Z.to_nat (n * n)) input) (Z.to_nat n) →
   ∀ fuel, main fuel p n input = Undefined).
Proof.
  intros Hp Hn Hrem Hmax Hin Hval.
  assert (Hiff := main_compute_iff_reachable p n input Hp Hn Hrem Hmax Hin
                    Hval).
  split; [split|].
  - intros [[dists paths] Hmain]. apply Hiff.
    destruct (main_Finished _ p n input dists paths Hmain Hrem)
      as (ws & Hrun & _). by exists ws.
  - intros Hreach. apply Hiff in Hreach as [ws Hrun].
    destruct (main_finishes p n input ws Hrun Hrem) as (paths & Hmain & _).
    eexists. exact Hmain.
  - intros Hno fuel. unfold main.
    destruct (main_compute p n input) as [ws|] eqn:Hrun; [|done].
    destruct Hno. apply Hiff. by exists ws.
Qed.

Lemma X3_main_finishes_iff_reachable_witness :
  ((∃ out, main (Z.to_nat 2 + 1) 1 2 [0; 1000000; 1000000; 0] = Finished out)
   ↔ reachable (take (Z.to_nat (2 * 2)) [0; 1000000; 1000000; 0])
       (Z.to_nat 2)) ∧
  (¬ reachable (take (Z.to_nat (2 * 2)) [0; 1000000; 1000000; 0])
       (Z.to_nat 2) →
   ∀ fuel, main fuel 1 2 [0; 1000000; 1000000; 0] = Undefined).
Proof.
  apply (X3_main_finishes_iff_reachable 1 2 [0; 1000000; 1000000; 0]).
  - lia.
  - lia.
  - reflexivity.
  - unfold INT_MAX. lia.
  - simpl. lia.
  - vm_compute take. unfold INFINITY. repeat constructor; lia.
Defined.

(** X4. The output does not depend on the number of processes: with
    weights from 0 to [INFINITY] and a matrix the program can hold, runs on
    [p] and on [p'] processes, both dividing [n], end the same way and
    print the same tables. *)
Theorem X4_output_independent_of_p (fuel p p' : nat) (n : Z) input :
  (0 < p)%nat → (0 < p')%nat → 0 < n →
  Z.rem n (Z.of_nat p) = 0 → Z.rem n (Z.of_nat p') = 0 →
  n * n ≤ INT_MAX → n * n ≤ Z.of_nat (length input) →
  Forall (λ x, 0 ≤ x ≤ INFINITY) (take (Z.to_nat (n * n)) input) →
  main fuel p n input = main fuel p' n input.
Proof.
  intros Hp Hp' Hn Hrem Hrem' Hmax Hin Hval.
  assert (Hiff := main_compute_iff_reachable p n input Hp Hn Hrem Hmax Hin
                    Hval).
  assert (Hiff' := main_compute_iff_reachable p' n input Hp' Hn Hrem' Hmax
                     Hin Hval).
  destruct (main_compute p n input) as [ws|] eqn:Hrun.
  - destruct (proj2 Hiff' (proj1 Hiff ltac:(by exists ws))) as [ws' Hrun'].
    rewrite (main_after_compute fuel p n input ws Hrun Hrem).
    by rewrite (main_after_compute fuel p' n input ws' Hrun' Hrem').
  - destruct (main_compute p' n input) as [ws'|] eqn:Hrun'.
    + destruct (proj2 Hiff (proj1 Hiff' ltac:(by exists ws'))) as [ws Hws].
      done.
    + unfold main. by rewrite Hrun, Hrun'.
Qed.

Lemma X4_output_independent_of_p_witness :
  main 5 2 4 [0; 4; 9; 9; 1; 0; 2; 6; 7; 2; 0; 1; 8; 7; 6; 0] =
  main 5 4 4 [0; 4; 9; 9; 1; 0; 2; 6; 7; 2; 0; 1; 8; 7; 6; 0].
Proof.
  apply (X4_output_independent_of_p 5 2 4 4
           [0; 4; 9; 9; 1; 0; 2; 6; 7; 2; 0; 1; 8; 7; 6; 0]).
  - lia.
  - lia.
  - lia.
  - reflexivity.
  - reflexivity.
  - unfold INT_MAX. lia.
  - simpl. lia.
  - vm_compute take. unfold INFINITY. repeat constructor; lia.
Defined.

(** * Edge cases of the distribution *)

(** X5. With more processes than vertices the run is undefined, whatever
    the matrix: [loc_n = n / p] is 0, every array of [Dijkstra] is empty,
    and process 0 stores into [known[0]]. *)
Theorem X5_more_processes_than_vertices (fuel p : nat) (n : Z) input :
  0 ≤ n < Z.of_nat p →
  int_div n (Z.of_nat p) = Some 0 ∧
  (∀ blk, Dijkstra_init 0 0 blk = None) ∧
  main_compute p n input = None ∧
  main fuel p n input = Undefined.
Proof.
  intros Hn.
  assert (Hdiv : int_div n (Z.of_nat p) = Some 0).
  { unfold int_div. replace (Z.of_nat p =? 0) with false
      by (symmetry; apply Z.eqb_neq; lia).
    by rewrite Z.quot_small by lia. }
  assert (Hinit : ∀ blk, Dijkstra_init 0 0 blk = None).
  { intros blk. destruct (Dijkstra_init 0 0 blk) as [w|] eqn:E; [|done].
    apply Dijkstra_init_rank0_pos in E. lia. }
  assert (Hrun : main_compute p n input = None).
  { unfold main_compute. rewrite Hdiv. cbn [mbind option_bind].
    destruct (int_mul n 0); [|done]. cbn [mbind option_bind].
    destruct (Read_matrix input n 0 (Build_blk_col_type n 0) p) as [mats|]
      eqn:Hread; [|done].
    cbn [mbind option_bind]. unfold Dijkstra.
    assert (Hlen : length mats = p).
    { unfold Read_matrix in Hread.
      apply bind_Some in Hread as (nn & _ & Hread).
      apply bind_Some in Hread as (mat & _ & Hread).
      apply bind_Some in Hread as (cnt & _ & Hread).
      unfold MPI_Scatter in Hread. apply spmd_length in Hread.
      by rewrite length_replicate in Hread. }
    destruct mats as [|blk mats]; [simpl in Hlen; lia|].
    unfold spmd. cbn [each_rank]. by rewrite Hinit. }
  split; [done|]. split; [done|]. split; [done|].
  unfold main. by rewrite Hrun.
Qed.

Lemma X5_more_processes_than_vertices_witness :
  int_div 2 (Z.of_nat 3) = Some 0 ∧
  (∀ blk, Dijkstra_init 0 0 blk = None) ∧
  main_compute 3 2 [0; 1; 1; 0] = None ∧
  main 3 3 2 [0; 1; 1; 0] = Undefined.
Proof. apply (X5_more_processes_than_vertices 3 3 2 [0; 1; 1; 0]). lia. Defined.

(** X6. The datatype built by [Build_blk_col_type] for an [N]-by-[N]
    matrix and blocks of [m] columns: it selects [N * m] ints, the one for
    row [i] and column [j] of the block at displacement [i * N + j], and
    its extent is [m] ints, so that consecutive items start [m] ints
    apart. *)
Theorem X6_blk_col_type_map (N m : nat) :
  let t := Build_blk_col_type (Z.of_nat N) (Z.of_nat m) in
  length (typemap t) = (N * m)%nat ∧
  lb t = 0 ∧ extent t = Z.of_nat m ∧
  ∀ i j : nat, (i < N)%nat → (j < m)%nat →
    typemap t !! (i * m + j)%nat = Some (Z.of_nat (i * N + j)).
Proof.
  intros t. split; [apply length_blk_col|]. split; [done|].
  split; [apply extent_blk_col|]. intros i j Hi Hj. by apply lookup_blk_col.
Qed.

(** X7. With [N = p * m], the [p] items of block-column type that
    [MPI_Scatter] sends (item [k] starting [k] extents into the buffer)
    cover the [N * N] cells of the matrix, each cell exactly once. *)
Theorem X7_block_columns_partition (p m q : nat) :
  let N := (p * m)%nat in
  let t := Build_blk_col_type (Z.of_nat N) (Z.of_nat m) in
  (q < N * N)%nat →
  ∃ (k idx : nat) d,
    (k < p)%nat ∧ typemap t !! idx = Some d ∧
    Z.of_nat k * extent t + d = Z.of_nat q ∧
    ∀ (k' idx' : nat) d',
      (k' < p)%nat → typemap t !! idx' = Some d' →
      Z.of_nat k' * extent t + d' = Z.of_nat q → k' = k ∧ idx' = idx.
Proof.
  intros N t Hq.
  assert (Hext : extent t = Z.of_nat m) by apply extent_blk_col.
  destruct (index_split N N q Hq) as (i & c & Hi & Hc & ->).
  destruct (index_split p m c Hc) as (k & j & Hk & Hj & ->).
  exists k, (i * m + j)%nat, (Z.of_nat (i * N + j)).
  split; [done|]. split; [by apply lookup_blk_col|]. split; [lia|].
  intros k' idx' d' Hk' Hd' Heq.
  assert (Hidx : (idx' < N * m)%nat).
  { rewrite <- (length_blk_col N m). by eapply lookup_lt_Some. }
  destruct (index_split N m idx' Hidx) as (i' & j' & Hi' & Hj' & ->).
  unfold t in Hd'. rewrite lookup_blk_col in Hd' by done.
  inversion Hd'; subst d'. rewrite Hext in Heq.
  assert (Hc' : (k' * m + j' < N)%nat) by (subst N; nia).
  assert (E : (i' * N + (k' * m + j') = i * N + (k * m + j))%nat) by lia.
  destruct (index_inj N i' (k' * m + j') i (k * m + j) Hc' Hc E)
    as [-> E'].
  destruct (index_inj m k' j' k j Hj' Hj E') as [-> ->]. done.
Qed.

Lemma X7_block_columns_partition_witness :
  ∃ (k idx : nat) d,
    (k < 2)%nat ∧ typemap (Build_blk_col_type 4 2) !! idx = Some d ∧
    Z.of_nat k * extent (Build_blk_col_type 4 2) + d = 11 ∧
    ∀ (k' idx' : nat) d',
      (k' < 2)%nat → typemap (Build_blk_col_type 4 2) !! idx' = Some d' →
      Z.of_nat k' * extent (Build_blk_col_type 4 2) + d' = 11 →
      k' = k ∧ idx' = idx.
Proof. apply (X7_block_columns_partition 2 2 11). simpl. lia. Defined.

(** ** When [p] does not divide [n] *)

Lemma block_column_unique mat mat' (N m k : nat) blk blk' :
  block_column mat N m k blk → block_column mat' N m k blk' →
  (∀ i j : nat, (i < N)%nat → (j < m)%nat →
     mat !! (i * N + (k * m + j))%nat = mat' !! (i * N + (k * m + j))%nat) →
  blk = blk'.
Proof.
  intros [Hl H] [Hl' H'] Heq. apply list_eq. intros q.
  destruct (decide (q < N * m)%nat) as [Hq|Hq].
  - destruct (index_split N m q Hq) as (i & j & Hi & Hj & ->).
    destruct (H i j Hi Hj) as (x & -> & Hx).
    destruct (H' i j Hi Hj) as (x' & -> & Hx').
    rewrite (Heq i j Hi Hj) in Hx. congruence.
  - rewrite !lookup_ge_None_2 by lia. done.
Qed.

Lemma Read_matrix_columns (N m p : nat) input input' :
  (p * m ≤ N)%nat → (m ≤ N)%nat → Z.of_nat (N * N) ≤ INT_MAX →
  (N * N ≤ length input)%nat → (N * N ≤ length input')%nat →
  (∀ i c : nat, (i < N)%nat → (c < p * m)%nat →
     input !! (i * N + c)%nat = input' !! (i * N + c)%nat) →
  Read_matrix input (Z.of_nat N) (Z.of_nat m)
    (Build_blk_col_type (Z.of_nat N) (Z.of_nat m)) p =
  Read_matrix input' (Z.of_nat N) (Z.of_nat m)
    (Build_blk_col_type (Z.of_nat N) (Z.of_nat m)) p.
Proof.
  intros Hp Hm Hmax Hin Hin' Heq.
  destruct (Read_matrix_total N m p input Hp Hm Hmax Hin)
    as (mats & -> & Hlen & Hblk).
  destruct (Read_matrix_total N m p input' Hp Hm Hmax Hin')
    as (mats' & -> & Hlen' & Hblk').
  f_equal. apply list_eq_same_length with p; try done.
  intros k blk blk' Hk Hb Hb'.
  apply (block_column_unique _ _ N m k blk blk' (Hblk k blk Hb)
           (Hblk' k blk' Hb')).
  intros i j Hi Hj. rewrite !lookup_take_lt by nia. apply Heq; [done|nia].
Qed.

(** X8. When [p] does not divide [n], the last [n mod p] columns of the
    matrix are read and then ignored by the computation: two inputs that
    agree on the first [p * (n / p)] columns of every row leave every
    process with the same arrays after [Dijkstra]. *)
Theorem X8_trailing_columns_ignored (p : nat) (n : Z) input input' :
  (0 < p)%nat → 0 ≤ n → n * n ≤ INT_MAX →
  n * n ≤ Z.of_nat (length input) → n * n ≤ Z.of_nat (length input') →
  (∀ i c : nat,
     Z.of_nat i < n → Z.of_nat c < Z.of_nat p * Z.quot n (Z.of_nat p) →
     input !! (i * Z.to_nat n + c)%nat = input' !! (i * Z.to_nat n + c)%nat) →
  main_compute p n input = main_compute p n input'.
Proof.
  intros Hp Hn Hmax Hin Hin' Heq.
  destruct (Z_of_nat_complete n Hn) as [N ->]. rewrite Nat2Z.id in Heq.
  unfold main_compute.
  destruct (int_div (Z.of_nat N) (Z.of_nat p)) as [loc_n|] eqn:Hdiv;
    [|done].
  apply int_div_Some in Hdiv as [_ ->]. cbn [mbind option_bind].
  destruct (int_mul (Z.of_nat N) (Z.of_nat N `quot` Z.of_nat p)); [|done].
  cbn [mbind option_bind].
  assert (Hq : Z.quot (Z.of_nat N) (Z.of_nat p) = Z.of_nat (N / p)).
  { rewrite Nat2Z.inj_div. apply Z.quot_div_nonneg; lia. }
  rewrite Hq in *. set (m := (N / p)%nat) in *.
  assert (Hpm : (p * m ≤ N)%nat).
  { subst m. apply Nat.Div0.mul_div_le. }
  rewrite (Read_matrix_columns N m p input input'); try done.
  - nia.
  - lia.
  - lia.
  - lia.
  - intros i c Hi Hc. apply Heq; lia.
Qed.

Lemma X8_trailing_columns_ignored_witness :
  main_compute 2 3 [0; 1; 2; 3; 0; 4; 5; 6; 0] =
  main_compute 2 3 [0; 1; 7; 3; 0; 7; 5; 6; 7].
Proof.
  apply (X8_trailing_columns_ignored 2 3
           [0; 1; 2; 3; 0; 4; 5; 6; 0] [0; 1; 7; 3; 0; 7; 5; 6; 7]).
  - lia.
  - lia.
  - unfold INT_MAX. lia.
  - simpl. lia.
  - simpl. lia.
  - intros i c Hi Hc. change (Z.quot 3 (Z.of_nat 2)) with 1 in Hc.
    assert (Hi' : (i < 3)%nat) by lia. assert (Hc' : (c < 2)%nat) by lia.
    destruct i as [|[|[|i]]]; [| | |lia];
      (destruct c as [|[|c]]; [reflexivity|reflexivity|lia]).
Defined.

(** * Text output *)

Lemma str_app_cons c (s t : string) : String c s +:+ t = String c (s +:+ t).
Proof. done. Qed.

Lemma str_length_app (s t : string) :
  String.length (s +:+ t) = (String.length s + String.length t)%nat.
Proof.
  induction s as [|c s IH]; [done|]. rewrite str_app_cons. simpl.
  by rewrite IH.
Qed.

Lemma str_app_assoc (s t u : string) : (s +:+ t) +:+ u = s +:+ (t +:+ u).
Proof.
  induction s as [|c s IH]; [done|]. rewrite !str_app_cons. by rewrite IH.
Qed.

Lemma str_app_empty_r (s : string) : s +:+ EmptyString = s.
Proof.
  induction s as [|c s IH]; [done|]. rewrite str_app_cons. by rewrite IH.
Qed.

Lemma sprintf_end_fits temp text :
  Z.of_nat (String.length (temp +:+ text)) < MAX_STRING →
  sprintf_end temp text = Some (temp +:+ text).
Proof.
  intros H. unfold sprintf_end. rewrite str_length_app in H.
  by replace (_ <? _) with true by (symmetry; apply Z.ltb_lt; lia).
Qed.

Lemma sprintf_end_overflow temp text :
  MAX_STRING ≤ Z.of_nat (String.length (temp +:+ text)) →
  sprintf_end temp text = None.
Proof.
  intros H. unfold sprintf_end. rewrite str_length_app in H.
  by replace (_ <? _) with false by (symmetry; apply Z.ltb_ge; lia).
Qed.

(** Two texts stored one after the other, or both at once. *)
Lemma sprintf_end_twice temp s t :
  sprintf_end temp s ≫= (λ temp', sprintf_end temp' t) =
  sprintf_end temp (s +:+ t).
Proof.
  destruct (decide (Z.of_nat (String.length (temp +:+ (s +:+ t)))
                    < MAX_STRING)) as [H|H].
  - rewrite (sprintf_end_fits temp (s +:+ t) H).
    rewrite <- str_app_assoc in H. rewrite sprintf_end_fits.
    + simpl. rewrite sprintf_end_fits by done. by rewrite str_app_assoc.
    + rewrite str_length_app in H. lia.
  - rewrite (sprintf_end_overflow temp (s +:+ t)) by lia.
    destruct (sprintf_end temp s) as [temp'|] eqn:E; [|done]. simpl.
    unfold sprintf_end in E.
    destruct (_ <? _); [|done]. inversion E; subst temp'.
    apply sprintf_end_overflow. rewrite str_app_assoc. lia.
Qed.

Lemma sprintf_end_length temp text temp' :
  sprintf_end temp text = Some temp' →
  Z.of_nat (String.length temp') < MAX_STRING.
Proof.
  unfold sprintf_end. destruct (_ <? _) eqn:E; [|done].
  intros H. inversion H; subst temp'. apply Z.ltb_lt in E.
  rewrite str_length_app. lia.
Qed.

(** A loop that stores one text per pass stores their concatenation. *)
Lemma for_loop_sprintf (body : Z → string → option string)
    (text : Z → string) :
  ∀ (k : nat) v temp,
    Z.of_nat (String.length temp) < MAX_STRING →
    (∀ i t, v ≤ i < v + Z.of_nat k →
            Z.of_nat (String.length t) < MAX_STRING →
            body i t = sprintf_end t (text i)) →
    for_loop body k v temp =
    sprintf_end temp
      (foldr (λ i s, text i +:+ s) EmptyString (seqZ v (Z.of_nat k))).
Proof.
  induction k as [|k IH]; intros v temp Hlen Hbody.
  - simpl. rewrite sprintf_end_fits; rewrite str_app_empty_r; done.
  - replace (Z.of_nat (S k)) with (Z.succ (Z.of_nat k)) by lia.
    rewrite seqZ_cons by lia. rewrite Z.pred_succ. cbn [for_loop foldr].
    rewrite <- sprintf_end_twice. rewrite Hbody by (done || lia).
    destruct (sprintf_end temp (text v)) as [temp'|] eqn:E; [|done]. simpl.
    apply IH.
    + by eapply sprintf_end_length.
    + intros i t Hi Ht. apply Hbody; [lia|done].
Qed.

Lemma for_range_sprintf (body : Z → string → option string)
    (text : Z → string) (hi : nat) temp :
  Z.of_nat (String.length temp) < MAX_STRING →
  (∀ i t, 0 ≤ i < Z.of_nat hi →
          Z.of_nat (String.length t) < MAX_STRING →
          body i t = sprintf_end t (text i)) →
  for_range body 0 (Z.of_nat hi) temp =
  sprintf_end temp
    (foldr (λ i s, text i +:+ s) EmptyString (seqZ 0 (Z.of_nat hi))).
Proof.
  intros Hlen Hbody. unfold for_range.
  replace (Z.to_nat (Z.of_nat hi - 0)) with hi by lia.
  apply for_loop_sprintf; [done|]. intros i t Hi. apply Hbody. lia.
Qed.

(** ** The text of a block *)

Lemma cells_text_app l l' :
  cells_text (l ++ l') = cells_text l +:+ cells_text l'.
Proof.
  induction l as [|x l IH]; [done|]. unfold cells_text in *. simpl.
  by rewrite IH, str_app_assoc.
Qed.

Lemma foldr_seqZ_nat (f : nat → string) (k : nat) :
  foldr (λ i s, f (Z.to_nat i) +:+ s) EmptyString (seqZ 0 (Z.of_nat k)) =
  foldr (λ i s, f i +:+ s) EmptyString (seq 0 k).
Proof.
  assert (H : seqZ 0 (Z.of_nat k) = Z.of_nat <$> seq 0 k).
  { unfold seqZ. rewrite Nat2Z.id.
    apply list_fmap_ext. intros _ x _. lia. }
  rewrite H, foldr_fmap. apply foldr_ext; [|done|done].
  intros i s. by rewrite Nat2Z.id.
Qed.

Lemma matrix_row_cells (cols : nat) (mat : list Z) (i : nat) :
  ((i + 1) * cols ≤ length mat)%nat →
  foldr (λ j s, cell_text (mat !!! (i * cols + j)%nat) +:+ s) EmptyString
    (seq 0 cols) =
  cells_text (matrix_row cols mat i).
Proof.
  intros Hlen. unfold cells_text.
  assert (H : matrix_row cols mat i =
              (λ j, mat !!! (i * cols + j)%nat) <$> seq 0 cols).
  { apply list_eq. intros j. unfold matrix_row.
    rewrite list_lookup_fmap.
    destruct (decide (j < cols)%nat) as [Hj|Hj].
    - rewrite lookup_take_lt, lookup_drop by done.
      rewrite lookup_seq_lt by done. simpl.
      destruct (lookup_lt_is_Some_2 mat (i * cols + j)) as [x Hx]; [nia|].
      by rewrite (list_lookup_total_correct _ _ _ Hx).
    - rewrite lookup_take_ge by lia. rewrite lookup_seq_ge by lia. done. }
  rewrite H, foldr_fmap. done.
Qed.

(** ** Print_local_matrix *)

Section local_matrix.
Context (blk : list Z) (N m : nat).
Hypothesis Hlen : length blk = (N * m)%nat.
Hypothesis Hmax : Z.of_nat (N * m) ≤ INT_MAX.

Lemma block_cell (i j : nat) :
  (i < N)%nat → (j < m)%nat →
  ∃ x, blk !! (i * m + j)%nat = Some x ∧
       int_mul (Z.of_nat i) (Z.of_nat m) = Some (Z.of_nat (i * m)) ∧
       int_add (Z.of_nat (i * m)) (Z.of_nat j) = Some (Z.of_nat (i * m + j)) ∧
       rd blk (Z.of_nat (i * m + j)) = Some x.
Proof.
  intros Hi Hj.
  destruct (lookup_lt_is_Some_2 blk (i * m + j)) as [x Hx]; [nia|].
  exists x. split; [done|]. split.
  { unfold int_mul. rewrite checked_in by (unfold INT_MIN; nia).
    f_equal. lia. }
  split.
  { unfold int_add. rewrite checked_in by (unfold INT_MIN; nia).
    f_equal. lia. }
  by rewrite rd_nat.
Qed.

Lemma Print_local_matrix_cell_text (i : nat) j temp :
  (i < N)%nat → 0 ≤ j < Z.of_nat m →
  Print_local_matrix_cell blk (Z.of_nat m) (Z.of_nat i) j temp =
  sprintf_end temp (cell_text (blk !!! (i * m + Z.to_nat j)%nat)).
Proof.
  intros Hi Hj. unfold Print_local_matrix_cell.
  destruct (block_cell i (Z.to_nat j) Hi ltac:(lia)) as (x & Hx & -> & Ha & Hr).
  rewrite Z2Nat.id in Ha by lia. cbn [mbind option_bind]. rewrite Ha.
  cbn [mbind option_bind].
  replace (Z.of_nat (i * m) + j) with (Z.of_nat (i * m + Z.to_nat j)) by lia.
  rewrite Hr. cbn [mbind option_bind].
  rewrite (list_lookup_total_correct _ _ _ Hx). unfold cell_text.
  by destruct (x =? INFINITY).
Qed.

Lemma Print_local_matrix_row_text i temp :
  0 ≤ i < Z.of_nat N →
  Z.of_nat (String.length temp) < MAX_STRING →
  Print_local_matrix_row blk (Z.of_nat m) i temp =
  sprintf_end temp (row_text m blk (Z.to_nat i)).
Proof.
  intros Hi Ht. unfold Print_local_matrix_row.
  rewrite (for_range_sprintf _
             (λ j, cell_text (blk !!! (Z.to_nat i * m + Z.to_nat j)%nat))).
  - rewrite sprintf_end_twice. f_equal. unfold row_text. f_equal.
    rewrite (foldr_seqZ_nat
               (λ j, cell_text (blk !!! (Z.to_nat i * m + j)%nat))).
    apply matrix_row_cells. nia.
  - done.
  - intros j t Hj _. rewrite <- (Z2Nat.id i) at 1 by lia.
    apply Print_local_matrix_cell_text; lia.
Qed.

Lemma Print_local_matrix_text (my_rank : Z) :
  Print_local_matrix blk (Z.of_nat N) (Z.of_nat m) my_rank =
  if Z.of_nat (String.length (local_matrix_text my_rank N m blk))
       <? MAX_STRING
  then Some (local_matrix_text my_rank N m blk +:+ newline) else None.
Proof.
  unfold Print_local_matrix.
  set (hdr := "Proc " +:+ fmt_d 0 my_rank +:+ " >" +:+ newline).
  assert (Hrows : ∀ temp, Z.of_nat (String.length temp) < MAX_STRING →
            for_range (Print_local_matrix_row blk (Z.of_nat m)) 0
              (Z.of_nat N) temp =
            sprintf_end temp (rows_text N m blk)).
  { intros temp Ht.
    rewrite (for_range_sprintf _ (λ i, row_text m blk (Z.to_nat i))).
    - f_equal. apply (foldr_seqZ_nat (row_text m blk)).
    - done.
    - intros i t Hi Hlt. by apply Print_local_matrix_row_text. }
  transitivity
    ((sprintf_end EmptyString hdr ≫=
        (λ temp, sprintf_end temp (rows_text N m blk))) ≫=
     (λ t, Some (t +:+ newline))).
  { destruct (sprintf_end EmptyString hdr) as [temp|] eqn:E; [|done].
    cbn [mbind option_bind]. rewrite Hrows; [done|].
    by eapply sprintf_end_length. }
  rewrite sprintf_end_twice. fold (local_matrix_text my_rank N m blk).
  unfold sprintf_end. simpl String.length. rewrite Nat.add_0_l.
  change (EmptyString +:+ ?s) with s.
  by destruct (_ <? _).
Qed.

End local_matrix.

(** X9. [Print_local_matrix] on a block of [N] rows and [m] columns: when
    the header line and the [N] rows, a null byte included, fit the
    [MAX_STRING] chars of [temp], the process prints them (every cell
    through [%2d] and a blank, or [ i ] for 1000000) and a newline;
    otherwise a [sprintf] runs past the end of [temp]. *)
Theorem X9_Print_local_matrix_text (blk : list Z) (N m : nat) (my_rank : Z) :
  length blk = (N * m)%nat → Z.of_nat (N * m) ≤ INT_MAX →
  Print_local_matrix blk (Z.of_nat N) (Z.of_nat m) my_rank =
  if Z.of_nat (String.length (local_matrix_text my_rank N m blk))
       <? MAX_STRING
  then Some (local_matrix_text my_rank N m blk +:+ newline) else None.
Proof. intros Hlen Hmax. by apply Print_local_matrix_text. Qed.

Lemma X9_Print_local_matrix_text_witness :
  Print_local_matrix [0; 1; 4; 1000000; 7; 8; 8; 7] (Z.of_nat 4) (Z.of_nat 2) 0 =
  Some ("Proc 0 >" +:+ newline +:+
        " 0  1 " +:+ newline +:+
        " 4  i " +:+ newline +:+
        " 7  8 " +:+ newline +:+
        " 8  7 " +:+ newline +:+ newline).
Proof.
  rewrite (X9_Print_local_matrix_text [0; 1; 4; 1000000; 7; 8; 8; 7] 4 2 0).
  - vm_compute. reflexivity.
  - reflexivity.
  - unfold INT_MAX. simpl. lia.
Defined.

(** ** How long the text is *)

Lemma length_spaces k : String.length (spaces k) = k.
Proof.
  induction k as [|k IH]; [done|]. simpl spaces. rewrite str_length_app.
  rewrite IH. done.
Qed.

Lemma length_fmt_d w x :
  String.length (fmt_d w x) = (w `max` String.length (pretty x))%nat.
Proof. unfold fmt_d. rewrite str_length_app, length_spaces. lia. Qed.

Lemma length_pretty_small x :
  0 ≤ x ≤ 99 → (String.length (pretty x) ≤ 2)%nat.
Proof.
  intros Hx.
  assert (H : Forall (λ k : nat, (String.length (pretty (Z.of_nat k)) ≤ 2)%nat)
                (seq 0 100)).
  { refine (bool_decide_unpack _ _). vm_compute. exact I. }
  rewrite Forall_forall in H. rewrite <- (Z2Nat.id x) by lia.
  apply H. apply elem_of_seq. lia.
Qed.

Lemma length_cell_text_ge x : (3 ≤ String.length (cell_text x))%nat.
Proof.
  unfold cell_text. destruct (x =? INFINITY); [done|].
  rewrite str_length_app, length_fmt_d. simpl. lia.
Qed.

Lemma length_cell_text_small x :
  0 ≤ x ≤ 99 ∨ x = INFINITY → String.length (cell_text x) = 3%nat.
Proof.
  intros Hx. unfold cell_text. destruct (x =? INFINITY) eqn:E; [done|].
  apply Z.eqb_neq in E. destruct Hx as [Hx|Hx]; [|done].
  rewrite str_length_app, length_fmt_d.
  assert (H := length_pretty_small x Hx). simpl. lia.
Qed.

Lemma length_cells_text_ge l :
  (3 * length l ≤ String.length (cells_text l))%nat.
Proof.
  induction l as [|x l IH]; [done|]. unfold cells_text in *. cbn [foldr].
  rewrite str_length_app. assert (H := length_cell_text_ge x).
  cbn [length]. lia.
Qed.

Lemma length_cells_text_small l :
  Forall (λ x, 0 ≤ x ≤ 99 ∨ x = INFINITY) l →
  String.length (cells_text l) = (3 * length l)%nat.
Proof.
  induction 1 as [|x l Hx _ IH]; [done|]. unfold cells_text in *.
  cbn [foldr]. rewrite str_length_app, (length_cell_text_small x Hx), IH.
  cbn [length]. lia.
Qed.

Lemma length_matrix_row (cols : nat) (mat : list Z) (i : nat) :
  ((i + 1) * cols ≤ length mat)%nat → length (matrix_row cols mat i) = cols.
Proof.
  intros H. unfold matrix_row. rewrite length_take, length_drop. lia.
Qed.

Lemma length_rows_text (f : nat → string) (c : nat) :
  ∀ (k lo : nat),
    (∀ i : nat, (lo ≤ i < lo + k)%nat → (c ≤ String.length (f i))%nat) →
    (k * c ≤
     String.length (foldr (λ i s, f i +:+ s) EmptyString (seq lo k)))%nat.
Proof.
  induction k as [|k IH]; intros lo H; [done|]. cbn [seq foldr].
  rewrite str_length_app.
  assert (H1 := H lo ltac:(lia)).
  assert (H2 := IH (S lo) ltac:(intros i Hi; apply H; lia)). lia.
Qed.

Lemma length_rows_text_eq (f : nat → string) (c : nat) :
  ∀ (k lo : nat),
    (∀ i : nat, (lo ≤ i < lo + k)%nat → String.length (f i) = c) →
    String.length (foldr (λ i s, f i +:+ s) EmptyString (seq lo k)) =
    (k * c)%nat.
Proof.
  induction k as [|k IH]; intros lo H; [done|]. cbn [seq foldr].
  rewrite str_length_app, (H lo) by lia.
  rewrite (IH (S lo)) by (intros i Hi; apply H; lia). lia.
Qed.

Lemma length_header my_rank :
  String.length ("Proc " +:+ fmt_d 0 my_rank +:+ " >" +:+ newline) =
  (8 + String.length (pretty my_rank))%nat.
Proof. rewrite !str_length_app, length_fmt_d. simpl. lia. Qed.

Lemma length_local_matrix_text_ge (blk : list Z) (N m : nat) my_rank :
  length blk = (N * m)%nat →
  (8 + N * (3 * m + 1) ≤
   String.length (local_matrix_text my_rank N m blk))%nat.
Proof.
  intros Hlen. unfold local_matrix_text.
  rewrite str_length_app, length_header.
  assert (H := length_rows_text (row_text m blk) (3 * m + 1) N 0).
  unfold rows_text. etrans; [|apply Nat.add_le_mono_l, H]; [lia|].
  intros i Hi. unfold row_text. rewrite str_length_app.
  assert (H' := length_cells_text_ge (matrix_row m blk i)).
  rewrite length_matrix_row in H' by nia. simpl. lia.
Qed.

Lemma length_local_matrix_text_small (blk : list Z) (N m : nat) my_rank :
  length blk = (N * m)%nat →
  Forall (λ x, 0 ≤ x ≤ 99 ∨ x = INFINITY) blk →
  String.length (local_matrix_text my_rank N m blk) =
  (8 + String.length (pretty my_rank) + N * (3 * m + 1))%nat.
Proof.
  intros Hlen Hsmall. unfold local_matrix_text.
  rewrite str_length_app, length_header. f_equal. unfold rows_text.
  apply length_rows_text_eq. intros i Hi. unfold row_text.
  rewrite str_length_app, length_cells_text_small.
  - rewrite length_matrix_row by nia. simpl. lia.
  - unfold matrix_row. by apply Forall_take, Forall_drop.
Qed.

(** X10. How large a block [Print_local_matrix] can print: a cell takes
    at least 3 chars of [temp], so that a block with
    [8 + N * (3 * m + 1) >= MAX_STRING] always overruns it; and when
    every entry is 1000000 or has at most two digits, the call is defined
    exactly when [8 + digits of the rank + N * (3 * m + 1) < MAX_STRING]. *)
Theorem X10_Print_local_matrix_capacity (blk : list Z) (N m : nat)
    (my_rank : Z) :
  length blk = (N * m)%nat → Z.of_nat (N * m) ≤ INT_MAX →
  (MAX_STRING ≤ Z.of_nat (8 + N * (3 * m + 1)) →
   Print_local_matrix blk (Z.of_nat N) (Z.of_nat m) my_rank = None) ∧
  (Forall (λ x, 0 ≤ x ≤ 99 ∨ x = INFINITY) blk →
   (is_Some (Print_local_matrix blk (Z.of_nat N) (Z.of_nat m) my_rank) ↔
    Z.of_nat (8 + String.length (pretty my_rank) + N * (3 * m + 1))
      < MAX_STRING)).
Proof.
  intros Hlen Hmax. rewrite (Print_local_matrix_text blk N m Hlen Hmax).
  split.
  - intros Hbig. assert (H := length_local_matrix_text_ge blk N m my_rank Hlen).
    by replace (_ <? _) with false by (symmetry; apply Z.ltb_ge; lia).
  - intros Hsmall.
    rewrite (length_local_matrix_text_small blk N m my_rank Hlen Hsmall).
    destruct (_ <? _) eqn:E.
    + apply Z.ltb_lt in E. split; [done|]. by eexists.
    + apply Z.ltb_ge in E. split; [by intros [? ?]|lia].
Qed.

Lemma X10_Print_local_matrix_capacity_witness :
  (MAX_STRING ≤ Z.of_nat (8 + 2 * (3 * 2 + 1)) →
   Print_local_matrix [0; 12; 1000000; 0] (Z.of_nat 2) (Z.of_nat 2) 1 = None) ∧
  (Forall (λ x, 0 ≤ x ≤ 99 ∨ x = INFINITY) [0; 12; 1000000; 0] →
   (is_Some (Print_local_matrix [0; 12; 1000000; 0] (Z.of_nat 2) (Z.of_nat 2) 1)
    ↔ Z.of_nat (8 + String.length (pretty 1) + 2 * (3 * 2 + 1))
        < MAX_STRING)).
Proof.
  apply (X10_Print_local_matrix_capacity [0; 12; 1000000; 0] 2 2 1).
  - reflexivity.
  - unfold INT_MAX. simpl. lia.
Defined.

(** ** Print_matrix *)

Lemma MPI_Gather_block_columns mat (N m p : nat) blocks buf :
  N = (p * m)%nat → length mat = (N * N)%nat → length buf = length mat →
  length blocks = p →
  (∀ (k : nat) blk, blocks !! k = Some blk → block_column mat N m k blk) →
  MPI_Gather blocks (Z.of_nat N * Z.of_nat m) buf 1
    (Build_blk_col_type (Z.of_nat N) (Z.of_nat m)) = Some mat.
Proof.
  intros HN Hmat Hbuf Hlen Hblk. unfold MPI_Gather.
  replace (forallb _ blocks) with true.
  2:{ symmetry. apply forallb_forall. intros blk Hin.
      apply list_elem_of_In, list_elem_of_lookup_1 in Hin as [k Hk].
      destruct (Hblk k blk Hk) as [-> _]. apply Z.eqb_eq. lia. }
  destruct (gather_from_block_columns mat N m blocks 0 buf Hbuf)
    as (buf' & Hg & Hl & Hag).
  { intros t blk Ht. by apply Hblk. }
  change (Z.of_nat 0) with 0 in Hg. rewrite Hg. f_equal.
  apply list_eq. intros q.
  destruct (decide (q < N * N)%nat) as [Hq'|Hq'].
  - apply Hag. right.
    destruct (index_split N N q Hq') as (i & c & Hi & Hc & ->).
    destruct (index_split p m c ltac:(lia)) as (k & j & Hk & Hj & ->).
    exists k, i, j. rewrite Hlen. done.
  - rewrite !lookup_ge_None_2; [done|lia|lia].
Qed.

Lemma for_loop_append (body : Z → string → option string)
    (text : Z → string) :
  ∀ (k : nat) v out,
    (∀ i t, v ≤ i < v + Z.of_nat k → body i t = Some (t +:+ text i)) →
    for_loop body k v out =
    Some (out +:+
          foldr (λ i s, text i +:+ s) EmptyString (seqZ v (Z.of_nat k))).
Proof.
  induction k as [|k IH]; intros v out Hbody.
  - simpl. by rewrite str_app_empty_r.
  - replace (Z.of_nat (S k)) with (Z.succ (Z.of_nat k)) by lia.
    rewrite seqZ_cons by lia. rewrite Z.pred_succ. cbn [for_loop foldr].
    rewrite Hbody by lia. cbn [mbind option_bind].
    rewrite IH by (intros i t Hi; apply Hbody; lia).
    by rewrite str_app_assoc.
Qed.

Lemma for_range_append (body : Z → string → option string)
    (text : Z → string) (hi : nat) out :
  (∀ i t, 0 ≤ i < Z.of_nat hi → body i t = Some (t +:+ text i)) →
  for_range body 0 (Z.of_nat hi) out =
  Some (out +:+
        foldr (λ i s, text i +:+ s) EmptyString (seqZ 0 (Z.of_nat hi))).
Proof.
  intros Hbody. unfold for_range.
  replace (Z.to_nat (Z.of_nat hi - 0)) with hi by lia.
  apply for_loop_append. intros i t Hi. apply Hbody. lia.
Qed.

Lemma Print_matrix_rows_text (mat : list Z) (N : nat) :
  length mat = (N * N)%nat → Z.of_nat (N * N) ≤ INT_MAX →
  for_range (Print_matrix_row mat (Z.of_nat N)) 0 (Z.of_nat N) EmptyString =
  Some (rows_text N N mat).
Proof.
  intros Hlen Hmax.
  rewrite (for_range_append _ (λ i, row_text N mat (Z.to_nat i))).
  { change (EmptyString +:+ ?s) with s. f_equal.
    apply (foldr_seqZ_nat (row_text N mat)). }
  intros i out Hi. unfold Print_matrix_row.
  rewrite (for_range_append _
             (λ j, cell_text (mat !!! (Z.to_nat i * N + Z.to_nat j)%nat))).
  { cbn [mbind option_bind]. rewrite str_app_assoc. do 2 f_equal.
    unfold row_text. f_equal.
    rewrite (foldr_seqZ_nat
               (λ j, cell_text (mat !!! (Z.to_nat i * N + j)%nat))).
    apply matrix_row_cells. nia. }
  intros j t Hj. unfold Print_matrix_cell.
  destruct (block_cell mat N N Hlen Hmax (Z.to_nat i) (Z.to_nat j)
              ltac:(lia) ltac:(lia)) as (x & Hx & Hm & Ha & Hr).
  rewrite Z2Nat.id in Hm, Ha by lia. rewrite Hm. cbn [mbind option_bind].
  rewrite Ha. cbn [mbind option_bind]. rewrite Hr. cbn [mbind option_bind].
  rewrite (list_lookup_total_correct _ _ _ Hx). unfold cell_text.
  by destruct (x =? INFINITY).
Qed.

(** X11. With [p] dividing [n], [Print_matrix] after [Read_matrix] prints
    the matrix that was read: its [n] rows of [n] cells, the blocks of the
    processes put back in their columns. *)
Theorem X11_Print_matrix_prints_input (p : nat) (n : Z) input :
  (0 < p)%nat → 0 ≤ n → Z.rem n (Z.of_nat p) = 0 →
  n * n ≤ INT_MAX → n * n ≤ Z.of_nat (length input) →
  let loc_n := Z.quot n (Z.of_nat p) in
  let blk_col_mpi_t := Build_blk_col_type n loc_n in
  ∃ loc_mats,
    Read_matrix input n loc_n blk_col_mpi_t p = Some loc_mats ∧
    Print_matrix_stdout loc_mats n loc_n blk_col_mpi_t =
      Some (rows_text (Z.to_nat n) (Z.to_nat n)
              (take (Z.to_nat (n * n)) input)).
Proof.
  intros Hp Hn Hrem Hmax Hin loc_n blk_col_mpi_t.
  destruct (divides_blocks p n Hp Hn Hrem) as (N & m & -> & Hq & HN).
  subst loc_n blk_col_mpi_t. rewrite Hq, Nat2Z.id.
  replace (Z.to_nat (Z.of_nat N * Z.of_nat N)) with (N * N)%nat by lia.
  destruct (Read_matrix_total N m p input) as (mats & Hread & Hlen & Hblk);
    [lia|nia|lia|lia|].
  exists mats. split; [done|].
  assert (Hmat : length (take (N * N) input) = (N * N)%nat).
  { rewrite length_take. lia. }
  unfold Print_matrix_stdout, Print_matrix, int_mul.
  rewrite (checked_in (Z.of_nat N * Z.of_nat N)) by (unfold INT_MIN; nia).
  cbn [mbind option_bind].
  rewrite (checked_in (Z.of_nat N * Z.of_nat m)) by (unfold INT_MIN; nia).
  cbn [mbind option_bind].
  rewrite (MPI_Gather_block_columns (take (N * N) input) N m p); try done.
  - cbn [mbind option_bind]. apply Print_matrix_rows_text; [done|lia].
  - rewrite length_malloc. lia.
Qed.

Lemma X11_Print_matrix_prints_input_witness :
  ∃ loc_mats,
    Read_matrix [0; 1; 1000000; 0] 2 (Z.quot 2 (Z.of_nat 2))
      (Build_blk_col_type 2 (Z.quot 2 (Z.of_nat 2))) 2 = Some loc_mats ∧
    Print_matrix_stdout loc_mats 2 (Z.quot 2 (Z.of_nat 2))
      (Build_blk_col_type 2 (Z.quot 2 (Z.of_nat 2))) =
      Some (rows_text (Z.to_nat 2) (Z.to_nat 2)
              (take (Z.to_nat (2 * 2)) [0; 1; 1000000; 0])).
Proof.
  apply (X11_Print_matrix_prints_input 2 2 [0; 1; 1000000; 0]).
  - lia.
  - lia.
  - reflexivity.
  - unfold INT_MAX. lia.
  - simpl. lia.
Defined.

(** ** Scatter, then gather *)

(** C5, amended. For every n-by-n matrix of at most [INT_MAX] cells,
    supplied in full, and every [p] dividing [n]: [Read_matrix] gives
    process [k], for every row [i], the columns [k * (n / p)] to
    [(k + 1) * (n / p) - 1], and [Print_matrix] on these blocks, with the
    same datatype, rebuilds on process 0 exactly the matrix that was
    read. *)
Theorem C5_gather_inverts_scatter (p : nat) (n : Z) input :
  (0 < p)%nat → 0 ≤ n → Z.rem n (Z.of_nat p) = 0 →
  n * n ≤ INT_MAX → n * n ≤ Z.of_nat (length input) →
  let loc_n := Z.quot n (Z.of_nat p) in
  let blk_col_mpi_t := Build_blk_col_type n loc_n in
  let mat := take (Z.to_nat (n * n)) input in
  ∃ loc_mats,
    Read_matrix input n loc_n blk_col_mpi_t p = Some loc_mats ∧
    length loc_mats = p ∧
    (∀ (k i j : nat) blk,
       loc_mats !! k = Some blk → Z.of_nat i < n → Z.of_nat j < loc_n →
       is_Some (blk !! (i * Z.to_nat loc_n + j)%nat) ∧
       blk !! (i * Z.to_nat loc_n + j)%nat =
       mat !! (i * Z.to_nat n + (k * Z.to_nat loc_n + j))%nat) ∧
    Print_matrix loc_mats n loc_n blk_col_mpi_t = Some mat.
Proof.
  intros Hp Hn Hrem Hmax Hin loc_n blk_col_mpi_t mat.
  destruct (divides_blocks p n Hp Hn Hrem) as (N & m & -> & Hq & HN).
  subst loc_n blk_col_mpi_t mat. rewrite Hq, !Nat2Z.id.
  replace (Z.to_nat (Z.of_nat N * Z.of_nat N)) with (N * N)%nat by lia.
  destruct (Read_matrix_total N m p input) as (mats & Hread & Hlen & Hblk);
    [lia|nia|lia|lia|].
  exists mats. split; [done|]. split; [done|].
  assert (Hmat : length (take (N * N) input) = (N * N)%nat).
  { rewrite length_take. lia. }
  split.
  - intros k i j blk Hk Hi Hj.
    destruct (Hblk k blk Hk) as [_ Hcol].
    destruct (Hcol i j ltac:(lia) ltac:(lia)) as (x & -> & ->). by split.
  - unfold Print_matrix, int_mul.
    rewrite (checked_in (Z.of_nat N * Z.of_nat N)) by (unfold INT_MIN; nia).
    cbn [mbind option_bind].
    rewrite (checked_in (Z.of_nat N * Z.of_nat m)) by (unfold INT_MIN; nia).
    cbn [mbind option_bind].
    apply (MPI_Gather_block_columns (take (N * N) input) N m p); try done.
    rewrite length_malloc. lia.
Qed.

Lemma C5_gather_inverts_scatter_witness :
  ∃ loc_mats,
    Read_matrix [0; 1; 2; 3; 4; 0; 5; 6; 7; 8; 0; 9; 8; 7; 6; 0] 4 2
      (Build_blk_col_type 4 2) 2 = Some loc_mats ∧
    loc_mats = [[0; 1; 4; 0; 7; 8; 8; 7]; [2; 3; 5; 6; 0; 9; 6; 0]] ∧
    Print_matrix loc_mats 4 2 (Build_blk_col_type 4 2) =
      Some [0; 1; 2; 3; 4; 0; 5; 6; 7; 8; 0; 9; 8; 7; 6; 0].
Proof.
  destruct (C5_gather_inverts_scatter 2 4
              [0; 1; 2; 3; 4; 0; 5; 6; 7; 8; 0; 9; 8; 7; 6; 0])
    as (loc_mats & Hread & _ & _ & Hprint);
    [lia|lia|reflexivity|unfold INT_MAX; lia|simpl; lia|].
  exists loc_mats. split; [exact Hread|]. split; [|exact Hprint].
  vm_compute in Hread. inversion Hread. reflexivity.
Defined.

(** A matrix of 46341 rows, on one process (1 divides 46341): it has more
    than [INT_MAX] cells, the [int] product [n * n] that sizes the [malloc]
    of [Read_matrix] and that of [Print_matrix] overflows, and no matrix is
    distributed or rebuilt, whatever the input. *)
Lemma C5_counterexample :
  Z.rem 46341 (Z.of_nat 1) = 0 ∧
  INT_MAX < 46341 * 46341 ∧
  int_mul 46341 46341 = None ∧
  (∀ input,
     Read_matrix input 46341 (Z.quot 46341 (Z.of_nat 1))
       (Build_blk_col_type 46341 (Z.quot 46341 (Z.of_nat 1))) 1 = None) ∧
  (∀ loc_mats,
     Print_matrix loc_mats 46341 (Z.quot 46341 (Z.of_nat 1))
       (Build_blk_col_type 46341 (Z.quot 46341 (Z.of_nat 1))) = None).
Proof.
  assert (E : int_mul 46341 46341 = None) by reflexivity.
  split; [reflexivity|]. split; [unfold INT_MAX; lia|]. split; [exact E|].
  split.
  - intros input. unfold Read_matrix. by rewrite E.
  - intros loc_mats. unfold Print_matrix. by rewrite E.
Qed.

(** * Read_n *)

Lemma each_rank_Some {A B : Type} (f : Z → A → B) :
  ∀ xs r,
    each_rank (λ r x, Some (f r x)) r xs =
    Some (imap (λ i x, f (r + Z.of_nat i) x) xs).
Proof.
  induction xs as [|x xs IH]; intros r; [done|]. cbn [each_rank imap].
  cbn [mbind option_bind]. rewrite IH. cbn [mbind option_bind].
  replace (r + Z.of_nat 0) with r by lia. do 2 f_equal.
  apply imap_ext. intros i y _. simpl. f_equal. lia.
Qed.

Lemma mapM_zip_replicate {A B C : Type} (f : A → B → option C) (b : B) :
  ∀ (l : list A) (k : nat), (length l ≤ k)%nat →
    mapM (λ '(a, b'), f a b') (zip l (replicate k b)) = mapM (λ a, f a b) l.
Proof.
  induction l as [|a l IH]; intros k Hk; [done|].
  destruct k as [|k]; [simpl in Hk; lia|]. simpl in *.
  rewrite IH by lia. done.
Qed.

(** X12. [Read_n] gives every process the first number on the standard
    input of process 0, whatever the other processes have on theirs; every
    process consumes one number of its own input, and only process 0
    prints the prompt.  Without a number for process 0 the value returned
    is uninitialised. *)
Theorem X12_Read_n_broadcasts_rank0 (stdins : list (list Z)) :
  match stdins with
  | (n :: input) :: others =>
      Read_n stdins =
      Some (("Please enter the number of vertices in your matrix" +:+ newline,
             n, input)
            :: ((λ stdin, (EmptyString, n, tail stdin)) <$> others))
  | _ => Read_n stdins = None
  end.
Proof.
  destruct stdins as [|[|n input] others]; [done| |].
  - unfold Read_n, spmd. rewrite each_rank_Some. done.
  - unfold Read_n, spmd. rewrite each_rank_Some. cbn [mbind option_bind].
    cbn [imap fmap list_fmap MPI_Bcast]. cbn [mbind option_bind].
    cbn [length replicate zip zip_with mapM].
    cbn [Read_n_local scanf_d Z.eqb Z.add Z.of_nat fst snd].
    cbn [mbind option_bind]. rewrite length_fmap, length_imap.
    fold (zip (imap ((λ (i : nat) (x : list Z),
                        Read_n_local (0 + Z.of_nat i) x) ∘ S) others)
              (replicate (length others) (Some n))).
    rewrite (mapM_zip_replicate
               (λ l n0, n' ← n0; Some (l.1.1, n', l.2))) by
      (by rewrite length_imap).
    replace (mapM _ _) with
      (Some ((λ stdin, (EmptyString, n, tail stdin)) <$> others)); [done|].
    symmetry. apply mapM_Some. apply Forall2_same_length_lookup.
    split; [by rewrite length_imap, length_fmap|].
    intros i l r Hl Hr. rewrite list_lookup_imap in Hl.
    rewrite list_lookup_fmap in Hr.
    destruct (others !! i) as [stdin|]; [|done]. simpl in Hl, Hr.
    inversion Hl; subst l. inversion Hr; subst r. clear Hl Hr.
    unfold Read_n_local.
    replace (0 + Z.of_nat (S i) =? 0) with false
      by (symmetry; apply Z.eqb_neq; lia).
    by destruct stdin.
Qed.

(** * More on the rounds *)

Lemma Dijkstra_update_frame loc_n my_rank r w w' :
  Dijkstra_update loc_n my_rank r w = Some w' →
  loc_mat w' = loc_mat w ∧
  length (loc_dist w') = length (loc_dist w) ∧
  length (loc_pred w') = length (loc_pred w) ∧
  length (known w') = length (known w) ∧
  ∀ (j : nat) x, known w !! j = Some x → x ≠ 0 →
    loc_dist w' !! j = loc_dist w !! j ∧ loc_pred w' !! j = loc_pred w !! j.
Proof.
  destruct r as [md u]. intros H.
  apply Dijkstra_update_spec in H as (_ & w1 & Hw1 & Hinv).
  destruct Hinv as (Hmat & Hkn & Hld & Hlp & Hent).
  assert (H1 : loc_mat w1 = loc_mat w ∧ loc_dist w1 = loc_dist w ∧
               loc_pred w1 = loc_pred w ∧
               length (known w1) = length (known w) ∧
               ∀ (j : nat) x, known w !! j = Some x → x ≠ 0 →
                 ∃ x', known w1 !! j = Some x' ∧ x' ≠ 0).
  { destruct (Z.quot u loc_n =? my_rank).
    - destruct Hw1 as [Hr ->]. cbn. rewrite length_insert.
      repeat (split; [done|]). intros j x Hx Hnz.
      destruct (decide (j = Z.to_nat (Z.rem u loc_n))) as [->|Hne].
      + exists 1. split; [|done]. apply list_lookup_insert_eq. lia.
      + exists x. split; [|done]. by rewrite list_lookup_insert_ne.
    - subst w1. repeat (split; [done|]). intros j x Hx Hnz. by exists x. }
  destruct H1 as (E1 & E2 & E3 & E4 & Hk1).
  split; [congruence|]. split; [congruence|]. split; [congruence|].
  split; [congruence|].
  intros j x Hx Hnz. destruct (Hk1 j x Hx Hnz) as (x' & Hx' & Hnz').
  rewrite <- E2, <- E3. destruct (Hent j) as [Hlt Hge].
  destruct (decide (Z.of_nat j < loc_n)) as [Hj|Hj].
  - destruct (Hlt Hj) as (kk & Hkk & Hrel).
    rewrite Hx' in Hkk. inversion Hkk; subst kk.
    apply Z.eqb_neq in Hnz'. rewrite Hnz' in Hrel. done.
  - apply Hge. lia.
Qed.

(** X13. A round never writes to the matrix and never resizes an array,
    and once a vertex is marked known its distance and its predecessor
    are final: no later round changes them. *)
Theorem X13_round_keeps_known_entries loc_n ws ws' (k : nat) w :
  Dijkstra_round loc_n ws = Some ws' → ws !! k = Some w →
  ∃ w', ws' !! k = Some w' ∧
    loc_mat w' = loc_mat w ∧
    length (loc_dist w') = length (loc_dist w) ∧
    length (loc_pred w') = length (loc_pred w) ∧
    length (known w') = length (known w) ∧
    ∀ (j : nat) x, known w !! j = Some x → x ≠ 0 →
      loc_dist w' !! j = loc_dist w !! j ∧
      loc_pred w' !! j = loc_pred w !! j.
Proof.
  intros H Hk. apply Dijkstra_round_Some in H as (mins & r & _ & _ & Hu).
  destruct (spmd_lookup _ _ _ Hu k w Hk) as (w' & Hk' & Hup).
  exists w'. split; [done|]. by eapply Dijkstra_update_frame.
Qed.

Lemma X13_round_keeps_known_entries_witness :
  ∃ w', [Proc [0; 7; 2; 3; 4; 0; 5; 6; 7; 1; 0; 9; 8; 2; 1; 0]
              [0; 5; 2; 3] [0; 3; 0; 0] [1; 0; 1; 1]] !! O = Some w' ∧
    loc_mat w' = [0; 7; 2; 3; 4; 0; 5; 6; 7; 1; 0; 9; 8; 2; 1; 0] ∧
    length (loc_dist w') = 4%nat ∧
    length (loc_pred w') = 4%nat ∧
    length (known w') = 4%nat ∧
    ∀ (j : nat) x, [1; 0; 1; 0] !! j = Some x → x ≠ 0 →
      loc_dist w' !! j = [0; 7; 2; 3] !! j ∧
      loc_pred w' !! j = [0; 0; 0; 0] !! j.
Proof.
  apply (X13_round_keeps_known_entries 4
           [Proc [0; 7; 2; 3; 4; 0; 5; 6; 7; 1; 0; 9; 8; 2; 1; 0]
                 [0; 7; 2; 3] [0; 0; 0; 0] [1; 0; 1; 0]]
           [Proc [0; 7; 2; 3; 4; 0; 5; 6; 7; 1; 0; 9; 8; 2; 1; 0]
                 [0; 5; 2; 3] [0; 3; 0; 0] [1; 0; 1; 1]] 0
           (Proc [0; 7; 2; 3; 4; 0; 5; 6; 7; 1; 0; 9; 8; 2; 1; 0]
                 [0; 7; 2; 3] [0; 0; 0; 0] [1; 0; 1; 0])).
  - vm_compute. reflexivity.
  - reflexivity.
Defined.

(** X14. With [p] dividing [n], every round that does not fail marks
    exactly one more vertex: after [rounds] rounds, [rounds + 1] vertices
    are known and [n - 1 - rounds] are not. *)
Theorem X14_one_vertex_per_round (rounds p : nat) (n : Z) input ws :
  main_upto rounds p n input = Some ws →
  Z.rem n (Z.of_nat p) = 0 →
  Z.of_nat rounds ≤ n - 1 →
  length (gathered_known ws) = Z.to_nat n ∧
  unknown_count (gathered_known ws) = (Z.to_nat n - 1 - rounds)%nat.
Proof.
  intros Hrun Hrem Hr.
  destruct (main_upto_is_seq_rounds _ p n input ws Hrun Hrem)
    as (N & m & -> & Em & Hp & Hm & HNp & HN & Hin & Hwf & Hg).
  assert (Hmat : length (take (N * N) input) = (N * N)%nat).
  { rewrite length_take. lia. }
  assert (Hinv := seq_rounds_inv _ N rounds Hmat).
  assert (Hge := seq_rounds_count _ N rounds Hmat).
  assert (Hle := inv_count _ _ _ _ Hinv).
  rewrite <- Hg in Hge, Hle. cbn [gathered sknown] in Hge, Hle.
  rewrite Nat2Z.id. split; [|lia]. apply (wf_known_length _ _ _ _ Hwf).
Qed.

Lemma X14_one_vertex_per_round_witness :
  length (gathered_known
            [Proc [0; 4; 1; 0; 7; 2; 8; 7] [0; 4] [0; 0] [1; 1];
             Proc [9; 9; 2; 6; 0; 1; 6; 0] [6; 9] [1; 0] [0; 0]])
    = Z.to_nat 4 ∧
  unknown_count
    (gathered_known
       [Proc [0; 4; 1; 0; 7; 2; 8; 7] [0; 4] [0; 0] [1; 1];
        Proc [9; 9; 2; 6; 0; 1; 6; 0] [6; 9] [1; 0] [0; 0]])
    = (Z.to_nat 4 - 1 - 1)%nat.
Proof.
  apply (X14_one_vertex_per_round 1 2 4
           [0; 4; 9; 9; 1; 0; 2; 6; 7; 2; 0; 1; 8; 7; 6; 0]).
  - vm_compute. reflexivity.
  - reflexivity.
  - lia.
Defined.

(** No walk to a known vertex costs less than its distance. *)
Lemma walk_bound_known mat (N : nat) st :
  nonneg_weights mat → length mat = (N * N)%nat →
  length (sknown st) = N → seq_opt mat N st →
  ∀ vs a v, (a < N)%nat → (v < N)%nat → is_known (sknown st) a →
    walk N a vs v → is_known (sknown st) v →
    source_dist (sdist st) v ≤
    source_dist (sdist st) a + walk_cost mat N a vs.
Proof.
  intros Hnn Hlen Lk [J3 J1 J2].
  induction vs as [|y vs IH]; intros a v Ha Hv Hka [Hvs Hlast] Hkv.
  - simpl in Hlast. inversion Hlast; subst v. simpl. lia.
  - apply Forall_cons in Hvs as [Hy Hvs].
    assert (Hay := J1 a y Ha Hy Hka).
    destruct (lookup_lt_is_Some_2 (sknown st) y ltac:(lia)) as [ky Hky].
    destruct (decide (ky = 0)) as [->|Hnz].
    + assert (H := J2 v y Hv Hy Hkv Hky).
      assert (H' := walk_cost_nonneg mat N Hnn Hlen vs y Hy Hvs).
      simpl. lia.
    + assert (H := IH y v Hy Hv ltac:(by exists ky) ltac:(by split) Hkv).
      simpl. lia.
Qed.

(** X15. What [known] means, at every round boundary of a run on a matrix
    without negative weights ([p] dividing [n]): the distance held for a
    vertex marked known is already the cost of a shortest walk from
    vertex 0. *)
Theorem X15_known_means_shortest (rounds p : nat) (n : Z) input ws
    (v : nat) x :
  main_upto rounds p n input = Some ws →
  Z.rem n (Z.of_nat p) = 0 →
  nonneg_weights (take (Z.to_nat (n * n)) input) →
  (0 < v)%nat → gathered_known ws !! v = Some x → x ≠ 0 →
  ∃ d vs,
    gathered_dist ws !! v = Some d ∧
    walk (Z.to_nat n) 0 vs v ∧
    walk_cost (take (Z.to_nat (n * n)) input) (Z.to_nat n) 0 vs = d ∧
    ∀ vs', walk (Z.to_nat n) 0 vs' v →
           d ≤ walk_cost (take (Z.to_nat (n * n)) input) (Z.to_nat n) 0 vs'.
Proof.
  intros Hrun Hrem Hnn Hv0 Hx Hnz.
  destruct (main_upto_is_seq_rounds _ p n input ws Hrun Hrem)
    as (N & m & -> & Em & Hp & Hm & HNp & HN & Hin & Hwf & Hg).
  rewrite Nat2Z.id in *.
  replace (Z.to_nat (Z.of_nat N * Z.of_nat N)) with (N * N)%nat in * by lia.
  set (mat := take (N * N) input) in *.
  assert (Hmat : length mat = (N * N)%nat).
  { subst mat. rewrite length_take. lia. }
  assert (Hinv := seq_rounds_inv mat N rounds Hmat).
  assert (Hopt := seq_rounds_opt mat N rounds Hnn Hmat).
  rewrite <- Hg in Hinv, Hopt.
  assert (HvN : (v < N)%nat).
  { rewrite <- (wf_known_length _ _ _ _ Hwf). by eapply lookup_lt_Some. }
  assert (Hkv : is_known (sknown (gathered ws)) v) by by exists x.
  destruct (inv_path _ _ _ _ Hinv v HvN Hkv) as (s & _ & Hpath).
  destruct (known_path_walk mat N _ _ Hinv s v Hpath HvN)
    as (vs & Hw & Hc & _).
  destruct (lookup_lt_is_Some_2 (gathered_dist ws) v) as [d Hd].
  { rewrite (wf_dist_length _ _ _ _ Hwf). lia. }
  cbn [gathered sdist] in Hc.
  rewrite (source_dist_lookup _ v d ltac:(lia) Hd) in Hc.
  exists d, vs. split; [done|]. split; [done|]. split; [done|].
  intros vs' Hw'.
  assert (H := walk_bound_known mat N (gathered ws) Hnn Hmat
                 (inv_lknown _ _ _ _ Hinv) Hopt vs' O v ltac:(lia) HvN
                 (inv_source _ _ _ _ Hinv ltac:(lia)) Hw' Hkv).
  cbn [gathered sdist] in H.
  rewrite (source_dist_lookup _ v d ltac:(lia) Hd) in H.
  change (source_dist (gathered_dist ws) 0) with 0 in H. lia.
Qed.

Lemma X15_known_means_shortest_witness :
  ∃ d vs,
    gathered_dist
      [Proc [0; 4; 1; 0; 7; 2; 8; 7] [0; 4] [0; 0] [1; 1];
       Proc [9; 9; 2; 6; 0; 1; 6; 0] [6; 9] [1; 0] [0; 0]] !! 1%nat
      = Some d ∧
    walk (Z.to_nat 4) 0 vs 1 ∧
    walk_cost
      (take (Z.to_nat (4 * 4))
         [0; 4; 9; 9; 1; 0; 2; 6; 7; 2; 0; 1; 8; 7; 6; 0])
      (Z.to_nat 4) 0 vs = d ∧
    ∀ vs', walk (Z.to_nat 4) 0 vs' 1 →
      d ≤ walk_cost
            (take (Z.to_nat (4 * 4))
               [0; 4; 9; 9; 1; 0; 2; 6; 7; 2; 0; 1; 8; 7; 6; 0])
            (Z.to_nat 4) 0 vs'.
Proof.
  apply (X15_known_means_shortest 1 2 4
           [0; 4; 9; 9; 1; 0; 2; 6; 7; 2; 0; 1; 8; 7; 6; 0]
           [Proc [0; 4; 1; 0; 7; 2; 8; 7] [0; 4] [0; 0] [1; 1];
            Proc [9; 9; 2; 6; 0; 1; 6; 0] [6; 9] [1; 0] [0; 0]] 1 1).
  - vm_compute. reflexivity.
  - reflexivity.
  - unfold nonneg_weights. vm_compute take. repeat constructor; lia.
  - lia.
  - reflexivity.
  - lia.
Defined.

(** * The loops all end *)

Lemma path_loop_no_Timeout pred :
  ∀ (fuel : nat) path count w,
    0 ≤ count → (Z.to_nat (Z.of_nat (length path) - count) < fuel)%nat →
    path_loop fuel pred path count w ≠ Timeout.
Proof.
  induction fuel as [|fuel IH]; intros path count w Hc Hf; [lia|].
  simpl. destruct (w =? 0); [done|].
  destruct (wr path count w) as [path'|] eqn:Ewr; [|done].
  destruct (int_add count 1) as [c1|] eqn:Eadd; [|done].
  destruct (rd pred w) as [w1|]; [|done].
  apply int_add_Some in Eadd. subst c1.
  apply wr_Some in Ewr as [Hlt ->].
  apply IH; [lia|]. rewrite length_insert. lia.
Qed.

Lemma Print_paths_lines_no_Timeout pred (fuel : nat) :
  ∀ vs path, (length path < fuel)%nat →
    Print_paths_lines fuel pred path vs ≠ Timeout.
Proof.
  induction vs as [|v vs IH]; intros path Hf; [done|]. simpl.
  destruct (path_loop fuel pred path 0 v) as [[path' count]| | |] eqn:E;
    cbn [obind]; try done.
  - destruct (path_loop_sound pred fuel path O v path' count E)
      as (l & _ & _ & Hlen & _).
    destruct (print_path path' count); cbn [of_option obind]; [|done].
    assert (H := IH path' ltac:(lia)).
    by destruct (Print_paths_lines fuel pred path' vs).
  - exfalso. apply (path_loop_no_Timeout pred fuel path 0 v); [lia|lia|done].
Qed.

(** X16. The program cannot loop for ever.  The only loop without a
    bound of its own is the walk along [pred] in [Print_paths], and it
    stores a vertex into [path], an array of [n] ints, on every pass:
    after at most [n] passes it has reached vertex 0 or it writes past the
    end of [path]. *)
Theorem X16_no_endless_loop (fuel p : nat) (n : Z) input :
  (Z.to_nat n < fuel)%nat →
  main fuel p n input ≠ Timeout ∧
  ∀ loc_preds loc_n, Print_paths fuel loc_preds n loc_n ≠ Timeout.
Proof.
  intros Hf.
  assert (HP : ∀ loc_preds loc_n, Print_paths fuel loc_preds n loc_n ≠ Timeout).
  { intros loc_preds loc_n. unfold Print_paths.
    destruct (MPI_Gather loc_preds loc_n (malloc n) loc_n MPI_INT);
      cbn [of_option obind]; [|done].
    apply Print_paths_lines_no_Timeout. by rewrite length_malloc. }
  split; [|done]. unfold main.
  destruct (main_compute p n input) as [ws|]; cbn [of_option obind]; [|done].
  destruct (Print_dists _ _ _); cbn [of_option obind]; [|done].
  assert (H := HP (loc_pred <$> ws) (Z.quot n (Z.of_nat p))).
  by destruct (Print_paths _ _ _ _).
Qed.

Lemma X16_no_endless_loop_witness :
  main 3 1 2 [0; 1; 1; 0] ≠ Timeout ∧
  ∀ loc_preds loc_n, Print_paths 3 loc_preds 2 loc_n ≠ Timeout.
Proof. apply (X16_no_endless_loop 3 1 2 [0; 1; 1; 0]). simpl. lia. Defined.

(** * Find_min_dist *)

(** X17. [Find_min_dist] on arrays of at least [loc_n] entries: it
    returns the first unknown entry of least distance when that distance
    is under [INFINITY], and [INFINITY], which is no index, when no unknown
    entry is under [INFINITY]. *)
Theorem X17_Find_min_dist_result (dist known : list Z) (m : nat) :
  (m ≤ length dist)%nat → (m ≤ length known)%nat →
  ∃ u, Find_min_dist dist known (Z.of_nat m) = Some u ∧
    ((u = INFINITY ∧
      ∀ (v : nat) d, (v < m)%nat → known !! v = Some 0 →
        dist !! v = Some d → INFINITY ≤ d) ∨
     (∃ (un : nat) md,
        u = Z.of_nat un ∧ (un < m)%nat ∧
        known !! un = Some 0 ∧ dist !! un = Some md ∧ md < INFINITY ∧
        ∀ (v : nat) d, (v < m)%nat → known !! v = Some 0 →
          dist !! v = Some d → md ≤ d ∧ ((v < un)%nat → md < d))).
Proof.
  intros Hd Hk.
  destruct (Find_min_dist_total dist known m Hd Hk) as [u Hu].
  exists u. split; [done|].
  destruct (Find_min_dist_spec dist known (Z.of_nat m) u Hu)
    as [[-> Hno]|(un & md & -> & Hlt & Hmd & Hku & Hdu & Hmin)].
  - left. split; [done|]. intros v d Hv. apply Hno. lia.
  - right. exists un, md. split; [done|]. split; [lia|].
    split; [done|]. split; [done|]. split; [done|].
    intros v d Hv. apply Hmin. lia.
Qed.

Lemma X17_Find_min_dist_result_witness :
  ∃ u, Find_min_dist [0; 5; 1000000; 5] [1; 0; 0; 0] (Z.of_nat 4) = Some u ∧
    ((u = INFINITY ∧
      ∀ (v : nat) d, (v < 4)%nat → [1; 0; 0; 0] !! v = Some 0 →
        [0; 5; 1000000; 5] !! v = Some d → INFINITY ≤ d) ∨
     (∃ (un : nat) md,
        u = Z.of_nat un ∧ (un < 4)%nat ∧
        [1; 0; 0; 0] !! un = Some 0 ∧ [0; 5; 1000000; 5] !! un = Some md ∧
        md < INFINITY ∧
        ∀ (v : nat) d, (v < 4)%nat → [1; 0; 0; 0] !! v = Some 0 →
          [0; 5; 1000000; 5] !! v = Some d →
          md ≤ d ∧ ((v < un)%nat → md < d))).
Proof.
  apply (X17_Find_min_dist_result [0; 5; 1000000; 5] [1; 0; 0; 0] 4).
  - simpl. lia.
  - simpl. lia.
Defined.

(** * The tables and the owners of the vertices *)

(** X18. [Print_dists] on a group whose processes hold [m] distances
    each: the line for vertex [v] shows entry [v mod m] of the array of
    process [v / m]. *)
Theorem X18_Print_dists_owner (m : nat) ws (v : nat) :
  (∀ (k : nat) w, ws !! k = Some w → length (loc_dist w) = m) →
  (0 < v < length ws * m)%nat →
  ∃ lines w d,
    Print_dists (loc_dist <$> ws) (Z.of_nat (length ws * m)) (Z.of_nat m)
      = Some lines ∧
    length lines = (length ws * m - 1)%nat ∧
    ws !! (v / m)%nat = Some w ∧ loc_dist w !! (v mod m)%nat = Some d ∧
    lines !! (v - 1)%nat = Some (Z.of_nat v, d).
Proof.
  intros Hlen Hv.
  assert (Hm : (0 < m)%nat) by nia.
  rewrite (Print_dists_gathered (length ws * m) m ws Hlen eq_refl).
  assert (Hk : (v / m < length ws)%nat) by (apply Nat.Div0.div_lt_upper_bound; lia).
  destruct (lookup_lt_is_Some_2 ws (v / m)%nat Hk) as [w Hw].
  assert (Hj : (v mod m < m)%nat) by (apply Nat.mod_upper_bound; lia).
  destruct (lookup_lt_is_Some_2 (loc_dist w) (v mod m)%nat) as [d Hd].
  { by rewrite (Hlen _ _ Hw). }
  eexists _, w, d. split; [done|].
  split; [rewrite length_fmap, length_seqZ; lia|].
  split; [done|]. split; [done|].
  rewrite list_lookup_fmap.
  assert (Hseq : seqZ 1 (Z.of_nat (length ws * m) - 1) !! (v - 1)%nat
                 = Some (Z.of_nat v)).
  { rewrite lookup_seqZ. split; lia. }
  rewrite Hseq. simpl. rewrite Nat2Z.id. do 2 f_equal.
  apply list_lookup_total_correct. unfold gathered_dist.
  rewrite <- Hd. rewrite <- (lookup_pieces loc_dist m ws Hlen _ _ w Hw Hj).
  f_equal. rewrite (Nat.div_mod_eq v m) at 1. lia.
Qed.

Lemma X18_Print_dists_owner_witness :
  ∃ lines w d,
    Print_dists
      (loc_dist <$>
         [Proc [0; 4; 1; 0; 7; 2; 8; 7] [0; 4] [0; 0] [1; 1];
          Proc [9; 9; 2; 6; 0; 1; 6; 0] [6; 7] [1; 2] [1; 1]])
      (Z.of_nat (2 * 2)) (Z.of_nat 2) = Some lines ∧
    length lines = (2 * 2 - 1)%nat ∧
    [Proc [0; 4; 1; 0; 7; 2; 8; 7] [0; 4] [0; 0] [1; 1];
     Proc [9; 9; 2; 6; 0; 1; 6; 0] [6; 7] [1; 2] [1; 1]] !! (3 / 2)%nat
      = Some w ∧
    loc_dist w !! (3 mod 2)%nat = Some d ∧
    lines !! (3 - 1)%nat = Some (Z.of_nat 3, d).
Proof.
  apply (X18_Print_dists_owner 2
           [Proc [0; 4; 1; 0; 7; 2; 8; 7] [0; 4] [0; 0] [1; 1];
            Proc [9; 9; 2; 6; 0; 1; 6; 0] [6; 7] [1; 2] [1; 1]] 3).
  - intros [|[|k]] w Hk; inversion Hk; reflexivity.
  - simpl. lia.
Defined.

(** * The rounds and sequential Dijkstra *)

(** X19. With [p] dividing [n], at every round boundary the run reaches,
    the vectors held in pieces by the processes are those of sequential
    Dijkstra after as many rounds on the whole matrix: same distances, same
    predecessors, same known vertices. *)
Theorem X19_rounds_are_sequential (rounds p : nat) (n : Z) input ws :
  main_upto rounds p n input = Some ws →
  Z.rem n (Z.of_nat p) = 0 →
  let st := seq_rounds (take (Z.to_nat (n * n)) input) (Z.to_nat n) rounds in
  gathered_dist ws = sdist st ∧
  gathered_pred ws = spred st ∧
  gathered_known ws = sknown st.
Proof.
  intros Hrun Hrem st.
  destruct (main_upto_is_seq_rounds _ p n input ws Hrun Hrem)
    as (N & m & -> & Em & Hp & Hm & HNp & HN & Hin & Hwf & Hg).
  subst st. rewrite Nat2Z.id.
  replace (Z.to_nat (Z.of_nat N * Z.of_nat N)) with (N * N)%nat by lia.
  rewrite <- Hg. done.
Qed.

Lemma X19_rounds_are_sequential_witness :
  gathered_dist
    [Proc [0; 4; 1; 0; 7; 2; 8; 7] [0; 4] [0; 0] [1; 1];
     Proc [9; 9; 2; 6; 0; 1; 6; 0] [6; 9] [1; 0] [0; 0]] =
  sdist (seq_rounds
           (take (Z.to_nat (4 * 4))
              [0; 4; 9; 9; 1; 0; 2; 6; 7; 2; 0; 1; 8; 7; 6; 0])
           (Z.to_nat 4) 1) ∧
  gathered_pred
    [Proc [0; 4; 1; 0; 7; 2; 8; 7] [0; 4] [0; 0] [1; 1];
     Proc [9; 9; 2; 6; 0; 1; 6; 0] [6; 9] [1; 0] [0; 0]] =
  spred (seq_rounds
           (take (Z.to_nat (4 * 4))
              [0; 4; 9; 9; 1; 0; 2; 6; 7; 2; 0; 1; 8; 7; 6; 0])
           (Z.to_nat 4) 1) ∧
  gathered_known
    [Proc [0; 4; 1; 0; 7; 2; 8; 7] [0; 4] [0; 0] [1; 1];
     Proc [9; 9; 2; 6; 0; 1; 6; 0] [6; 9] [1; 0] [0; 0]] =
  sknown (seq_rounds
            (take (Z.to_nat (4 * 4))
               [0; 4; 9; 9; 1; 0; 2; 6; 7; 2; 0; 1; 8; 7; 6; 0])
            (Z.to_nat 4) 1).
Proof.
  apply (X19_rounds_are_sequential 1 2 4
           [0; 4; 9; 9; 1; 0; 2; 6; 7; 2; 0; 1; 8; 7; 6; 0]).
  - vm_compute. reflexivity.
  - reflexivity.
Defined.

(** * The largest matrix *)

(** X20. The matrix has to have at most [INT_MAX] cells: process 0
    computes [n * n] in [int] arithmetic for its [malloc], and beyond
    46340 vertices the product overflows, whatever the number of
    processes. *)
Theorem X20_matrix_too_large (fuel p : nat) (n : Z) input :
  INT_MAX < n * n →
  int_mul n n = None ∧
  main_compute p n input = None ∧
  main fuel p n input = Undefined.
Proof.
  intros Hn.
  assert (Hmul : int_mul n n = None).
  { unfold int_mul, checked, in_int.
    replace (n * n <=? INT_MAX) with false
      by (symmetry; apply Z.leb_gt; lia).
    by rewrite andb_false_r. }
  assert (Hrun : main_compute p n input = None).
  { unfold main_compute.
    destruct (int_div n (Z.of_nat p)) as [loc_n|]; [|done].
    cbn [mbind option_bind].
    destruct (int_mul n loc_n); [|done]. cbn [mbind option_bind].
    unfold Read_matrix. by rewrite Hmul. }
  split; [done|]. split; [done|]. unfold main. by rewrite Hrun.
Qed.

Lemma X20_matrix_too_large_witness :
  int_mul 46341 46341 = None ∧
  main_compute 1 46341 [] = None ∧
  main 1 1 46341 [] = Undefined.
Proof.
  apply (X20_matrix_too_large 1 1 46341 []). unfold INT_MAX. lia.
Defined.

(** * One round, in terms of the gathered vectors *)

Lemma round_pick (rounds p : nat) (n : Z) input ws ws' :
  main_upto rounds p n input = Some ws →
  Z.rem n (Z.of_nat p) = 0 →
  Z.of_nat rounds < n - 1 →
  Dijkstra_round (Z.quot n (Z.of_nat p)) ws = Some ws' →
  ∃ (N : nat) (u : nat) d,
    n = Z.of_nat N ∧
    length (gathered_dist ws) = N ∧ length (gathered_pred ws) = N ∧
    length (gathered_known ws) = N ∧
    seq_find_min (gathered_dist ws) (gathered_known ws) N = Some (d, u) ∧
    (u < N)%nat ∧ d < INFINITY ∧
    unknown_min (gathered_dist ws) (gathered_known ws) (Z.of_nat N) u d ∧
    gathered ws' = seq_round (take (N * N) input) N (gathered ws).
Proof.
  intros Hrun Hrem Hr Hround.
  destruct (main_upto_is_seq_rounds _ p n input ws Hrun Hrem)
    as (N & m & -> & Em & Hp & Hm & HNp & HN & Hin & Hwf & Hg).
  rewrite Em in Hround.
  assert (Hmat : length (take (N * N) input) = (N * N)%nat).
  { rewrite length_take. lia. }
  destruct (Dijkstra_round_simulates _ N m ws Hwf Hm HN ws' Hround)
    as [_ Hsim].
  assert (Hinv := seq_rounds_inv _ N rounds Hmat).
  assert (Hcount := seq_rounds_count _ N rounds Hmat).
  rewrite <- Hg in Hinv, Hcount. cbn [gathered sknown] in Hcount.
  assert (Ld := wf_dist_length _ _ _ _ Hwf).
  assert (Lp := wf_pred_length _ _ _ _ Hwf).
  assert (Lk := wf_known_length _ _ _ _ Hwf).
  assert (Hspec := seq_find_min_spec (gathered_dist ws) (gathered_known ws) N
            ltac:(by rewrite Ld, Lk)).
  destruct (seq_find_min (gathered_dist ws) (gathered_known ws) N)
    as [[d u]|] eqn:Hpick.
  - destruct Hspec as [Hu Hmin].
    exists N, u, d. repeat (split; [done|]).
    split; [by eapply (Dijkstra_round_progress _ N m ws ws')|]. done.
  - exfalso. rewrite unknown_count_0 in Hcount; [lia|].
    intros v Hv. destruct (decide (v < N)%nat) as [Hlt|Hge].
    + by apply (Hspec v).
    + apply lookup_lt_Some in Hv. lia.
Qed.

(** X21. With [p] dividing [n], every round of the main loop that does
    not fail marks a vertex of the graph: the unknown vertex of least
    distance over all processes, the lowest id among equals, at a distance
    under [INFINITY]; no other entry of [known] changes. *)
Theorem X21_round_marks_closest_unknown (rounds p : nat) (n : Z) input
    ws ws' :
  main_upto rounds p n input = Some ws →
  Z.rem n (Z.of_nat p) = 0 →
  Z.of_nat rounds < n - 1 →
  Dijkstra_round (Z.quot n (Z.of_nat p)) ws = Some ws' →
  ∃ (u : nat) d,
    Z.of_nat u < n ∧
    gathered_known ws !! u = Some 0 ∧
    gathered_dist ws !! u = Some d ∧ d < INFINITY ∧
    (∀ (v : nat) d', gathered_known ws !! v = Some 0 →
       gathered_dist ws !! v = Some d' → d ≤ d' ∧ ((v < u)%nat → d < d')) ∧
    gathered_known ws' = <[u := 1]> (gathered_known ws).
Proof.
  intros Hrun Hrem Hr Hround.
  destruct (round_pick rounds p n input ws ws' Hrun Hrem Hr Hround)
    as (N & u & d & -> & Ld & Lp & Lk & Hpick & Hu & Hd & Hmin & Hsim).
  destruct Hmin as (Hku & Hdu & Hmin).
  exists u, d. split; [lia|]. split; [done|]. split; [done|].
  split; [done|]. split.
  - intros v d' Hkv Hdv. apply Hmin; [|done|done].
    apply lookup_lt_Some in Hkv. lia.
  - assert (E : gathered_known ws' = sknown (gathered ws')) by done.
    rewrite E, Hsim. unfold seq_round. cbn [gathered sdist sknown].
    by rewrite Hpick.
Qed.

Lemma X21_round_marks_closest_unknown_witness :
  ∃ (u : nat) d,
    Z.of_nat u < 4 ∧
    gathered_known
      [Proc [0; 4; 1; 0; 7; 2; 8; 7] [0; 4] [0; 0] [1; 1];
       Proc [9; 9; 2; 6; 0; 1; 6; 0] [6; 9] [1; 0] [0; 0]] !! u = Some 0 ∧
    gathered_dist
      [Proc [0; 4; 1; 0; 7; 2; 8; 7] [0; 4] [0; 0] [1; 1];
       Proc [9; 9; 2; 6; 0; 1; 6; 0] [6; 9] [1; 0] [0; 0]] !! u = Some d ∧
    d < INFINITY ∧
    (∀ (v : nat) d',
       gathered_known
         [Proc [0; 4; 1; 0; 7; 2; 8; 7] [0; 4] [0; 0] [1; 1];
          Proc [9; 9; 2; 6; 0; 1; 6; 0] [6; 9] [1; 0] [0; 0]] !! v = Some 0 →
       gathered_dist
         [Proc [0; 4; 1; 0; 7; 2; 8; 7] [0; 4] [0; 0] [1; 1];
          Proc [9; 9; 2; 6; 0; 1; 6; 0] [6; 9] [1; 0] [0; 0]] !! v = Some d' →
       d ≤ d' ∧ ((v < u)%nat → d < d')) ∧
    gathered_known
      [Proc [0; 4; 1; 0; 7; 2; 8; 7] [0; 4] [0; 0] [1; 1];
       Proc [9; 9; 2; 6; 0; 1; 6; 0] [6; 7] [1; 2] [1; 0]] =
    <[u := 1]>
      (gathered_known
         [Proc [0; 4; 1; 0; 7; 2; 8; 7] [0; 4] [0; 0] [1; 1];
          Proc [9; 9; 2; 6; 0; 1; 6; 0] [6; 9] [1; 0] [0; 0]]).
Proof.
  apply (X21_round_marks_closest_unknown 1 2 4
           [0; 4; 9; 9; 1; 0; 2; 6; 7; 2; 0; 1; 8; 7; 6; 0]).
  - vm_compute. reflexivity.
  - reflexivity.
  - lia.
  - vm_compute. reflexivity.
Defined.

(** X22. The relaxation of a round that does not fail ([p] dividing
    [n]), [u] being the vertex it marks and [d] the distance of [u]: a
    vertex [v] still unknown gets the distance [d + mat[u][v]] and the
    predecessor [u] when that is less than its distance, and keeps both
    otherwise. *)
Theorem X22_round_relaxes_through_winner (rounds p : nat) (n : Z) input
    ws ws' (v : nat) dv qv :
  main_upto rounds p n input = Some ws →
  Z.rem n (Z.of_nat p) = 0 →
  Z.of_nat rounds < n - 1 →
  Dijkstra_round (Z.quot n (Z.of_nat p)) ws = Some ws' →
  gathered_known ws' !! v = Some 0 →
  gathered_dist ws !! v = Some dv → gathered_pred ws !! v = Some qv →
  ∃ (u : nat) d,
    gathered_known ws' = <[u := 1]> (gathered_known ws) ∧
    gathered_dist ws !! u = Some d ∧
    let new_dist :=
      d + weight (take (Z.to_nat (n * n)) input) (Z.to_nat n) u v in
    if new_dist <? dv
    then gathered_dist ws' !! v = Some new_dist ∧
         gathered_pred ws' !! v = Some (Z.of_nat u)
    else gathered_dist ws' !! v = Some dv ∧
         gathered_pred ws' !! v = Some qv.
Proof.
  intros Hrun Hrem Hr Hround Hkv Hdv Hqv.
  destruct (round_pick rounds p n input ws ws' Hrun Hrem Hr Hround)
    as (N & u & d & -> & Ld & Lp & Lk & Hpick & Hu & Hd & Hmin & Hsim).
  destruct Hmin as (Hku & Hdu & Hmin).
  rewrite Nat2Z.id.
  replace (Z.to_nat (Z.of_nat N * Z.of_nat N)) with (N * N)%nat by lia.
  assert (Ek : gathered_known ws' = sknown (gathered ws')) by done.
  assert (Ed : gathered_dist ws' = sdist (gathered ws')) by done.
  assert (Ep : gathered_pred ws' = spred (gathered ws')) by done.
  rewrite Ek in Hkv. rewrite Ek, Ed, Ep, Hsim. clear Ek Ed Ep.
  rewrite Hsim in Hkv. unfold seq_round in *.
  cbn [gathered sdist spred sknown] in *. rewrite Hpick in *.
  cbn [sdist spred sknown] in *.
  exists u, d. split; [done|]. split; [done|]. cbv zeta.
  rewrite (lookup_imap_Some _ _ _ _ Hdv), (lookup_imap_Some _ _ _ _ Hqv).
  unfold seq_shorter.
  rewrite (list_lookup_total_correct _ _ _ Hkv),
          (list_lookup_total_correct _ _ _ Hdv).
  simpl. by destruct (_ <? _).
Qed.

Lemma X22_round_relaxes_through_winner_witness :
  ∃ (u : nat) d,
    gathered_known
      [Proc [0; 4; 1; 0; 7; 2; 8; 7] [0; 4] [0; 0] [1; 1];
       Proc [9; 9; 2; 6; 0; 1; 6; 0] [6; 7] [1; 2] [1; 0]] =
    <[u := 1]>
      (gathered_known
         [Proc [0; 4; 1; 0; 7; 2; 8; 7] [0; 4] [0; 0] [1; 1];
          Proc [9; 9; 2; 6; 0; 1; 6; 0] [6; 9] [1; 0] [0; 0]]) ∧
    gathered_dist
      [Proc [0; 4; 1; 0; 7; 2; 8; 7] [0; 4] [0; 0] [1; 1];
       Proc [9; 9; 2; 6; 0; 1; 6; 0] [6; 9] [1; 0] [0; 0]] !! u = Some d ∧
    let new_dist :=
      d + weight
            (take (Z.to_nat (4 * 4))
               [0; 4; 9; 9; 1; 0; 2; 6; 7; 2; 0; 1; 8; 7; 6; 0])
            (Z.to_nat 4) u 3 in
    if new_dist <? 9
    then gathered_dist
           [Proc [0; 4; 1; 0; 7; 2; 8; 7] [0; 4] [0; 0] [1; 1];
            Proc [9; 9; 2; 6; 0; 1; 6; 0] [6; 7] [1; 2] [1; 0]] !! 3%nat
           = Some new_dist ∧
         gathered_pred
           [Proc [0; 4; 1; 0; 7; 2; 8; 7] [0; 4] [0; 0] [1; 1];
            Proc [9; 9; 2; 6; 0; 1; 6; 0] [6; 7] [1; 2] [1; 0]] !! 3%nat
           = Some (Z.of_nat u)
    else gathered_dist
           [Proc [0; 4; 1; 0; 7; 2; 8; 7] [0; 4] [0; 0] [1; 1];
            Proc [9; 9; 2; 6; 0; 1; 6; 0] [6; 7] [1; 2] [1; 0]] !! 3%nat
           = Some 9 ∧
         gathered_pred
           [Proc [0; 4; 1; 0; 7; 2; 8; 7] [0; 4] [0; 0] [1; 1];
            Proc [9; 9; 2; 6; 0; 1; 6; 0] [6; 7] [1; 2] [1; 0]] !! 3%nat
           = Some 0.
Proof.
  apply (X22_round_relaxes_through_winner 1 2 4
           [0; 4; 9; 9; 1; 0; 2; 6; 7; 2; 0; 1; 8; 7; 6; 0]
           [Proc [0; 4; 1; 0; 7; 2; 8; 7] [0; 4] [0; 0] [1; 1];
            Proc [9; 9; 2; 6; 0; 1; 6; 0] [6; 9] [1; 0] [0; 0]]
           [Proc [0; 4; 1; 0; 7; 2; 8; 7] [0; 4] [0; 0] [1; 1];
            Proc [9; 9; 2; 6; 0; 1; 6; 0] [6; 7] [1; 2] [1; 0]] 3 9 0).
  - vm_compute. reflexivity.
  - reflexivity.
  - lia.
  - vm_compute. reflexivity.
  - reflexivity.
  - reflexivity.
  - reflexivity.
Defined.

(** X23. The state before the first round, [p] dividing [n]: the
    distance of every vertex, vertex 0 included, is its entry in row 0 of
    the matrix, every predecessor is 0, and vertex 0 alone is known. *)
Theorem X23_initial_state (p : nat) (n : Z) input ws :
  main_upto 0 p n input = Some ws →
  Z.rem n (Z.of_nat p) = 0 →
  gathered_dist ws = take (Z.to_nat n) input ∧
  gathered_pred ws = replicate (Z.to_nat n) 0 ∧
  gathered_known ws = 1 :: replicate (Z.to_nat n - 1) 0.
Proof.
  intros Hrun Hrem.
  destruct (main_upto_is_seq_rounds _ p n input ws Hrun Hrem)
    as (N & m & -> & Em & Hp & Hm & HNp & HN & Hin & Hwf & Hg).
  rewrite Nat2Z.id.
  assert (E : gathered ws = seq_init (take (N * N) input) N) by done.
  assert (HN0 : (0 < N)%nat) by nia.
  assert (E1 : gathered_dist ws = sdist (gathered ws)) by done.
  assert (E2 : gathered_pred ws = spred (gathered ws)) by done.
  assert (E3 : gathered_known ws = sknown (gathered ws)) by done.
  rewrite E1, E2, E3, E. unfold seq_init. cbn [sdist spred sknown].
  split; [|split; [done|]].
  - rewrite take_take. f_equal. nia.
  - destruct N as [|N]; [lia|]. simpl. by rewrite Nat.sub_0_r.
Qed.

Lemma X23_initial_state_witness :
  gathered_dist
    [Proc [5; 4; 1; 0; 7; 2; 8; 7] [5; 4] [0; 0] [1; 0];
     Proc [9; 9; 2; 6; 0; 1; 6; 0] [9; 9] [0; 0] [0; 0]] =
  take (Z.to_nat 4) [5; 4; 9; 9; 1; 0; 2; 6; 7; 2; 0; 1; 8; 7; 6; 0] ∧
  gathered_pred
    [Proc [5; 4; 1; 0; 7; 2; 8; 7] [5; 4] [0; 0] [1; 0];
     Proc [9; 9; 2; 6; 0; 1; 6; 0] [9; 9] [0; 0] [0; 0]] =
  replicate (Z.to_nat 4) 0 ∧
  gathered_known
    [Proc [5; 4; 1; 0; 7; 2; 8; 7] [5; 4] [0; 0] [1; 0];
     Proc [9; 9; 2; 6; 0; 1; 6; 0] [9; 9] [0; 0] [0; 0]] =
  1 :: replicate (Z.to_nat 4 - 1) 0.
Proof.
  apply (X23_initial_state 2 4
           [5; 4; 9; 9; 1; 0; 2; 6; 7; 2; 0; 1; 8; 7; 6; 0]).
  - vm_compute. reflexivity.
  - reflexivity.
Defined.
